(** * Import pipeline of the code-ontology generator: [tree-to-graph.js],
    its first version [unnamed/part_000], and the query endpoint of
    [index.js] with its numeric-conversion helper.

    The script reads a JSON array of file records, normalises them, and sends
    Cypher statements to a Neo4j database.  The embedding below keeps the
    JavaScript control flow (records on a heap, [try]/[catch]/[finally],
    [process.exit]) and gives each Cypher statement of the script its meaning
    on an explicit store: the [File] nodes and [IMPORTS] relationships of
    the database, which are the only label and the only relationship type
    the script mentions. *)

From Stdlib Require Import ZArith Ascii.
From stdpp Require Import gmap strings list fin_maps pretty.

Local Open Scope N_scope.

(** ** Data model *)

(** A record of the input array, as [JSON.parse] returns it.  A property that
    is missing (or [null]) is [None]. *)
Module File.
Record t := mk {
  path : option string;
  name : option string;
  loc : option Z;
  description : option string;
  externalImports : option (list string);
  importFiles : option (list string);
  id : option string
}.

Definition set_description (d : option string) (f : t) : t :=
  mk (path f) (name f) (loc f) d (externalImports f) (importFiles f) (id f).

Definition set_id (i : option string) (f : t) : t :=
  mk (path f) (name f) (loc f) (description f) (externalImports f)
     (importFiles f) i.
End File.

(** The properties of a [File] node.  In Cypher, a property set to [null] is
    removed, so a missing property is [None] here too. *)
Module Node.
Record t := mk {
  path : option string;
  id : option string;
  name : option string;
  loc : option Z;
  description : option string;
  externalImports : option (list string);
  projectUuid : option string;
  importCount : option Z;
  importedByCount : option Z;
  clusterId : option Z
}.

(** The node that [MERGE (f:File {path: p})] creates: the pattern's
    property and nothing else. *)
Definition blank (p : string) : t :=
  mk (Some p) None None None None None None None None None.

Definition set_projectUuid (u : option string) (n : t) : t :=
  mk (path n) (id n) (name n) (loc n) (description n) (externalImports n)
     u (importCount n) (importedByCount n) (clusterId n).

Definition set_counts (o i : Z) (n : t) : t :=
  mk (path n) (id n) (name n) (loc n) (description n) (externalImports n)
     (projectUuid n) (Some o) (Some i) (clusterId n).

Definition set_clusterId (c : Z) (n : t) : t :=
  mk (path n) (id n) (name n) (loc n) (description n) (externalImports n)
     (projectUuid n) (importCount n) (importedByCount n) (Some c).

#[global] Instance eq_dec : EqDecision t.
Proof. solve_decision. Defined.
End Node.

(** The database: nodes under their internal identifier ([id(f)] in Cypher),
    the [IMPORTS] relationships as (start, end) pairs, one entry per
    relationship, and the two uniqueness constraints of [ensureConstraint]. *)
Record Store := mkStore {
  nodes : gmap N Node.t;
  rels : list (N * N);
  path_unique : bool;
  id_unique : bool
}.

Definition set_nodes (m : gmap N Node.t) (st : Store) : Store :=
  mkStore m (rels st) (path_unique st) (id_unique st).

Definition set_rels (r : list (N * N)) (st : Store) : Store :=
  mkStore (nodes st) r (path_unique st) (id_unique st).

Definition empty_store : Store := mkStore ∅ [] false false.

(** ** Errors *)

Inductive Error :=
  | ServiceUnavailable (msg : string)
  | MergeNullProperty
  | ConstraintValidationFailed
  | ConstraintCreationFailed
  | GraphAlreadyExists
  | GraphNotFound
  | TypeError (msg : string).

Inductive result (A : Type) :=
  | Ok (a : A)
  | Err (e : Error).
Arguments Ok {A} a.
Arguments Err {A} e.

#[global] Instance result_ret : MRet result := λ A a, Ok a.

#[global] Instance result_bind : MBind result := λ A B k r,
  match r with
  | Ok a => k a
  | Err e => Err e
  end.

Fixpoint foldM {A B} (f : A → B → result A) (a : A) (l : list B) : result A :=
  match l with
  | [] => Ok a
  | b :: l' => a' ← f a b; foldM f a' l'
  end.

(** ** The Cypher clauses used by the script *)

(** Nodes that the pattern [(f:File {path: p})] matches. *)
Definition matching (p : string) (m : gmap N Node.t) : list N :=
  elements (dom (filter (λ kv, Node.path kv.2 = Some p) m)).

(** [MERGE (f:File {path: p}) ON CREATE SET .. ON MATCH SET ..]: every
    matching node is bound, and updated by [on_match]; when none matches,
    one node is created and updated by [on_create].  Returns the nodes
    bound to [f]. *)
Definition merge_file (p : string) (on_create on_match : Node.t → Node.t)
    (m : gmap N Node.t) : gmap N Node.t * list N :=
  match matching p m with
  | [] => let i := fresh (dom m) in (<[i := on_create (Node.blank p)]> m, [i])
  | hits => (foldr (alter on_match) m hits, hits)
  end.

(** [MERGE (a)-[:IMPORTS]->(b)] for bound [a] and [b]. *)
Definition merge_rel (a b : N) (rs : list (N * N)) : list (N * N) :=
  if decide ((a, b) ∈ rs) then rs else rs ++ [(a, b)].

(** The [SET] clause of the first statement. *)
Definition set_file_props (file : File.t) (projectUuid : string)
    (n : Node.t) : Node.t :=
  Node.mk (Node.path n) (File.id file) (File.name file) (File.loc file)
    (File.description file) (File.externalImports file) (Some projectUuid)
    (Node.importCount n) (Node.importedByCount n) (Node.clusterId n).

(** Would giving node [i] the id [v] break the uniqueness constraint on
    [f.id]?  A missing id never does. *)
Definition id_clash (st : Store) (i : N) (v : option string) : bool :=
  id_unique st &&
  match v with
  | None => false
  | Some x =>
      bool_decide (Exists (λ kv, kv.1 ≠ i ∧ Node.id kv.2 = Some x)
                     (map_to_list (nodes st)))
  end.

Definition set_one (file : File.t) (projectUuid : string) (st : Store)
    (i : N) : result Store :=
  if id_clash st i (File.id file) then Err ConstraintValidationFailed
  else Ok (set_nodes (alter (set_file_props file projectUuid) i (nodes st)) st).

(** One row of [UNWIND $files AS file MERGE (f:File {path: file.path}) SET ..].
    Rows are taken one at a time; taking the clauses one at a time over all
    rows sets the same properties on the same paths, and only the order in
    which new nodes get their identifiers differs. *)
Definition node_row (projectUuid : string) (st : Store) (file : File.t)
    : result Store :=
  match File.path file with
  | None => Err MergeNullProperty
  | Some p =>
      let '(m, fs) := merge_file p (λ n, n) (λ n, n) (nodes st) in
      foldM (set_one file projectUuid) (set_nodes m st) fs
  end.

(** Step 1 of [importRepo]: the whole statement, in one transaction. *)
Definition upsertNodes (files : list File.t) (projectUuid : string)
    (st : Store) : result Store :=
  foldM (node_row projectUuid) st files.

(** The loop that builds [relPairs]: [{from: file.path, to: imp}]. *)
Definition relPairs (files : list File.t) : list (option string * string) :=
  flat_map (λ file,
    match File.importFiles file with
    | None | Some [] => []
    | Some imps => map (λ imp, (File.path file, imp)) imps
    end) files.

(** [ON CREATE SET a.projectUuid = $projectUuid] *)
Definition on_create_endpoint (projectUuid : string) : Node.t → Node.t :=
  Node.set_projectUuid (Some projectUuid).

(** [ON MATCH SET a.projectUuid = coalesce(a.projectUuid, $projectUuid)] *)
Definition on_match_endpoint (projectUuid : string) (n : Node.t) : Node.t :=
  Node.set_projectUuid
    (Some (default projectUuid (Node.projectUuid n))) n.

(** [MERGE (a)-[:IMPORTS]->(b)] for one [a] and every [b] bound in its row. *)
Definition link_all (a : N) (bs : list N) (st : Store) : Store :=
  foldl (λ st b, set_rels (merge_rel a b (rels st)) st) st bs.

(** The rest of a row once [a] is bound: merge [b], then the relationship. *)
Definition merge_target (projectUuid : string) (to : string) (st : Store)
    (a : N) : Store :=
  let '(m, bs) :=
    merge_file to (on_create_endpoint projectUuid)
      (on_match_endpoint projectUuid) (nodes st) in
  link_all a bs (set_nodes m st).

(** One row of the second statement: merge [a], for each [a] merge [b], for
    each [b] merge the relationship. *)
Definition edge_row (projectUuid : string) (st : Store)
    (p : option string * string) : result Store :=
  match p.1 with
  | None => Err MergeNullProperty
  | Some from =>
      let '(m, as_) :=
        merge_file from (on_create_endpoint projectUuid)
          (on_match_endpoint projectUuid) (nodes st) in
      Ok (foldl (merge_target projectUuid p.2) (set_nodes m st) as_)
  end.

(** The second statement, over all pairs, in one transaction. *)
Definition merge_imports (projectUuid : string)
    (pairs : list (option string * string)) (st : Store) : result Store :=
  foldM (edge_row projectUuid) st pairs.

(** Step 2 of [importRepo]: nothing is sent when there is no pair. *)
Definition upsertEdges (files : list File.t) (projectUuid : string)
    (st : Store) : result Store :=
  match relPairs files with
  | [] => Ok st
  | pairs => merge_imports projectUuid pairs st
  end.

(** ** Uniqueness constraints *)

(** [CREATE CONSTRAINT IF NOT EXISTS FOR (f:File) REQUIRE f.<key> IS UNIQUE]:
    nothing to do when the constraint exists; otherwise the database refuses
    to create it over nodes that already share a value. *)
Definition create_unique (key : Node.t → option string) (exists_ : bool)
    (st : Store) : result bool :=
  if exists_ then Ok true
  else if bool_decide (NoDup (omap key (map_to_list (nodes st)).*2))
  then Ok true
  else Err ConstraintCreationFailed.

Definition create_path_constraint (st : Store) : result Store :=
  b ← create_unique Node.path (path_unique st) st;
  Ok (mkStore (nodes st) (rels st) b (id_unique st)).

Definition create_id_constraint (st : Store) : result Store :=
  b ← create_unique Node.id (id_unique st) st;
  Ok (mkStore (nodes st) (rels st) (path_unique st) b).

(** ** Degree counts *)

(** Rows of [OPTIONAL MATCH (f)-[:IMPORTS]->(out:File)] that bind [out]. *)
Definition out_rows (st : Store) (i : N) : list (N * N) :=
  filter (λ r, r.1 = i ∧ is_Some (nodes st !! r.2)) (rels st).

(** Rows of [OPTIONAL MATCH (in:File)-[:IMPORTS]->(f)] that bind [in]. *)
Definition in_rows (st : Store) (i : N) : list (N * N) :=
  filter (λ r, r.2 = i ∧ is_Some (nodes st !! r.1)) (rels st).

(** The statement of the loop body of [updateImportCounts], for [$id = i]:
    no row, and no write, when no node has that identifier. *)
Definition count_imports (i : N) (st : Store) : Store :=
  set_nodes
    (alter (Node.set_counts (Z.of_nat (length (out_rows st i)))
                            (Z.of_nat (length (in_rows st i)))) i
       (nodes st)) st.

(** ** Graph Data Science: the projection catalog and Louvain *)

Record Projection := mkProjection {
  g_nodes : list N;
  g_rels : list (N * N);
  g_undirected : bool
}.

Definition importsGraph : string := "importsGraph".

(** [gds.graph.project('importsGraph', 'File', {IMPORTS: {type: 'IMPORTS',
    orientation: 'UNDIRECTED'}})] reads every [File] node and every
    [IMPORTS] relationship between two of them. *)
Definition project (st : Store) : Projection :=
  mkProjection (elements (dom (nodes st)))
    (filter (λ r, is_Some (nodes st !! r.1) ∧ is_Some (nodes st !! r.2))
       (rels st))
    true.

(** [gds.louvain.write(.., {writeProperty: 'clusterId'})]: the community of
    every node of the projection is written onto the node in the database.
    The algorithm itself is a parameter, [louvain]. *)
Definition write_clusters (louvain : Projection → N → Z) (g : Projection)
    (st : Store) : Store :=
  set_nodes
    (foldr (λ i m, alter (Node.set_clusterId (louvain g i)) i m)
       (nodes st) (g_nodes g)) st.

(** ** The JavaScript side *)

(** Objects live on a heap; an array holds references. *)
Definition ref := N.
Definition Heap := ref → File.t.

Definition heap_set (r : ref) (f : File.t) (h : Heap) : Heap :=
  λ r', if decide (r' = r) then f else h r'.

(** The argument [files] of [importRepo]. *)
Inductive JsFiles :=
  | JsNull
  | JsUndefined
  | JsArray (elems : list ref).

(** What the script sends to the database. *)
Inductive Request :=
  | CreatePathConstraint
  | CreateIdConstraint
  | MergeFiles
  | MergeImports
  | MatchFiles
  | SetImportCounts (i : N)
  | GraphDrop
  | GraphProject
  | LouvainWrite
  | SessionClose.

Inductive Event :=
  | SessionOpened
  | Sent (r : Request)
  | Log (msg : string)
  | LogError (msg : string) (e : option Error).

(** What the script cannot control: the clock, the random generator, the
    requests that the server does not serve for a reason of its own, which
    the store below does not hold (connectivity, once the driver has given
    up retrying; Graph Data Science refusing a call, as it refuses to
    project a relationship type that the database has never had), and the
    clustering that Louvain chooses. *)
Record Env := mkEnv {
  date_now : nat → N;              (* k-th result of [Date.now()] *)
  random36 : nat → string;         (* k-th [Math.random().toString(36)] *)
  fault : Request → option Error;
  louvain : Projection → N → Z
}.

Record World := mkWorld {
  heap : Heap;
  store : Store;
  catalog : gmap string Projection;
  trace : list Event
}.

Definition set_heap (h : Heap) (w : World) : World :=
  mkWorld h (store w) (catalog w) (trace w).
Definition set_store (s : Store) (w : World) : World :=
  mkWorld (heap w) s (catalog w) (trace w).
Definition set_catalog (c : gmap string Projection) (w : World) : World :=
  mkWorld (heap w) (store w) c (trace w).
Definition add_event (e : Event) (w : World) : World :=
  mkWorld (heap w) (store w) (catalog w) (trace w ++ [e]).

(** How a piece of the script ends: normally, by a [throw] (a rejected
    promise), or by [process.exit]. *)
Inductive Completion (A : Type) :=
  | Normal (a : A)
  | Throw (e : Error)
  | Exit (code : Z).
Arguments Normal {A} a.
Arguments Throw {A} e.
Arguments Exit {A} code.

Definition Js (A : Type) : Type := World → World * Completion A.

#[global] Instance Js_ret : MRet Js := λ A a w, (w, Normal a).

#[global] Instance Js_bind : MBind Js := λ A B k m w,
  match m w with
  | (w', Normal a) => k a w'
  | (w', Throw e) => (w', Throw e)
  | (w', Exit c) => (w', Exit c)
  end.

Definition throw {A} (e : Error) : Js A := λ w, (w, Throw e).
Definition process_exit {A} (code : Z) : Js A := λ w, (w, Exit code).
Definition emit (e : Event) : Js unit := λ w, (add_event e w, Normal ()).
Definition get_store : Js Store := λ w, (w, Normal (store w)).
Definition get_heap : Js Heap := λ w, (w, Normal (heap w)).

(** [try { body } catch (err) { handler }] *)
Definition try_catch {A} (body : Js A) (handler : Error → Js A) : Js A :=
  λ w,
  match body w with
  | (w', Throw e) => handler e w'
  | r => r
  end.

(** [try { body } finally { fin }]: [fin] runs however [body] ends, short of
    the process being gone, and its own abrupt end replaces that of [body]. *)
Definition try_finally {A} (body : Js A) (fin : Js unit) : Js A := λ w,
  match body w with
  | (w', Exit c) => (w', Exit c)
  | (w', c) =>
      match fin w' with
      | (w'', Normal _) => (w'', c)
      | (w'', Throw e) => (w'', Throw e)
      | (w'', Exit k) => (w'', Exit k)
      end
  end.

(** One request: refused when [fault] says so, otherwise [body] happens. *)
Definition request (env : Env) (r : Request) (body : Js unit) : Js unit :=
  emit (Sent r);;
  match fault env r with
  | Some e => throw e
  | None => body
  end.

(** A Cypher statement acting on the store, or failing without a write. *)
Definition statement (f : Store → result Store) : Js unit := λ w,
  match f (store w) with
  | Ok st => (set_store st w, Normal ())
  | Err e => (w, Throw e)
  end.

Definition send (env : Env) (r : Request) (f : Store → result Store)
    : Js unit :=
  request env r (statement f).

(** [session.executeWrite(tx => ..)]: the writes of [body] to the database
    are kept only if it completes. *)
Definition executeWrite {A} (body : Js A) : Js A := λ w,
  match body w with
  | (w', Normal a) => (w', Normal a)
  | (w', c) => (set_store (store w) w', c)
  end.

Definition session_close (env : Env) : Js unit :=
  request env SessionClose (mret ()).

(** *** Normalisation: lines 40-44 *)

(** [!f.description] *)
Definition falsy (d : option string) : bool :=
  match d with
  | None => true
  | Some s => bool_decide (s = ""%string)
  end.

(** [`${Date.now()}-${Math.random().toString(36).substring(2, 9)}`] *)
Definition fresh_id (env : Env) (k : nat) : string :=
  pretty (date_now env k) +:+ "-" +:+ String.substring 2 7 (random36 env k).

(** The callback of [files.map], at its [k]-th call. *)
Definition normalize_one (env : Env) (k : nat) (f : ref) (h : Heap) : Heap :=
  let h1 :=
    if falsy (File.description (h f))
    then heap_set f (File.set_description (Some ""%string) (h f)) h
    else h in
  heap_set f (File.set_id (Some (fresh_id env k)) (h1 f)) h1.

(** [files.map(f => { ..; return f })], from call number [k] on: the new
    array holds the references it was given. *)
Fixpoint normalize (env : Env) (k : nat) (files : list ref) (h : Heap)
    : Heap * list ref :=
  match files with
  | [] => (h, [])
  | f :: rest =>
      let '(h', out) := normalize env (S k) rest (normalize_one env k f h) in
      (h', f :: out)
  end.

(** *** [ensureConstraint] *)

Definition ensureConstraint (env : Env) : Js unit :=
  emit SessionOpened;;
  try_finally
    (executeWrite
       (send env CreatePathConstraint create_path_constraint;;
        send env CreateIdConstraint create_id_constraint))
    (emit (Log "closing session1");;
     session_close env).

(** *** [updateImportCounts] *)

Definition node_path (st : Store) (i : N) : option string :=
  n ← nodes st !! i; Node.path n.

Fixpoint update_each (env : Env) (files : list (N * option string))
    : Js unit :=
  match files with
  | [] => mret ()
  | (i, p) :: rest =>
      send env (SetImportCounts i) (λ st, Ok (count_imports i st));;
      emit (Log ("Updated: " +:+ default "null" p));;
      update_each env rest
  end.

Definition updateImportCounts (env : Env) : Js unit :=
  request env MatchFiles (mret ());;
  st ← get_store;
  let files := map (λ i, (i, node_path st i)) (elements (dom (nodes st))) in
  emit (Log ("Found " +:+ pretty (length files) +:+ " files"));;
  update_each env files;;
  emit (Log "All files updated successfully").

(** *** Community detection: lines 97-113 *)

(** [CALL gds.graph.drop('importsGraph', false)]: the second argument,
    [failIfMissing], is [false]. *)
Definition graph_drop : Js unit := λ w,
  (set_catalog (delete importsGraph (catalog w)) w, Normal ()).

(** [CALL gds.graph.project('importsGraph', ..)], once the server accepts
    the call: what is left to fail is the name, when the catalog has it. *)
Definition graph_project : Js unit := λ w,
  match catalog w !! importsGraph with
  | Some _ => (w, Throw GraphAlreadyExists)
  | None =>
      (set_catalog (<[importsGraph := project (store w)]> (catalog w)) w,
       Normal ())
  end.

(** [CALL gds.louvain.write('importsGraph', {writeProperty: 'clusterId'})] *)
Definition louvain_write (env : Env) : Js unit := λ w,
  match catalog w !! importsGraph with
  | None => (w, Throw GraphNotFound)
  | Some g => (set_store (write_clusters (louvain env) g (store w)) w, Normal ())
  end.

(** The three calls of lines 97-113, in one write transaction.  The catalog
    of projections lives in the memory of the server, outside transactions. *)
Definition detectCommunities (env : Env) : Js unit :=
  executeWrite
    (request env GraphDrop graph_drop;;
     request env GraphProject graph_project;;
     request env LouvainWrite (louvain_write env)).

(** *** [importRepo] *)

(** The body of the [try] block, over the records as they are on the heap
    after normalisation. *)
Definition import_steps (env : Env) (records : list File.t)
    (projectUuid : string) : Js unit :=
  ensureConstraint env;;
  executeWrite (send env MergeFiles (upsertNodes records projectUuid));;
  match relPairs records with
  | [] => mret ()
  | pairs =>
      executeWrite (send env MergeImports (merge_imports projectUuid pairs))
  end;;
  emit (Log ("Import complete with projectUuid: " +:+ projectUuid));;
  updateImportCounts env;;
  detectCommunities env;;
  emit (Log "Clusters ADDed").

Definition importRepo (env : Env) (files : JsFiles) (projectUuid : string)
    : Js unit :=
  match files with
  | JsNull | JsUndefined | JsArray [] => mret ()
  | JsArray elems =>
      h ← get_heap;
      let '(h', files) := normalize env 0 elems h in
      (λ w, (set_heap h' w, Normal ()));;
      emit SessionOpened;;
      try_finally
        (try_catch
           (import_steps env (map h' files) projectUuid)
           (λ err,
            emit (LogError "closing session2" None);;
            emit (LogError "Error importing repo:" (Some err));;
            throw err))
        (session_close env;;
         process_exit 0)
  end.

(** *** The script: lines 6-22 and 156 *)

(** [input] is what [JSON.parse(fs.readFileSync(jsonPath))] gives: a value,
    or the exception of a missing or malformed file. *)
Definition main (env : Env) (argv : list string) (input : result JsFiles)
    : Js unit :=
  if bool_decide (length argv < 4)%nat then
    emit (LogError "Usage: node importToNeo4j.js <repo_json_path> <projectUuid>" None);;
    process_exit 1
  else
    match input with
    | Err e => throw e
    | Ok JsNull => throw (TypeError "Cannot read properties of null")
    | Ok JsUndefined => throw (TypeError "Cannot read properties of undefined")
    | Ok (JsArray elems) =>
        emit (Log ("files " +:+ pretty (length elems)));;
        importRepo env (JsArray elems) (default ""%string (argv !! 3%nat))
    end.

(** ** [convertNeo4jValue] of [index.js] *)

(** The driver's [Integer]: a 64-bit two's-complement integer kept as two
    32-bit halves. *)
Record Integer := mkInteger { high : Z; low : Z }.

(** The integer that an [Integer] stands for. *)
Definition int_value (i : Integer) : Z :=
  high i * 2 ^ 32 + low i mod 2 ^ 32.

(** A host number, an IEEE-754 double.  The helper only produces integral
    ones; any other is carried by its bit pattern. *)
Inductive number :=
  | Integral (z : Z)
  | Fractional (bits : N).

(** The double nearest to an integer (ties to even): exact up to [2^53] in
    magnitude, a multiple of a power of two beyond. *)
Definition round_double (z : Z) : Z :=
  let a := Z.abs z in
  if (a <=? 2 ^ 53)%Z then z
  else
    let e := (Z.log2 a - 52)%Z in
    let q := (a / 2 ^ e)%Z in
    let r := (a mod 2 ^ e)%Z in
    let half := (2 ^ (e - 1))%Z in
    let q' := if (r <? half)%Z then q
              else if (half <? r)%Z then (q + 1)%Z
              else if Z.even q then q else (q + 1)%Z in
    (Z.sgn z * (q' * 2 ^ e))%Z.

(** [Integer.prototype.toNumber], which belongs to the driver and not to
    this repository, after the driver's definition:
    [this.high * TWO_PWR_32_DBL + (this.low >>> 0)], in double arithmetic.
    Both operands are exact doubles, so the sum is rounded once. *)
Definition toNumber (i : Integer) : number :=
  Integral (round_double (int_value i)).

(** The values that the helper meets.  An object is the list of its own
    enumerable properties, in [for .. in] order; its prototype is not part
    of the value.  [neo4j.isInt], which is the driver's, holds of the
    [Integer]s and of no other object. *)
Unset Elimination Schemes.
Inductive JsValue :=
  | JNull
  | JUndefined
  | JBool (b : bool)
  | JNumber (x : number)
  | JString (s : string)
  | JArray (items : list JsValue)
  | JInteger (i : Integer)                       (* [neo4j.isInt] holds *)
  | JObject (props : list (string * JsValue)).   (* in [for .. in] order *)
Set Elimination Schemes.

(** Lines 11-20.  The loop of line 16 assigns [obj[k]] on a fresh object:
    for every key but one this adds the property [k].  The key [__proto__]
    reaches the setter of [Object.prototype] instead: the assignment gives
    [obj] a prototype, or does nothing when the value is a primitive, and
    adds no property. *)
Fixpoint convertNeo4jValue (value : JsValue) : JsValue :=
  match value with
  | JArray items => JArray (map convertNeo4jValue items)
  | JInteger i => JNumber (toNumber i)
  | JObject props =>
      JObject
        (flat_map (λ kv, let '(k, v) := kv in
                   if decide (k = "__proto__"%string) then []
                   else [(k, convertNeo4jValue v)]) props)
  | _ => value
  end.

(** * Vocabulary of the properties *)

(** ** Graphs, up to the properties of their nodes *)

(** Two stores with the same nodes under the same paths and the same
    relationships: props other than [path] may differ. *)
Definition same_graph (s s' : Store) : Prop :=
  Node.path <$> nodes s = Node.path <$> nodes s' ∧ rels s = rels s'.

(** Some node is under the path. *)
Definition has_path (m : gmap N Node.t) (p : string) : Prop :=
  matching p m ≠ [].

(** Every node under the first path has a relationship to every node
    under the second. *)
Definition linked (st : Store) (f t : string) : Prop :=
  ∀ a b, a ∈ matching f (nodes st) → b ∈ matching t (nodes st) →
         (a, b) ∈ rels st.

(** Both paths have nodes, and all of them are linked. *)
Definition saturated (st : Store) (f t : string) : Prop :=
  has_path (nodes st) f ∧ has_path (nodes st) t ∧ linked st f t.

(** A pair of [relPairs] whose relationships are all there. *)
Definition pair_saturated (st : Store) (pr : option string * string) : Prop :=
  ∃ f, pr.1 = Some f ∧ saturated st f pr.2.

(** [st'] extends [st]: paths that had nodes keep exactly those nodes, and
    no relationship is lost. *)
Definition extends (st st' : Store) : Prop :=
  (∀ p, has_path (nodes st) p →
        matching p (nodes st') = matching p (nodes st)) ∧
  rels st ⊆ rels st'.

(** An update of node properties that does not touch [path]. *)
Definition keeps_path (f : Node.t → Node.t) : Prop :=
  ∀ n, Node.path (f n) = Node.path n.

(** Nodes that were there are as they were or went through [ON MATCH];
    nodes that were not there come from [ON CREATE]. *)
Definition endpoint_frame (scope : string) (m m' : gmap N Node.t) : Prop :=
  (∀ i n, m !! i = Some n →
     m' !! i = Some n ∨ m' !! i = Some (on_match_endpoint scope n)) ∧
  (∀ i n', m' !! i = Some n' → m !! i = None →
     ∃ p, n' = on_create_endpoint scope (Node.blank p)).

(** No node is removed. *)
Definition grows (m m' : gmap N Node.t) : Prop :=
  ∀ i, is_Some (m !! i) → is_Some (m' !! i).

(** Every relationship of the database joins two of its nodes. *)
Definition wf (st : Store) : Prop :=
  Forall (λ r, is_Some (nodes st !! r.1) ∧ is_Some (nodes st !! r.2)) (rels st).

(** ** Runs of the two upsert steps *)

(** Two parses of one input: the records agree on everything but the
    generated [id]. *)
Definition same_record (f f' : File.t) : Prop :=
  File.set_id None f = File.set_id None f'.

(** The store that the two steps leave behind, each in its own transaction:
    a step that fails writes nothing, and the second is not reached when
    the first fails. *)
Definition after_upserts (files : list File.t) (projectUuid : string)
    (st : Store) : Store :=
  match upsertNodes files projectUuid st with
  | Err _ => st
  | Ok s1 =>
      match upsertEdges files projectUuid s1 with
      | Err _ => s1
      | Ok s2 => s2
      end
  end.

(** The keys the data model gives to nodes and edges. *)
Definition node_keys (st : Store) : list (option string) :=
  (map_to_list (Node.path <$> nodes st)).*2.

Definition edge_keys (st : Store) : list (option string * option string) :=
  map (λ r, ((Node.path <$> nodes st) !! r.1 ≫= (λ x, x),
             (Node.path <$> nodes st) !! r.2 ≫= (λ x, x))) (rels st).

(** ** Degrees *)

(** The number of relationships that leave, and that enter, a node. *)
Definition out_degree (st : Store) (i : N) : nat :=
  length (filter (λ r, r.1 = i) (rels st)).
Definition in_degree (st : Store) (i : N) : nat :=
  length (filter (λ r, r.2 = i) (rels st)).

(** The loop of [updateImportCounts] on the database. *)
Definition recount (ids : list N) (st : Store) : Store :=
  foldl (λ st i, count_imports i st) st ids.

(** A node once the statement of the loop has run for it. *)
Definition counted (st0 : Store) (i : N) (n : Node.t) : Node.t :=
  Node.set_counts (Z.of_nat (length (out_rows st0 i)))
                  (Z.of_nat (length (in_rows st0 i))) n.

(** The rows of [MATCH (f:File) RETURN id(f) AS id, f.path AS path]. *)
Definition found_files (st : Store) : list (N * option string) :=
  map (λ i, (i, node_path st i)) (elements (dom (nodes st))).

(** The events of the loop, and the world after it. *)
Definition update_events (files : list (N * option string)) : list Event :=
  flat_map (λ f, [Sent (SetImportCounts f.1);
                  Log ("Updated: " +:+ default "null" f.2)]) files.

(** The events of one call of [updateImportCounts]. *)
Definition count_events (st : Store) : list Event :=
  [Sent MatchFiles;
   Log ("Found " +:+ pretty (length (found_files st)) +:+ " files")] ++
  update_events (found_files st) ++
  [Log "All files updated successfully"].

(** The events of one call of [detectCommunities]. *)
Definition community_events : list Event :=
  [Sent GraphDrop; Sent GraphProject; Sent LouvainWrite].

(** The two counts that a node carries. *)
Definition degrees (w : World) (i : N) : option (option Z * option Z) :=
  (λ n, (Node.importCount n, Node.importedByCount n)) <$> nodes (store w) !! i.

(** ** The script *)

(** A piece of the script that does not call [process.exit]. *)
Definition stays {A} (m : Js A) : Prop :=
  ∀ w w' c, m w ≠ (w', Exit c).

(** What the callback of [files.map] leaves in a record at call [k]. *)
Definition normalized (env : Env) (k : nat) (f : File.t) : File.t :=
  File.set_id (Some (fresh_id env k))
    (File.set_description (Some (default ""%string (File.description f))) f).

(** The part of the generated id that comes from [Math.random]. *)
Definition suffix (env : Env) (k : nat) : string :=
  String.substring 2 7 (random36 env k).

(** A string without the separator of the generated id. *)
Fixpoint dash_free (s : string) : Prop :=
  match s with
  | EmptyString => True
  | String c s' => c ≠ "-"%char ∧ dash_free s'
  end.

(** ** Values of the driver *)

(** Induction on values, through arrays and objects. *)
Section JsValue_induction.
Variable P : JsValue → Prop.
Hypothesis Hnull : P JNull.
Hypothesis Hundefined : P JUndefined.
Hypothesis Hbool : ∀ b, P (JBool b).
Hypothesis Hnumber : ∀ x, P (JNumber x).
Hypothesis Hstring : ∀ s, P (JString s).
Hypothesis Harray : ∀ items, Forall P items → P (JArray items).
Hypothesis Hinteger : ∀ i, P (JInteger i).
Hypothesis Hobject : ∀ props, Forall (λ kv, P kv.2) props → P (JObject props).

Fixpoint JsValue_ind (v : JsValue) : P v :=
  match v with
  | JNull => Hnull
  | JUndefined => Hundefined
  | JBool b => Hbool b
  | JNumber x => Hnumber x
  | JString s => Hstring s
  | JArray items =>
      Harray items
        ((fix go (l : list JsValue) : Forall P l :=
            match l with
            | [] => Forall_nil_2 P
            | x :: l' => Forall_cons_2 P x l' (JsValue_ind x) (go l')
            end) items)
  | JInteger i => Hinteger i
  | JObject props =>
      Hobject props
        ((fix go (l : list (string * JsValue)) : Forall (λ kv, P kv.2) l :=
            match l with
            | [] => Forall_nil_2 _
            | kv :: l' =>
                Forall_cons_2 (λ kv, P kv.2) kv l'
                  (let '(k, x) := kv in JsValue_ind x) (go l')
            end) props)
  end.
End JsValue_induction.


(** The shape of a value: numbers, of the database or of the host, are
    leaves of one kind. *)
Unset Elimination Schemes.
Set Elimination Schemes.


(** A property of every [Integer] inside a value. *)
Fixpoint all_integers (Q : Integer → Prop) (value : JsValue) : Prop :=
  match value with
  | JInteger i => Q i
  | JArray items => foldr (λ v acc, all_integers Q v ∧ acc) True items
  | JObject props =>
      foldr (λ kv acc, (let '(k, v) := kv in all_integers Q v) ∧ acc) True props
  | _ => True
  end.


(** No object inside the value has an own property named [__proto__]:
    so are the values of the driver, which builds its objects by
    assignment. *)
Fixpoint no_proto (value : JsValue) : Prop :=
  match value with
  | JArray items => foldr (λ v acc, no_proto v ∧ acc) True items
  | JObject props =>
      foldr (λ kv acc,
               (let '(k, v) := kv in k ≠ "__proto__"%string ∧ no_proto v) ∧ acc)
        True props
  | _ => True
  end.



(** What the specification asks of the helper, with the rounding that a
    host number imposes: every [Integer], at any depth and whatever stands
    beside it, becomes a number nearest to it; every other leaf, every
    array with its length and every object with its keys in order is
    kept. *)
Unset Elimination Schemes.
Set Elimination Schemes.

(** ** Inputs used as examples *)

(** A database that serves every request, a clock that is stuck within
    one millisecond, a generator whose draws differ, and a clustering that
    puts each node in its own community. *)
Definition quiet : Env :=
  mkEnv (λ _, 1700000000000) (λ k, "0." +:+ pretty k +:+ "fzyo82mvyr")
        (λ _, None) (λ _ i, Z.of_N i).

(** A clock and a generator that give the same draw twice. *)
Definition stuck : Env :=
  mkEnv (λ _, 1700000000000) (λ _, "0.4fzyo82mvyr"%string) (λ _, None)
        (λ _ i, Z.of_N i).

(** A run during which the database becomes unreachable when the first
    statement is sent. *)
Definition unreachable : Env :=
  mkEnv (date_now quiet) (random36 quiet)
    (λ r, match r with
          | MergeFiles => Some (ServiceUnavailable "Connection refused")
          | _ => None
          end)
    (louvain quiet).

(** The end-to-end input of the specification, parsed twice. *)
Definition x_js (id : string) : File.t :=
  File.mk (Some "x.js") None None (Some "") (Some ["lodash"])
    (Some ["y.js"]) (Some id).
Definition y_js (id : string) : File.t :=
  File.mk (Some "y.js") None None (Some "") (Some []) (Some []) (Some id).

(** The two records of the end-to-end input, as parsed, on the heap. *)
Definition two_files : World :=
  mkWorld
    (λ r, if decide (r = 0)
          then File.mk (Some "x.js") None None None (Some ["lodash"])
                 (Some ["y.js"]) None
          else File.mk (Some "y.js") None None None (Some []) (Some []) None)
    empty_store ∅ [].

(** A node as the node upsert leaves it, before any analysis. *)
Definition file_node (p projectUuid : string) : Node.t :=
  Node.mk (Some p) None (Some p) None (Some ""%string) (Some [])
    (Some projectUuid) None None None.

Definition no_record : File.t := File.mk None None None None None None None.

(** A world around a database: nothing in the catalog, no event yet. *)
Definition world_of (st : Store) : World :=
  mkWorld (λ _, no_record) st ∅ [].

(** The graph of the specification: a → b, a → c, d → b. *)
Definition abcd : Store :=
  mkStore
    (list_to_map [(0, file_node "a" "proj1"); (1, file_node "b" "proj1");
                  (2, file_node "c" "proj1"); (3, file_node "d" "proj1")])
    [(0, 1); (0, 2); (3, 1)] true true.

(** A database that holds a file of project "P1", with counts and a
    cluster from an earlier run, into which project "P2" is imported. *)
Definition legacy : Store :=
  mkStore
    {[0 := Node.mk (Some "legacy.pl") (Some "1-aaaaaaa") (Some "legacy.pl")
             (Some 12%Z) (Some "") (Some []) (Some "P1")
             (Some 99%Z) (Some 98%Z) (Some 7%Z)]}
    [] true true.

(** A record as the driver returns it: [{n: 3, path: "a.pl", tags: [2^53]}]. *)
Definition a_record : JsValue :=
  JObject [("n", JInteger (mkInteger 0 3)); ("path", JString "a.pl");
           ("tags", JArray [JInteger (mkInteger 2097152 0)])]%string.

(** ** What the constraints promise *)

(** No two nodes under one path; no two nodes with one id. *)
Definition unique_paths (m : gmap N Node.t) : Prop :=
  ∀ i j n n' p, m !! i = Some n → m !! j = Some n' →
    Node.path n = Some p → Node.path n' = Some p → i = j.

Definition unique_ids (m : gmap N Node.t) : Prop :=
  ∀ i j n n' x, m !! i = Some n → m !! j = Some n' →
    Node.id n = Some x → Node.id n' = Some x → i = j.

(** A database in which the constraints that exist do hold. *)
Definition consistent (st : Store) : Prop :=
  (path_unique st = true → unique_paths (nodes st)) ∧
  (id_unique st = true → unique_ids (nodes st)).

(** An update of node properties that does not touch [id]. *)
Definition keeps_id (f : Node.t → Node.t) : Prop :=
  ∀ n, Node.id (f n) = Node.id n.

(** A step that leaves the constraints as they are and keeps what they
    promise. *)
Definition keeps_unique (a a' : Store) : Prop :=
  path_unique a' = path_unique a ∧ id_unique a' = id_unique a ∧
  (unique_paths (nodes a) → unique_paths (nodes a')) ∧
  (id_unique a = true → unique_ids (nodes a) → unique_ids (nodes a')).

(** The last record of a batch under a path. *)
Definition last_record (files : list File.t) (p : string) : option File.t :=
  last (filter (λ f, File.path f = Some p) files).

(** A database that loses the connection when the counts of node [j] are
    sent. *)
Definition flaky (j : N) : Env :=
  mkEnv (date_now quiet) (random36 quiet)
    (λ r, match r with
          | SetImportCounts i =>
              if decide (i = j)
              then Some (ServiceUnavailable "Connection lost")
              else None
          | _ => None
          end)
    (louvain quiet).

(** ** The relationships of a batch *)

(** Nodes [a] and [b] are under the two paths of some pair. *)
Definition links (pairs : list (option string * string)) (st : Store)
    (a b : N) : Prop :=
  ∃ f t, (Some f, t) ∈ pairs ∧
         a ∈ matching f (nodes st) ∧ b ∈ matching t (nodes st).

(** [st'] has the relationships of [st], in their order, followed by new
    ones that all satisfy [Q]; no relationship is doubled. *)
Definition adds (Q : N → N → Prop) (st st' : Store) : Prop :=
  ∃ new, rels st' = rels st ++ new ∧
         (NoDup (rels st) → NoDup (rels st')) ∧
         ∀ a b, (a, b) ∈ new → Q a b.


(** * The query endpoint of [index.js] *)

(** [!v].  The numbers that are falsy are the zeros and [NaN]: among bit
    patterns, those whose 63 low bits are zero or lie above the exponent
    of the infinities. *)
Definition js_not (v : JsValue) : bool :=
  match v with
  | JNull | JUndefined => true
  | JBool b => negb b
  | JNumber (Integral z) => (z =? 0)%Z
  | JNumber (Fractional bits) =>
      let m := bits mod 2 ^ 63 in
      (m =? 0) || (9218868437227405312 <? m)
  | JString s => bool_decide (s = ""%string)
  | JArray _ | JInteger _ | JObject _ => false
  end.

Fixpoint own_prop (k : string) (props : list (string * JsValue)) : JsValue :=
  match props with
  | [] => JUndefined
  | (k', v) :: rest => if decide (k' = k) then v else own_prop k rest
  end.

(** [v.k], for a key that no prototype defines and a [v] that is neither
    [null] nor [undefined]. *)
Definition get_prop (k : string) (v : JsValue) : JsValue :=
  match v with
  | JObject props => own_prop k props
  | _ => JUndefined
  end.

(** [const { query, params = {} } = req.body] *)
Definition query_of (body : JsValue) : JsValue := get_prop "query" body.
Definition params_of (body : JsValue) : JsValue :=
  match get_prop "params" body with
  | JUndefined => JObject []
  | p => p
  end.

(** What the handler cannot control: what the database answers to a query
    (the records, each through [toObject]), whether the session closes, and
    the [message] of an error. *)
Record Driver := mkDriver {
  run : JsValue → JsValue → result (list JsValue);
  close : option Error;
  message : Error → JsValue
}.

(** What the handler does, in order. *)
Inductive Served :=
  | ConsoleLog (v : JsValue)
  | ConsoleError (e : Error)
  | OpenSession
  | RunQuery (query params : JsValue)
  | CloseSession
  | Reply (status : Z) (payload : JsValue).

Definition is_reply (s : Served) : bool :=
  match s with
  | Reply _ _ => true
  | _ => false
  end.

Definition is_session (s : Served) : bool :=
  match s with
  | OpenSession | RunQuery _ _ | CloseSession => true
  | _ => false
  end.

(** The handler of [POST /api/run-query], lines 28-47: the events of one
    request, and the error that the handler ends with, if any. *)
Definition run_query (d : Driver) (body : JsValue)
    : list Served * option Error :=
  match body with
  | JNull | JUndefined =>
      ([], Some (TypeError "Cannot destructure property 'query'"))
  | _ =>
      let query := query_of body in
      let params := params_of body in
      if js_not query then
        ([ConsoleLog params;
          Reply 400 (JObject [("error", JString "Missing query")]%string)],
         None)
      else
        ([ConsoleLog params; OpenSession; RunQuery query params] ++
         match run d query params with
         | Ok records => [Reply 200 (JArray (map convertNeo4jValue records))]
         | Err e =>
             [ConsoleError e;
              Reply 500 (JObject [("error", message d e)]%string)]
         end ++ [CloseSession],
         close d)
  end.

(** A driver that answers every query with one record, [a_record]. *)
Definition one_record : Driver :=
  mkDriver (λ _ _, Ok [a_record]) None (λ _, JString "failed").

(** * Endpoints of a batch *)

(** The path of the node is the [from] or the [to] of the pair. *)
Definition touches (n : Node.t) (pr : option string * string) : Prop :=
  Node.path n = pr.1 ∨ Node.path n = Some pr.2.

#[global] Instance touches_dec n pr : Decision (touches n pr).
Proof. unfold touches. apply _. Defined.

(** * The first importer, [unnamed/part_000] *)

(** The importer as it was before projects: one constraint, nodes that
    carry [externalImports] only, plain [MERGE] of the endpoints, and no
    [process.exit]. *)
Module Part000.

(** [SET f.externalImports = file.externalImports] *)
Definition set_externalImports (e : option (list string)) (n : Node.t)
    : Node.t :=
  Node.mk (Node.path n) (Node.id n) (Node.name n) (Node.loc n)
    (Node.description n) e (Node.projectUuid n) (Node.importCount n)
    (Node.importedByCount n) (Node.clusterId n).

(** One row of [UNWIND $files AS file MERGE (f:File {path: file.path})
    SET f.externalImports = file.externalImports]. *)
Definition node_row (st : Store) (file : File.t) : result Store :=
  match File.path file with
  | None => Err MergeNullProperty
  | Some p =>
      let '(m, fs) := merge_file p (λ n, n) (λ n, n) (nodes st) in
      Ok (set_nodes
            (foldr (alter (set_externalImports (File.externalImports file)))
               m fs) st)
  end.

Definition upsertNodes (files : list File.t) (st : Store) : result Store :=
  foldM node_row st files.

(** [MERGE (b:File {path: p.to}) MERGE (a)-[:IMPORTS]->(b)] for a bound [a]. *)
Definition merge_target (to : string) (st : Store) (a : N) : Store :=
  let '(m, bs) := merge_file to (λ n, n) (λ n, n) (nodes st) in
  link_all a bs (set_nodes m st).

(** One row of [UNWIND $pairs AS p MERGE (a:File {path: p.from})
    MERGE (b:File {path: p.to}) MERGE (a)-[:IMPORTS]->(b)]. *)
Definition edge_row (st : Store) (p : option string * string)
    : result Store :=
  match p.1 with
  | None => Err MergeNullProperty
  | Some from =>
      let '(m, as_) := merge_file from (λ n, n) (λ n, n) (nodes st) in
      Ok (foldl (merge_target p.2) (set_nodes m st) as_)
  end.

Definition merge_imports (pairs : list (option string * string))
    (st : Store) : result Store :=
  foldM edge_row st pairs.

Definition upsertEdges (files : list File.t) (st : Store) : result Store :=
  match relPairs files with
  | [] => Ok st
  | pairs => merge_imports pairs st
  end.

Definition ensureConstraint (env : Env) : Js unit :=
  emit SessionOpened;;
  try_finally
    (executeWrite (send env CreatePathConstraint create_path_constraint))
    (session_close env).

(** The body of the [try] block. *)
Definition import_steps (env : Env) (records : list File.t) : Js unit :=
  ensureConstraint env;;
  executeWrite (send env MergeFiles (upsertNodes records));;
  match relPairs records with
  | [] => mret ()
  | pairs => executeWrite (send env MergeImports (merge_imports pairs))
  end;;
  emit (Log "Import complete.").

Definition importRepo (env : Env) (files : JsFiles) : Js unit :=
  match files with
  | JsNull | JsUndefined | JsArray [] => mret ()
  | JsArray elems =>
      h ← get_heap;
      emit SessionOpened;;
      try_finally
        (try_catch
           (import_steps env (map h elems))
           (λ err,
            emit (LogError "Error importing repo:" (Some err));;
            throw err))
        (session_close env)
  end.

(** Nodes that were there differ at most in [externalImports]; nodes that
    were not there have a path and at most [externalImports]. *)
Definition ext_frame (m m' : gmap N Node.t) : Prop :=
  (∀ i n, m !! i = Some n → ∃ e, m' !! i = Some (set_externalImports e n)) ∧
  (∀ i n', m' !! i = Some n' → m !! i = None →
     ∃ p e, n' = set_externalImports e (Node.blank p)).
End Part000.

(** * Properties *)

(** ** Pattern matching on paths *)

Lemma elem_of_matching p (m : gmap N Node.t) i :
  i ∈ matching p m ↔ ∃ n, m !! i = Some n ∧ Node.path n = Some p.
Proof.
  unfold matching. rewrite elem_of_elements, elem_of_dom.
  split.
  - intros [n Hn]. apply map_lookup_filter_Some in Hn as [Hn Hp]. eauto.
  - intros (n & Hn & Hp). exists n. apply map_lookup_filter_Some. eauto.
Qed.

Lemma NoDup_matching p (m : gmap N Node.t) : NoDup (matching p m).
Proof. apply NoDup_elements. Qed.

Lemma matching_ext p (m m' : gmap N Node.t) :
  (∀ i, i ∈ matching p m ↔ i ∈ matching p m') →
  matching p m = matching p m'.
Proof.
  intros H. unfold matching in *. f_equal. apply set_eq. intros i.
  specialize (H i). by rewrite !elem_of_elements in H.
Qed.

Lemma matching_same_paths p (m m' : gmap N Node.t) :
  Node.path <$> m = Node.path <$> m' → matching p m = matching p m'.
Proof.
  intros H. apply matching_ext. intros i. rewrite !elem_of_matching.
  assert (Hi : Node.path <$> m !! i = Node.path <$> m' !! i)
    by (rewrite <- !lookup_fmap; by rewrite H).
  split; intros (n & Hn & Hp); rewrite Hn in Hi; simpl in Hi.
  - destruct (m' !! i) as [n'|] eqn:E; simplify_eq/=. exists n'. split; congruence.
  - destruct (m !! i) as [n'|] eqn:E; simplify_eq/=. exists n'. split; congruence.
Qed.


(** ** [MERGE] on a node pattern *)

Lemma lookup_alter_all (f : Node.t → Node.t) (m : gmap N Node.t) hits i :
  NoDup hits →
  foldr (alter f) m hits !! i =
    if decide (i ∈ hits) then f <$> m !! i else m !! i.
Proof.
  induction 1 as [|j hits Hj Hnd IH]; cbn [foldr].
  - by rewrite decide_False by apply not_elem_of_nil.
  - rewrite lookup_alter. destruct (decide (j = i)) as [->|Hij]; rewrite IH.
    + rewrite (decide_False (P := i ∈ hits)) by done.
      by rewrite (decide_True (P := i ∈ i :: hits)) by left.
    + destruct (decide (i ∈ hits)) as [Hi|Hi].
      * by rewrite decide_True by by right.
      * rewrite decide_False; [done|]. intros [->|?]%elem_of_cons; done.
Qed.

Lemma paths_alter_all (f : Node.t → Node.t) (m : gmap N Node.t) hits :
  keeps_path f →
  Node.path <$> foldr (alter f) m hits = Node.path <$> m.
Proof.
  intros Hf. induction hits as [|j hits IH]; simpl; [done|].
  rewrite <- IH. apply map_eq. intros i. rewrite !lookup_fmap, lookup_alter.
  case_decide; [subst|done].
  destruct (foldr (alter f) m hits !! i); simpl; [|done]. by rewrite Hf.
Qed.

Lemma merge_file_cases p oc om (m m' : gmap N Node.t) bs :
  merge_file p oc om m = (m', bs) →
  (matching p m = [] ∧ bs = [fresh (dom m)] ∧
   m' = <[fresh (dom m) := oc (Node.blank p)]> m) ∨
  (matching p m ≠ [] ∧ bs = matching p m ∧ m' = foldr (alter om) m bs).
Proof.
  unfold merge_file. destruct (matching p m) as [|i l] eqn:E.
  - intros [= <- <-]. by left.
  - intros [= <- <-]. by right.
Qed.

Lemma fresh_node_None (m : gmap N Node.t) : m !! fresh (dom m) = None.
Proof. apply not_elem_of_dom. apply is_fresh. Qed.

Lemma matching_insert_fresh p q n (m : gmap N Node.t) :
  Node.path n = Some p → p ≠ q →
  matching q (<[fresh (dom m) := n]> m) = matching q m.
Proof.
  intros Hp Hpq. apply matching_ext. intros i. rewrite !elem_of_matching.
  split.
  - intros (n' & Hn' & Hq). apply lookup_insert_Some in Hn' as [[<- <-]|[? Hn']].
    + congruence.
    + eauto.
  - intros (n' & Hn' & Hq). exists n'. split; [|done].
    rewrite lookup_insert_ne; [done|]. intros <-.
    by rewrite fresh_node_None in Hn'.
Qed.

Lemma matching_insert_new p n (m : gmap N Node.t) :
  Node.path n = Some p → matching p m = [] →
  matching p (<[fresh (dom m) := n]> m) = [fresh (dom m)].
Proof.
  intros Hp Hnone.
  assert (Hel : ∀ i, i ∈ matching p (<[fresh (dom m) := n]> m) ↔
                     i = fresh (dom m)).
  { intros i. rewrite elem_of_matching. split.
    - intros (n' & Hn' & Hq).
      apply lookup_insert_Some in Hn' as [[<- <-]|[? Hn']]; [done|].
      assert (Hi : i ∈ matching p m) by (apply elem_of_matching; eauto).
      rewrite Hnone in Hi. by apply elem_of_nil in Hi.
    - intros ->. exists n. by rewrite lookup_insert_eq. }
  pose proof (NoDup_matching p (<[fresh (dom m) := n]> m)) as Hnd.
  destruct (matching p (<[fresh (dom m) := n]> m)) as [|a l] eqn:E.
  - exfalso. assert (H : fresh (dom m) ∈ @nil N) by by apply Hel.
    by apply elem_of_nil in H.
  - assert (a = fresh (dom m)) as -> by (apply Hel; left).
    destruct l as [|b l]; [done|].
    assert (b = fresh (dom m)) as -> by (apply Hel; right; left).
    apply NoDup_cons in Hnd as [Hnd _]. exfalso. apply Hnd. left.
Qed.

(** The nodes bound by a [MERGE] are exactly those under the path
    afterwards, and there is at least one. *)
Lemma merge_file_bound p oc om (m m' : gmap N Node.t) bs :
  keeps_path oc → keeps_path om →
  merge_file p oc om m = (m', bs) →
  bs = matching p m' ∧ has_path m' p.
Proof.
  intros Hoc Hom H. apply merge_file_cases in H as [(E & -> & ->)|(E & -> & ->)].
  - assert (Hb : Node.path (oc (Node.blank p)) = Some p) by by rewrite Hoc.
    unfold has_path. by rewrite (matching_insert_new p _ m Hb E).
  - unfold has_path.
    by rewrite (matching_same_paths p _ m (paths_alter_all om m _ Hom)).
Qed.

(** A [MERGE] leaves alone the paths that already had nodes. *)
Lemma merge_file_keeps p oc om (m m' : gmap N Node.t) bs q :
  keeps_path oc → keeps_path om →
  merge_file p oc om m = (m', bs) →
  has_path m q → matching q m' = matching q m.
Proof.
  intros Hoc Hom H Hq.
  apply merge_file_cases in H as [(E & -> & ->)|(E & -> & ->)].
  - apply (matching_insert_fresh p); [by rewrite Hoc|].
    intros ->. by apply Hq.
  - apply matching_same_paths, paths_alter_all, Hom.
Qed.

(** On a path that has a node, [MERGE] creates nothing. *)
Lemma merge_file_present p oc om (m m' : gmap N Node.t) bs :
  keeps_path om →
  merge_file p oc om m = (m', bs) →
  has_path m p →
  Node.path <$> m' = Node.path <$> m ∧ bs = matching p m.
Proof.
  intros Hom H Hp.
  apply merge_file_cases in H as [(E & -> & ->)|(E & -> & ->)]; [done|].
  split; [|done]. apply paths_alter_all, Hom.
Qed.

(** ** The relations between stores *)

Lemma same_graph_refl st : same_graph st st.
Proof. by split. Qed.

Lemma same_graph_sym s s' : same_graph s s' → same_graph s' s.
Proof. intros [H1 H2]. by split. Qed.

Lemma same_graph_trans s1 s2 s3 :
  same_graph s1 s2 → same_graph s2 s3 → same_graph s1 s3.
Proof. intros [H1 H2] [H3 H4]. split; congruence. Qed.

Lemma same_graph_matching s s' p :
  same_graph s s' → matching p (nodes s) = matching p (nodes s').
Proof. intros [H _]. by apply matching_same_paths. Qed.

Lemma same_graph_extends s s' : same_graph s' s → extends s s'.
Proof.
  intros H. split.
  - intros p _. by apply same_graph_matching.
  - destruct H as [_ H]. by rewrite H.
Qed.

Lemma extends_refl st : extends st st.
Proof. by split. Qed.

Lemma extends_has_path st st' p :
  extends st st' → has_path (nodes st) p → has_path (nodes st') p.
Proof. intros [H _] Hp. unfold has_path. by rewrite H. Qed.

Lemma extends_trans s1 s2 s3 : extends s1 s2 → extends s2 s3 → extends s1 s3.
Proof.
  intros H12 H23. split.
  - intros p Hp. destruct H12 as [H12 _], H23 as [H23 _].
    rewrite H23, H12; [done..|]. unfold has_path. by rewrite H12.
  - destruct H12 as [_ H12], H23 as [_ H23]. set_solver.
Qed.

Lemma extends_saturated st st' f t :
  extends st st' → saturated st f t → saturated st' f t.
Proof.
  intros Hext (Hf & Ht & Hl).
  split; [by eapply extends_has_path|].
  split; [by eapply extends_has_path|].
  destruct Hext as [Hm Hr]. intros a b. rewrite (Hm f Hf), (Hm t Ht).
  intros Ha Hb. apply Hr. by apply Hl.
Qed.

Lemma same_graph_saturated st st' f t :
  same_graph st' st → saturated st f t → saturated st' f t.
Proof. intros H. by apply extends_saturated, same_graph_extends. Qed.

(** ** Folding a statement over rows *)

Section foldM.
Context {A B : Type} (f : A → B → result A).

(** A transitive relation kept by each row is kept by the statement. *)
Lemma foldM_rel (R : A → A → Prop) l :
  (∀ a, R a a) → (∀ a b c, R a b → R b c → R a c) →
  (∀ a b a', b ∈ l → f a b = Ok a' → R a a') →
  ∀ a a', foldM f a l = Ok a' → R a a'.
Proof.
  intros Hrefl Htrans. induction l as [|b l IH]; intros Hstep a a'; simpl.
  - intros [= <-]. apply Hrefl.
  - destruct (f a b) as [a1|] eqn:E; simpl; [|done]. intros H.
    apply (Htrans _ a1).
    + apply (Hstep a b); [left|done].
    + apply IH; [|done]. intros ???? ?. eapply Hstep; [by right|done].
Qed.

(** What a row establishes, and later rows keep, holds at the end. *)
Lemma foldM_each (R : A → A → Prop) (Q : B → A → Prop) l :
  (∀ a, R a a) → (∀ a b c, R a b → R b c → R a c) →
  (∀ a b a', b ∈ l → f a b = Ok a' → R a a' ∧ Q b a') →
  (∀ b a a', Q b a → R a a' → Q b a') →
  ∀ a a', foldM f a l = Ok a' → ∀ b, b ∈ l → Q b a'.
Proof.
  intros Hrefl Htrans. induction l as [|b l IH]; intros Hstep Hkeep a a' H x Hx.
  - by apply elem_of_nil in Hx.
  - simpl in H. destruct (f a b) as [a1|] eqn:E; simpl in H; [|done].
    assert (Hrest : ∀ a b0 a', b0 ∈ l → f a b0 = Ok a' → R a a' ∧ Q b0 a').
    { intros ???? ?. eapply Hstep; [by right|done]. }
    apply elem_of_cons in Hx as [->|Hx].
    + apply (Hkeep _ a1).
      * apply (Hstep a b); [left|done].
      * apply (foldM_rel R l Hrefl Htrans); [|done].
        intros ???? ?. by eapply Hrest.
    + by eapply IH.
Qed.

(** Rows that cannot fail under an invariant make a statement that
    cannot fail. *)
Lemma foldM_total (I : A → Prop) l a :
  I a →
  (∀ a b, b ∈ l → I a → ∃ a', f a b = Ok a' ∧ I a') →
  ∃ a', foldM f a l = Ok a' ∧ I a'.
Proof.
  revert a. induction l as [|b l IH]; intros a Ha Hstep; simpl; [eauto|].
  destruct (Hstep a b) as (a1 & -> & Ha1); [left|done|]. simpl.
  apply IH; [done|]. intros ????. apply Hstep; [by right|done].
Qed.
End foldM.

(** ** Rows of the first statement *)

Lemma keeps_path_id : keeps_path (λ n, n).
Proof. done. Qed.

Lemma keeps_path_set_file_props file scope :
  keeps_path (set_file_props file scope).
Proof. done. Qed.

Lemma keeps_path_on_create scope : keeps_path (on_create_endpoint scope).
Proof. done. Qed.

Lemma keeps_path_on_match scope : keeps_path (on_match_endpoint scope).
Proof. done. Qed.

#[local] Hint Resolve keeps_path_id keeps_path_set_file_props
  keeps_path_on_create keeps_path_on_match : core.

Lemma set_one_same file scope st i st' :
  set_one file scope st i = Ok st' → same_graph st' st.
Proof.
  unfold set_one. destruct (id_clash _ _ _); [done|]. intros [= <-].
  split; [|done]. simpl.
  apply (paths_alter_all (set_file_props file scope) (nodes st) [i]). done.
Qed.

Lemma set_all_same file scope st fs st' :
  foldM (set_one file scope) st fs = Ok st' → same_graph st' st.
Proof.
  apply (foldM_rel _ (λ a a', same_graph a' a)).
  - apply same_graph_refl.
  - intros a b c Hab Hbc. by eapply same_graph_trans.
  - intros a i a' _. apply set_one_same.
Qed.

Lemma node_row_spec scope st file st' :
  node_row scope st file = Ok st' →
  ∃ p, File.path file = Some p ∧ extends st st' ∧
       has_path (nodes st') p ∧
       (has_path (nodes st) p → same_graph st' st).
Proof.
  unfold node_row. destruct (File.path file) as [p|]; [|done].
  destruct (merge_file p _ _ (nodes st)) as [m fs] eqn:E. intros H.
  apply set_all_same in H. exists p. split; [done|].
  pose proof (merge_file_bound _ _ _ _ _ _ keeps_path_id keeps_path_id E)
    as [_ Hp].
  split; [split|split].
  - intros q Hq. rewrite (same_graph_matching _ _ q H). simpl.
    by apply (merge_file_keeps _ _ _ _ _ _ q keeps_path_id keeps_path_id E).
  - destruct H as [_ H]. by rewrite H.
  - unfold has_path. by rewrite (same_graph_matching _ _ p H).
  - intros Hp'. eapply same_graph_trans; [done|].
    split; [|done]. simpl.
    by eapply (merge_file_present p _ _ (nodes st) m fs keeps_path_id).
Qed.

(** ** Rows of the second statement *)

Lemma merge_rel_elem a b rs : (a, b) ∈ merge_rel a b rs.
Proof. unfold merge_rel. case_decide; set_solver. Qed.

Lemma merge_rel_mono a b rs : rs ⊆ merge_rel a b rs.
Proof. unfold merge_rel. case_decide; set_solver. Qed.

Lemma merge_rel_present a b rs : (a, b) ∈ rs → merge_rel a b rs = rs.
Proof. intros H. unfold merge_rel. by rewrite decide_True. Qed.

Lemma link_all_nodes a bs st : nodes (link_all a bs st) = nodes st.
Proof.
  revert st. induction bs as [|b bs IH]; intros st; [done|].
  unfold link_all in *. simpl. by rewrite IH.
Qed.

Lemma link_all_mono a bs st : rels st ⊆ rels (link_all a bs st).
Proof.
  revert st. induction bs as [|b bs IH]; intros st; [done|].
  unfold link_all in *. simpl. etrans; [|apply IH]. simpl.
  apply merge_rel_mono.
Qed.

Lemma link_all_elem a bs st b : b ∈ bs → (a, b) ∈ rels (link_all a bs st).
Proof.
  revert st. induction bs as [|b' bs IH]; intros st Hb.
  - by apply elem_of_nil in Hb.
  - apply elem_of_cons in Hb as [->|Hb].
    + apply (link_all_mono a bs (set_rels (merge_rel a b' (rels st)) st)).
      apply merge_rel_elem.
    + by apply (IH (set_rels (merge_rel a b' (rels st)) st)).
Qed.

Lemma link_all_present a bs st :
  (∀ b, b ∈ bs → (a, b) ∈ rels st) → link_all a bs st = st.
Proof.
  induction bs as [|b bs IH]; intros H; [done|].
  unfold link_all in *. simpl. rewrite merge_rel_present by (apply H; left).
  destruct st. apply IH. intros ??. apply H. by right.
Qed.

Lemma merge_target_spec scope t st a :
  let st' := merge_target scope t st a in
  extends st st' ∧ has_path (nodes st') t ∧
  ∀ b, b ∈ matching t (nodes st') → (a, b) ∈ rels st'.
Proof.
  unfold merge_target.
  destruct (merge_file t _ _ (nodes st)) as [m bs] eqn:E. simpl.
  pose proof (merge_file_bound _ _ _ _ _ _
    (keeps_path_on_create scope) (keeps_path_on_match scope) E) as [Hbs Hp].
  rewrite link_all_nodes. simpl. split; [split|split].
  - intros q Hq. rewrite link_all_nodes. simpl.
    by apply (merge_file_keeps _ _ _ _ _ _ q (keeps_path_on_create scope)
                (keeps_path_on_match scope) E).
  - apply (link_all_mono a bs (set_nodes m st)).
  - done.
  - intros b Hb. apply link_all_elem. by rewrite Hbs.
Qed.

Lemma merge_target_same scope t st a :
  has_path (nodes st) t →
  (∀ b, b ∈ matching t (nodes st) → (a, b) ∈ rels st) →
  same_graph (merge_target scope t st a) st.
Proof.
  intros Ht Hl. unfold merge_target.
  destruct (merge_file t _ _ (nodes st)) as [m bs] eqn:E.
  apply merge_file_present in E as [Hm ->]; [|done..].
  rewrite link_all_present; [by split|]. done.
Qed.

Lemma fold_targets_spec scope t as_ st :
  let st' := foldl (merge_target scope t) st as_ in
  extends st st' ∧
  ∀ a, a ∈ as_ →
    has_path (nodes st') t ∧
    ∀ b, b ∈ matching t (nodes st') → (a, b) ∈ rels st'.
Proof.
  revert st. induction as_ as [|a as_ IH]; intros st; simpl.
  - split; [apply extends_refl|]. intros a Ha. by apply elem_of_nil in Ha.
  - destruct (merge_target_spec scope t st a) as (Hext & Hp & Hl).
    destruct (IH (merge_target scope t st a)) as [Hext' Hrest].
    split; [by eapply extends_trans|].
    intros x [->|Hx]%elem_of_cons; [|by apply Hrest].
    split; [by eapply extends_has_path|].
    destruct Hext' as [Hm Hr]. intros b. rewrite (Hm t Hp). intros Hb.
    apply Hr. by apply Hl.
Qed.

Lemma fold_targets_same scope t as_ st :
  has_path (nodes st) t →
  (∀ a b, a ∈ as_ → b ∈ matching t (nodes st) → (a, b) ∈ rels st) →
  same_graph (foldl (merge_target scope t) st as_) st.
Proof.
  intros Ht Hl.
  assert (H : ∀ cur, same_graph cur st →
            same_graph (foldl (merge_target scope t) cur as_) st);
    [|apply H, same_graph_refl].
  induction as_ as [|a as_ IH]; intros cur Hcur; [done|]. simpl.
  apply IH.
  - intros ????. apply Hl; [by right|done].
  - eapply same_graph_trans; [|done]. apply merge_target_same.
    + unfold has_path. by rewrite (same_graph_matching _ _ t Hcur).
    + intros b. rewrite (same_graph_matching _ _ t Hcur).
      destruct Hcur as [_ ->]. apply Hl. left.
Qed.

Lemma edge_row_spec scope st p st' :
  edge_row scope st p = Ok st' →
  ∃ f, p.1 = Some f ∧ extends st st' ∧ saturated st' f p.2.
Proof.
  unfold edge_row. destruct (p.1) as [f|]; [|done].
  destruct (merge_file f _ _ (nodes st)) as [m as_] eqn:E. intros [= <-].
  exists f. split; [done|].
  pose proof (merge_file_bound _ _ _ _ _ _
    (keeps_path_on_create scope) (keeps_path_on_match scope) E) as [Has Hf].
  destruct (fold_targets_spec scope p.2 as_ (set_nodes m st)) as [Hext Hl].
  assert (Hst : extends st (set_nodes m st)).
  { split; [|done]. intros q Hq. simpl.
    by apply (merge_file_keeps _ _ _ _ _ _ q (keeps_path_on_create scope)
                (keeps_path_on_match scope) E). }
  split; [by eapply extends_trans|].
  assert (Hm : matching f (nodes (foldl (merge_target scope p.2)
                 (set_nodes m st) as_)) = as_).
  { destruct Hext as [Hext _]. by rewrite (Hext f Hf). }
  split; [unfold has_path; rewrite Hm; by rewrite Has|].
  destruct as_ as [|a0 as_]; [exfalso; apply Hf; by rewrite <- Has|].
  split; [apply (Hl a0); left|].
  intros a b. rewrite Hm. intros Ha Hb. by apply Hl.
Qed.

Lemma edge_row_same scope st f t :
  saturated st f t →
  ∃ st', edge_row scope st (Some f, t) = Ok st' ∧ same_graph st' st.
Proof.
  intros (Hf & Ht & Hl). unfold edge_row. simpl.
  destruct (merge_file f _ _ (nodes st)) as [m as_] eqn:E.
  apply merge_file_present in E as [Hm ->]; [|done..].
  eexists. split; [done|].
  assert (Hsame : same_graph (set_nodes m st) st) by by split.
  eapply same_graph_trans; [|done].
  apply fold_targets_same.
  - unfold has_path. by rewrite (same_graph_matching _ _ t Hsame).
  - intros a b Ha. rewrite (same_graph_matching _ _ t Hsame). simpl.
    by apply Hl.
Qed.

(** ** The two upsert steps *)

Lemma upsertNodes_spec files scope st st' :
  upsertNodes files scope st = Ok st' →
  extends st st' ∧
  ∀ file, file ∈ files →
    ∃ p, File.path file = Some p ∧ has_path (nodes st') p.
Proof.
  intros H. split.
  - revert H. apply (foldM_rel _ extends).
    + apply extends_refl.
    + apply extends_trans.
    + intros a file a' _ Hrow.
      by destruct (node_row_spec _ _ _ _ Hrow) as (p & _ & Hext & _).
  - revert H.
    apply (foldM_each _ extends
             (λ file a, ∃ p, File.path file = Some p ∧ has_path (nodes a) p)).
    + apply extends_refl.
    + apply extends_trans.
    + intros a file a' _ Hrow.
      destruct (node_row_spec _ _ _ _ Hrow) as (p & Hp & Hext & Hhas & _).
      eauto.
    + intros file a a' (p & Hp & Hhas) Hext. exists p. split; [done|].
      by eapply extends_has_path.
Qed.

Lemma upsertNodes_same files scope st st' :
  (∀ file, file ∈ files →
     ∃ p, File.path file = Some p ∧ has_path (nodes st) p) →
  upsertNodes files scope st = Ok st' →
  same_graph st' st.
Proof.
  intros Hall H.
  pose (inv := λ a : Store, ∀ file, file ∈ files →
     ∃ p, File.path file = Some p ∧ has_path (nodes a) p).
  assert (Hkeep : ∀ a a', inv a → same_graph a' a → inv a').
  { intros a a' Ha Hs file Hfile. destruct (Ha file Hfile) as (p & Hp & Hhas).
    exists p. split; [done|]. unfold has_path.
    by rewrite (same_graph_matching _ _ p Hs). }
  assert (HR : inv st → same_graph st' st); [|by apply HR].
  revert H. apply (foldM_rel _ (λ a a', inv a → same_graph a' a)).
  - intros a _. apply same_graph_refl.
  - intros a b c Hab Hbc Ha. eapply same_graph_trans; [|by apply Hab].
    apply Hbc. eapply Hkeep; [done|]. by apply Hab.
  - intros a file a' Hfile Hrow Ha.
    destruct (node_row_spec _ _ _ _ Hrow) as (p & Hp & _ & _ & Hsame).
    apply Hsame. destruct (Ha file Hfile) as (p' & Hp' & Hhas). congruence.
Qed.

Lemma merge_imports_spec scope pairs st st' :
  merge_imports scope pairs st = Ok st' →
  extends st st' ∧ ∀ pr, pr ∈ pairs → pair_saturated st' pr.
Proof.
  intros H. split.
  - revert H. apply (foldM_rel _ extends).
    + apply extends_refl.
    + apply extends_trans.
    + intros a pr a' _ Hrow.
      by destruct (edge_row_spec _ _ _ _ Hrow) as (f & _ & Hext & _).
  - revert H. apply (foldM_each _ extends (λ pr a, pair_saturated a pr)).
    + apply extends_refl.
    + apply extends_trans.
    + intros a pr a' _ Hrow.
      destruct (edge_row_spec _ _ _ _ Hrow) as (f & Hf & Hext & Hsat).
      split; [done|]. by exists f.
    + intros pr a a' (f & Hf & Hsat) Hext. exists f. split; [done|].
      by eapply extends_saturated.
Qed.

Lemma merge_imports_same scope pairs st :
  (∀ pr, pr ∈ pairs → pair_saturated st pr) →
  ∃ st', merge_imports scope pairs st = Ok st' ∧ same_graph st' st.
Proof.
  intros Hall.
  apply (foldM_total _ (λ a, same_graph a st)); [apply same_graph_refl|].
  intros a [from t] Hpr Ha.
  destruct (Hall _ Hpr) as (f & Hf & Hsat). simpl in Hf. subst from.
  destruct (edge_row_same scope a f t) as (a' & Hrow & Hsame).
  { by eapply same_graph_saturated. }
  exists a'. split; [done|]. by eapply same_graph_trans.
Qed.

Lemma upsertEdges_spec files scope st st' :
  upsertEdges files scope st = Ok st' →
  extends st st' ∧ ∀ pr, pr ∈ relPairs files → pair_saturated st' pr.
Proof.
  unfold upsertEdges. destruct (relPairs files) as [|pr pairs] eqn:E.
  - intros [= <-]. split; [apply extends_refl|].
    intros pr Hpr. by apply elem_of_nil in Hpr.
  - apply merge_imports_spec.
Qed.

Lemma upsertEdges_same files scope st :
  (∀ pr, pr ∈ relPairs files → pair_saturated st pr) →
  ∃ st', upsertEdges files scope st = Ok st' ∧ same_graph st' st.
Proof.
  unfold upsertEdges. destruct (relPairs files) as [|pr pairs] eqn:E.
  - intros _. exists st. split; [done|apply same_graph_refl].
  - apply merge_imports_same.
Qed.

Lemma same_record_paths files files' :
  Forall2 same_record files files' →
  map File.path files = map File.path files'.
Proof.
  induction 1 as [|f f' l l' Hf _ IH]; [done|]. simpl. rewrite IH.
  f_equal. unfold same_record in Hf. by injection Hf.
Qed.

Lemma same_record_relPairs files files' :
  Forall2 same_record files files' → relPairs files = relPairs files'.
Proof.
  induction 1 as [|f f' l l' Hf _ IH]; [done|]. simpl. rewrite IH.
  f_equal. unfold same_record in Hf. injection Hf as Hp _ _ _ _ Hi.
  by rewrite Hp, Hi.
Qed.

Lemma same_graph_keys s s' :
  same_graph s s' → node_keys s = node_keys s' ∧ edge_keys s = edge_keys s'.
Proof. intros [Hn Hr]. unfold node_keys, edge_keys. by rewrite Hn, Hr. Qed.

(** C1.  Once the node upsert and the edge upsert have run on an input,
    running both again on the same input (whatever ids the second parse is
    given, and whether or not the second run completes) leaves the same
    nodes under the same paths and the same [IMPORTS] relationships: the
    second run creates no node and no relationship. *)
Theorem upsert_twice_same_graph files files' scope scope' st s1 s2 :
  Forall2 same_record files files' →
  upsertNodes files scope st = Ok s1 →
  upsertEdges files scope s1 = Ok s2 →
  let s' := after_upserts files' scope' s2 in
  same_graph s' s2 ∧
  node_keys s' = node_keys s2 ∧ edge_keys s' = edge_keys s2 ∧
  size (nodes s') = size (nodes s2) ∧ length (rels s') = length (rels s2).
Proof.
  intros Hsame Hn He s'.
  assert (Hgoal : same_graph s' s2).
  { destruct (upsertNodes_spec _ _ _ _ Hn) as [_ Hpaths].
    destruct (upsertEdges_spec _ _ _ _ He) as [Hext Hpairs].
    subst s'. unfold after_upserts.
    destruct (upsertNodes files' scope' s2) as [s3|] eqn:E3;
      [|apply same_graph_refl].
    assert (H3 : same_graph s3 s2).
    { eapply upsertNodes_same; [|done].
      intros file' Hfile'.
      assert (Hin : File.path file' ∈ map File.path files).
      { rewrite (same_record_paths _ _ Hsame).
        apply list_elem_of_fmap. eauto. }
      apply list_elem_of_fmap in Hin as (file & Heq & Hfile).
      destruct (Hpaths file Hfile) as (p & Hp & Hhas).
      exists p. split; [congruence|]. by eapply extends_has_path. }
    destruct (upsertEdges_same files' scope' s3) as (s4 & -> & H4).
    { intros pr Hpr. rewrite <- (same_record_relPairs _ _ Hsame) in Hpr.
      destruct (Hpairs pr Hpr) as (f & Hf & Hsat).
      exists f. split; [done|]. by eapply same_graph_saturated. }
    by eapply same_graph_trans. }
  split; [done|].
  destruct (same_graph_keys _ _ Hgoal) as [Hk1 Hk2].
  split; [done|]. split; [done|].
  destruct Hgoal as [Hnodes Hrels].
  split; [|by rewrite Hrels].
  rewrite <- (map_size_fmap Node.path (nodes s')), Hnodes.
  apply map_size_fmap.
Qed.

Lemma upsert_twice_same_graph_witness :
  let files := [x_js "1-aaaaaaa"; y_js "1-bbbbbbb"] in
  let files' := [x_js "2-ccccccc"; y_js "2-ddddddd"] in
  ∃ s1 s2 s3,
    upsertNodes files "proj1" (mkStore ∅ [] true true) = Ok s1 ∧
    upsertEdges files "proj1" s1 = Ok s2 ∧
    upsertNodes files' "proj1" s2 = Ok s3 ∧
    same_graph (after_upserts files' "proj1" s2) s2 ∧
    node_keys s2 = [Some "y.js"; Some "x.js"]%string ∧
    rels s2 = [(0, 1)].
Proof.
  intros files files'.
  eexists _, _, _.
  split; [vm_compute; reflexivity|].
  split; [vm_compute; reflexivity|].
  split; [vm_compute; reflexivity|].
  split; [|by vm_compute].
  eapply (upsert_twice_same_graph files files' "proj1" "proj1"
            (mkStore ∅ [] true true)).
  - repeat constructor.
  - vm_compute; reflexivity.
  - vm_compute; reflexivity.
Defined.

(** ** Endpoints that no record describes *)

(** C5.  The edge upsert of the single record [{path: "a.pl", importFiles:
    ["b.pl"]}] on an empty store leaves exactly two nodes, under "a.pl" and
    "b.pl", and exactly one relationship, from the first to the second;
    the node of "b.pl", which no record describes, has its [path] and its
    [projectUuid] and no other property. *)
Theorem upsertEdges_creates_missing_endpoint
    (projectUuid : string) name loc description externalImports id :
  let record :=
    File.mk (Some "a.pl") name loc description externalImports
      (Some ["b.pl"]) id in
  let endpoint (p : string) :=
    Node.mk (Some p) None None None None None (Some projectUuid)
      None None None in
  ∃ st a b,
    upsertEdges [record] projectUuid empty_store = Ok st ∧
    a ≠ b ∧
    nodes st = <[b := endpoint "b.pl"]> (<[a := endpoint "a.pl"]> ∅) ∧
    size (nodes st) = 2%nat ∧
    rels st = [(a, b)].
Proof.
  intros record endpoint. eexists _, 0, 1.
  split; [vm_compute; reflexivity|]. split; [done|].
  split; [vm_compute; reflexivity|]. split; vm_compute; reflexivity.
Qed.

(** ** What the edge upsert does to node properties *)

Lemma on_match_idem scope n :
  on_match_endpoint scope (on_match_endpoint scope n) = on_match_endpoint scope n.
Proof. done. Qed.

Lemma on_match_created scope p :
  on_match_endpoint scope (on_create_endpoint scope (Node.blank p)) =
  on_create_endpoint scope (Node.blank p).
Proof. done. Qed.

Lemma on_match_tagged scope n u :
  Node.projectUuid n = Some u → on_match_endpoint scope n = n.
Proof. destruct n. simpl. by intros ->. Qed.

Lemma endpoint_frame_refl scope m : endpoint_frame scope m m.
Proof.
  split; [by left|]. intros i n' H1 H2. by rewrite H1 in H2.
Qed.

Lemma endpoint_frame_trans scope m1 m2 m3 :
  endpoint_frame scope m1 m2 → endpoint_frame scope m2 m3 →
  endpoint_frame scope m1 m3.
Proof.
  intros [Ho12 Hn12] [Ho23 Hn23]. split.
  - intros i n Hn. destruct (Ho12 i n Hn) as [H2|H2];
      destruct (Ho23 i _ H2) as [H3|H3]; rewrite H3; auto.
  - intros i n' H3 H1. destruct (m2 !! i) as [n2|] eqn:E2.
    + destruct (Hn12 i n2 E2 H1) as [p ->]. exists p.
      destruct (Ho23 i _ E2) as [H|H]; rewrite H in H3; by injection H3.
    + by apply (Hn23 i).
Qed.

Lemma merge_file_frame scope p (m m' : gmap N Node.t) bs :
  merge_file p (on_create_endpoint scope) (on_match_endpoint scope) m
    = (m', bs) →
  endpoint_frame scope m m'.
Proof.
  intros H. apply merge_file_cases in H as [(E & -> & ->)|(E & -> & ->)].
  - split.
    + intros i n Hn. left. rewrite lookup_insert_ne; [done|].
      intros <-. by rewrite fresh_node_None in Hn.
    + intros i n' Hn' Hi. apply lookup_insert_Some in Hn' as [[_ <-]|[_ Hn']].
      * by exists p.
      * congruence.
  - split.
    + intros i n Hn. rewrite lookup_alter_all by apply NoDup_matching.
      case_decide; rewrite Hn; auto.
    + intros i n' Hn' Hi. rewrite lookup_alter_all in Hn' by apply NoDup_matching.
      case_decide; rewrite Hi in Hn'; done.
Qed.

Lemma merge_target_frame scope t st a :
  endpoint_frame scope (nodes st) (nodes (merge_target scope t st a)).
Proof.
  unfold merge_target.
  destruct (merge_file t _ _ (nodes st)) as [m bs] eqn:E.
  rewrite link_all_nodes. by eapply merge_file_frame.
Qed.

Lemma edge_row_frame scope st pr st' :
  edge_row scope st pr = Ok st' → endpoint_frame scope (nodes st) (nodes st').
Proof.
  unfold edge_row. destruct (pr.1) as [f|]; [|done].
  destruct (merge_file f _ _ (nodes st)) as [m as_] eqn:E. intros [= <-].
  eapply endpoint_frame_trans; [by eapply merge_file_frame|].
  change m with (nodes (set_nodes m st)) at 1.
  generalize (set_nodes m st). clear E.
  induction as_ as [|a as_ IH]; intros cur; [apply endpoint_frame_refl|].
  simpl. eapply endpoint_frame_trans; [apply merge_target_frame|apply IH].
Qed.

Lemma upsertEdges_frame files scope st st' :
  upsertEdges files scope st = Ok st' →
  endpoint_frame scope (nodes st) (nodes st').
Proof.
  unfold upsertEdges. destruct (relPairs files) as [|pr pairs].
  - intros [= <-]. apply endpoint_frame_refl.
  - apply (foldM_rel _ (λ a a', endpoint_frame scope (nodes a) (nodes a'))).
    + intros a. apply endpoint_frame_refl.
    + intros a b c. apply endpoint_frame_trans.
    + intros a b a' _. apply edge_row_frame.
Qed.

(** The node upsert leaves alone the nodes whose path no record has. *)
Lemma node_row_frame scope st file st' i n :
  node_row scope st file = Ok st' →
  nodes st !! i = Some n → File.path file ≠ Node.path n →
  nodes st' !! i = Some n.
Proof.
  unfold node_row. destruct (File.path file) as [p|] eqn:Ep; [|done].
  destruct (merge_file p _ _ (nodes st)) as [m fs] eqn:E. intros H Hn Hp.
  destruct (merge_file_bound _ _ _ _ _ _ keeps_path_id keeps_path_id E)
    as [Hfs _].
  assert (Hm : m !! i = Some n).
  { apply merge_file_cases in E as [(_ & _ & ->)|(_ & _ & ->)].
    - rewrite lookup_insert_ne; [done|]. intros <-.
      by rewrite fresh_node_None in Hn.
    - rewrite lookup_alter_all by (rewrite Hfs; apply NoDup_matching).
      rewrite Hn. by case_decide. }
  assert (Hi : i ∉ fs).
  { rewrite Hfs. intros (n' & Hn' & Hp')%elem_of_matching. congruence. }
  rewrite <- Hm. change m with (nodes (set_nodes m st)). revert H.
  apply (foldM_rel _ (λ a a', nodes a' !! i = nodes a !! i)); [done|congruence|].
  intros a j a' Hj. unfold set_one. destruct (id_clash _ _ _); [done|].
  intros [= <-]. cbn [nodes set_nodes]. rewrite lookup_alter.
  case_decide; [congruence|done].
Qed.

Lemma upsertNodes_frame files scope st st' i n :
  upsertNodes files scope st = Ok st' →
  nodes st !! i = Some n →
  (∀ file, file ∈ files → File.path file ≠ Node.path n) →
  nodes st' !! i = Some n.
Proof.
  intros H Hn Hfiles.
  assert (HR : nodes st !! i = Some n → nodes st' !! i = nodes st !! i).
  { revert H.
    apply (foldM_rel _
             (λ a a', nodes a !! i = Some n → nodes a' !! i = nodes a !! i)).
    - done.
    - intros a b c Hab Hbc Ha. rewrite Hbc, Hab; [done..|]. by rewrite Hab.
    - intros a file a' Hfile Hrow Ha. rewrite Ha.
      eapply node_row_frame; [done..|]. by apply Hfiles. }
  by rewrite HR.
Qed.

Lemma upsertEdges_keeps_tagged files scope st st' i n u :
  upsertEdges files scope st = Ok st' →
  nodes st !! i = Some n → Node.projectUuid n = Some u →
  nodes st' !! i = Some n.
Proof.
  intros H Hn Hu. apply upsertEdges_frame in H as [Hold _].
  destruct (Hold i n Hn) as [H|H]; [done|].
  by rewrite (on_match_tagged scope n u Hu) in H.
Qed.

Lemma merge_file_effect p oc om (m m' : gmap N Node.t) bs i n :
  merge_file p oc om m = (m', bs) → m !! i = Some n →
  m' !! i = Some (if decide (Node.path n = Some p) then om n else n).
Proof.
  intros H Hn. apply merge_file_cases in H as [(E & -> & ->)|(E & -> & ->)].
  - rewrite lookup_insert_ne by (intros <-; by rewrite fresh_node_None in Hn).
    rewrite decide_False; [done|]. intros Hp.
    assert (Hi : i ∈ matching p m) by (apply elem_of_matching; eauto).
    rewrite E in Hi. by apply elem_of_nil in Hi.
  - rewrite lookup_alter_all by apply NoDup_matching. rewrite Hn.
    destruct (decide (i ∈ matching p m)) as [Hi|Hi].
    + apply elem_of_matching in Hi as (n' & Hn' & Hp).
      rewrite decide_True; [done|congruence].
    + rewrite decide_False; [done|]. intros Hp. apply Hi.
      apply elem_of_matching. eauto.
Qed.

Lemma merge_target_effect scope t st a i n :
  nodes st !! i = Some n →
  nodes (merge_target scope t st a) !! i =
    Some (if decide (Node.path n = Some t)
          then on_match_endpoint scope n else n).
Proof.
  intros Hn. unfold merge_target.
  destruct (merge_file t _ _ (nodes st)) as [m bs] eqn:E.
  rewrite link_all_nodes. cbn [nodes set_nodes].
  by apply (merge_file_effect _ _ _ _ _ _ i n E).
Qed.

Lemma fold_targets_effect scope t as_ i : ∀ st n,
  nodes st !! i = Some n →
  nodes (foldl (merge_target scope t) st as_) !! i =
    Some (match as_ with
          | [] => n
          | _ => if decide (Node.path n = Some t)
                 then on_match_endpoint scope n else n
          end).
Proof.
  induction as_ as [|a as_ IH]; intros st n Hn; [done|]. simpl.
  pose proof (merge_target_effect scope t st a i n Hn) as H1.
  rewrite (IH _ _ H1). destruct as_ as [|a' as_]; [done|].
  destruct (decide (Node.path n = Some t)) as [Hp|Hp].
  - by rewrite decide_True.
  - by rewrite decide_False.
Qed.

Lemma edge_row_effect scope st pr st' i n :
  edge_row scope st pr = Ok st' → nodes st !! i = Some n →
  nodes st' !! i =
    Some (if decide (touches n pr) then on_match_endpoint scope n else n).
Proof.
  unfold edge_row. destruct pr as [[f|] t]; [|done]. simpl.
  destruct (merge_file f _ _ (nodes st)) as [m as_] eqn:E.
  intros [= <-] Hn.
  pose proof (merge_file_bound _ _ _ _ _ _
    (keeps_path_on_create scope) (keeps_path_on_match scope) E) as [Has Hf].
  pose proof (merge_file_effect _ _ _ _ _ _ i n E Hn) as H1.
  rewrite (fold_targets_effect scope t as_ i (set_nodes m st) _ H1).
  destruct as_ as [|a as_]; [exfalso; apply Hf; by rewrite <- Has|].
  f_equal. unfold touches. simpl.
  destruct (decide (Node.path n = Some f)) as [Hp|Hp];
    destruct (decide (Node.path n = Some t)) as [Hq|Hq]; simpl;
    try rewrite (decide_True (P := Node.path n = Some t)) by done;
    try rewrite (decide_False (P := Node.path n = Some t)) by done.
  - rewrite decide_True by by left. done.
  - rewrite decide_True by by left. done.
  - rewrite decide_True by by right. done.
  - rewrite decide_False; [done|]. intros [?|?]; done.
Qed.

Lemma merge_imports_effect scope pairs i : ∀ st st' n,
  merge_imports scope pairs st = Ok st' → nodes st !! i = Some n →
  nodes st' !! i =
    Some (if decide (Exists (touches n) pairs)
          then on_match_endpoint scope n else n).
Proof.
  induction pairs as [|pr pairs IH]; intros st st' n H Hn.
  - injection H as <-. rewrite decide_False; [done|].
    intros Hex. by apply Exists_nil in Hex.
  - cbn [merge_imports foldM] in H.
    destruct (edge_row scope st pr) as [s1|] eqn:Hrow; [|done].
    change (merge_imports scope pairs s1 = Ok st') in H.
    pose proof (edge_row_effect _ _ _ _ i n Hrow Hn) as H1.
    rewrite (IH _ _ _ H H1).
    assert (Hsame : ∀ pr', touches (on_match_endpoint scope n) pr'
                           ↔ touches n pr') by done.
    destruct (decide (touches n pr)) as [Ht|Ht].
    + rewrite (decide_True (P := Exists (touches n) (pr :: pairs)))
        by by left.
      by destruct (decide (Exists _ pairs)).
    + destruct (decide (Exists (touches n) pairs)) as [Hex|Hex].
      * by rewrite decide_True by by right.
      * rewrite decide_False; [done|].
        intros [?|?]%Exists_cons; done.
Qed.

Lemma upsertEdges_effect files scope st st' i n :
  upsertEdges files scope st = Ok st' → nodes st !! i = Some n →
  nodes st' !! i =
    Some (if decide (Exists (touches n) (relPairs files))
          then on_match_endpoint scope n else n).
Proof.
  unfold upsertEdges. destruct (relPairs files) as [|pr pairs].
  - intros [= <-] Hn. rewrite decide_False; [done|].
    intros Hex. by apply Exists_nil in Hex.
  - intros H Hn. by apply (merge_imports_effect _ _ _ _ _ _ H).
Qed.

(** C4, as the code has it.  The edge upsert leaves every node that
    already has a [projectUuid] exactly as it was, whatever the batch's
    scope: a node tagged "P1" is still tagged "P1" after a "P2" batch.
    The scope of the batch is written onto the nodes that the batch
    creates, and onto every existing node without a [projectUuid] whose
    path is the [from] or the [to] of a pair (the [coalesce] of
    [ON MATCH]); an untagged node that no pair names, and everything else
    of an existing node, is left as it was. *)
Theorem upsertEdges_projectUuid files scope st st' :
  upsertEdges files scope st = Ok st' →
  (∀ i n u, nodes st !! i = Some n → Node.projectUuid n = Some u →
     nodes st' !! i = Some n) ∧
  (∀ i n, nodes st !! i = Some n → Node.projectUuid n = None →
     ((∃ pr, pr ∈ relPairs files ∧ touches n pr) →
      nodes st' !! i = Some (Node.set_projectUuid (Some scope) n)) ∧
     ((∀ pr, pr ∈ relPairs files → ¬ touches n pr) →
      nodes st' !! i = Some n)) ∧
  (∀ i n', nodes st' !! i = Some n' → nodes st !! i = None →
     ∃ p, n' = Node.mk (Some p) None None None None None (Some scope)
                 None None None).
Proof.
  intros H. split; [|split].
  - intros i n u. by apply (upsertEdges_keeps_tagged files scope).
  - intros i n Hn Hu. rewrite (upsertEdges_effect _ _ _ _ i n H Hn). split.
    + intros Hex. rewrite decide_True by by apply Exists_exists.
      unfold on_match_endpoint. by rewrite Hu.
    + intros Hall. rewrite decide_False; [done|].
      intros (pr & Hpr & Ht)%Exists_exists. by apply (Hall pr).
  - apply upsertEdges_frame in H as [Hold Hnew]. intros i n' Hn' Hi.
    destruct (Hnew i n' Hn' Hi) as [p ->]. by exists p.
Qed.

(** The same through both steps of a run: a tagged node whose path is the
    path of no record of the batch comes out as it was. *)
Lemma upserts_keep_other_projects files scope st s1 s2 i n u :
  upsertNodes files scope st = Ok s1 → upsertEdges files scope s1 = Ok s2 →
  nodes st !! i = Some n → Node.projectUuid n = Some u →
  (∀ file, file ∈ files → File.path file ≠ Node.path n) →
  nodes s2 !! i = Some n.
Proof.
  intros Hn He Hi Hu Hfiles.
  apply (upsertEdges_keeps_tagged _ _ _ _ i n u He); [|done].
  by eapply upsertNodes_frame.
Qed.

(** A node of project "P1" and a node of no project that a "P2" batch
    reaches as import targets, and a node of no project that it does not
    reach. *)
Lemma upsertEdges_projectUuid_witness :
  let b := Node.mk (Some "b.pl") (Some "7-qqqqqqq") (Some "b.pl") (Some 10%Z)
             (Some "") (Some []) (Some "P1") (Some 0%Z) (Some 0%Z) None in
  let c := Node.blank "c.pl" in
  let d := Node.blank "d.pl" in
  let st := mkStore {[5 := b; 6 := c; 7 := d]} [] true true in
  let files := [File.mk (Some "a.pl") None None None None
                  (Some ["b.pl"; "c.pl"]) None] in
  ∃ st', upsertEdges files "P2" st = Ok st' ∧
    nodes st' !! 5 = Some b ∧
    nodes st' !! 6 = Some (Node.set_projectUuid (Some "P2"%string) c) ∧
    nodes st' !! 7 = Some d.
Proof.
  intros b c d st files.
  destruct (upsertEdges files "P2" st) as [st'|e] eqn:E;
    [|by vm_compute in E].
  destruct (upsertEdges_projectUuid files "P2" st st' E)
    as (Htagged & Huntagged & _).
  exists st'. split; [reflexivity|]. split; [|split].
  - by apply (Htagged 5 b "P1"%string).
  - destruct (Huntagged 6 c) as [Hyes _]; [reflexivity|reflexivity|].
    apply Hyes. exists (Some "a.pl"%string, "c.pl"%string).
    split; [right; left|by right].
  - destruct (Huntagged 7 d) as [_ Hno]; [reflexivity|reflexivity|].
    apply Hno. intros pr Hpr.
    repeat (apply elem_of_cons in Hpr as [->|Hpr];
            [intros [?|?]; done|]).
    by apply elem_of_nil in Hpr.
Defined.

(** C4 as stated fails where it says that the scope is written only onto
    new nodes: an endpoint that exists without a [projectUuid] is given
    the scope of the batch that reaches it. *)
Lemma upsertEdges_tags_untagged_endpoint :
  let b := Node.blank "b.pl" in
  let st := mkStore {[0 := b]} [] false false in
  let files := [File.mk (Some "a.pl") None None None None (Some ["b.pl"]) None] in
  ∃ st', upsertEdges files "P2" st = Ok st' ∧
         nodes st !! 0 = Some b ∧
         Node.projectUuid b = None ∧
         Node.projectUuid <$> nodes st' !! 0 = Some (Some "P2").
Proof.
  intros b st files. eexists. split; [vm_compute; reflexivity|].
  by vm_compute.
Qed.

(** ** The upserts keep relationships between nodes of the database *)

Lemma grows_refl m : grows m m.
Proof. by intros i. Qed.

Lemma grows_trans m1 m2 m3 : grows m1 m2 → grows m2 m3 → grows m1 m3.
Proof. intros H12 H23 i Hi. by apply H23, H12. Qed.

Lemma wf_grows st st' :
  wf st → grows (nodes st) (nodes st') → rels st' = rels st → wf st'.
Proof.
  unfold wf. intros Hwf Hg ->. eapply Forall_impl; [done|].
  intros r [H1 H2]. split; by apply Hg.
Qed.

Lemma merge_file_grows p oc om (m m' : gmap N Node.t) bs :
  merge_file p oc om m = (m', bs) →
  grows m m' ∧ ∀ b, b ∈ bs → is_Some (m' !! b).
Proof.
  intros H. apply merge_file_cases in H as [(E & -> & ->)|(E & -> & ->)].
  - split.
    + intros i Hi. rewrite lookup_insert_ne; [done|].
      intros <-. rewrite fresh_node_None in Hi. by destruct Hi.
    + intros b ->%list_elem_of_singleton. by rewrite lookup_insert_eq.
  - assert (Hl : ∀ i, is_Some (m !! i) →
              is_Some (foldr (alter om) m (matching p m) !! i)).
    { intros i Hi. rewrite lookup_alter_all by apply NoDup_matching.
      case_decide; [by apply fmap_is_Some|done]. }
    split; [done|]. intros b Hb. apply Hl.
    apply elem_of_matching in Hb as (n & -> & _). eauto.
Qed.

Lemma link_all_wf a bs st :
  wf st → is_Some (nodes st !! a) → (∀ b, b ∈ bs → is_Some (nodes st !! b)) →
  wf (link_all a bs st).
Proof.
  revert st. induction bs as [|b bs IH]; intros st Hwf Ha Hbs; [done|].
  unfold link_all in *. simpl.
  apply IH; [|done|intros ??; apply Hbs; by right].
  unfold wf, merge_rel. simpl. case_decide; [done|].
  apply Forall_app. split; [done|]. apply Forall_singleton.
  split; [done|]. apply Hbs. left.
Qed.

Lemma merge_target_grows scope t st a :
  grows (nodes st) (nodes (merge_target scope t st a)).
Proof.
  unfold merge_target.
  destruct (merge_file t _ _ (nodes st)) as [m bs] eqn:E.
  apply merge_file_grows in E as [Hg _]. by rewrite link_all_nodes.
Qed.

Lemma merge_target_wf scope t st a :
  wf st → is_Some (nodes st !! a) → wf (merge_target scope t st a).
Proof.
  intros Hwf Ha. unfold merge_target.
  destruct (merge_file t _ _ (nodes st)) as [m bs] eqn:E.
  apply merge_file_grows in E as [Hg Hbs].
  apply link_all_wf; [|by apply Hg|done].
  by apply (wf_grows st).
Qed.

Lemma fold_targets_grows scope t as_ st :
  grows (nodes st) (nodes (foldl (merge_target scope t) st as_)).
Proof.
  revert st. induction as_ as [|a as_ IH]; intros st; [apply grows_refl|].
  simpl. exact (grows_trans _ _ _ (merge_target_grows scope t st a) (IH _)).
Qed.

Lemma fold_targets_wf scope t as_ st :
  wf st → (∀ a, a ∈ as_ → is_Some (nodes st !! a)) →
  wf (foldl (merge_target scope t) st as_).
Proof.
  revert st. induction as_ as [|a as_ IH]; intros st Hwf Has; [done|].
  simpl. apply IH.
  - apply merge_target_wf; [done|]. apply Has. left.
  - intros b Hb. apply merge_target_grows, Has. by right.
Qed.

Lemma edge_row_grows scope st pr st' :
  edge_row scope st pr = Ok st' → grows (nodes st) (nodes st').
Proof.
  unfold edge_row. destruct (pr.1) as [f|]; [|done].
  destruct (merge_file f _ _ (nodes st)) as [m as_] eqn:E. intros [= <-].
  apply merge_file_grows in E as [Hg _].
  exact (grows_trans _ _ _ Hg (fold_targets_grows scope pr.2 as_ (set_nodes m st))).
Qed.

Lemma edge_row_wf scope st pr st' :
  edge_row scope st pr = Ok st' → wf st → wf st'.
Proof.
  unfold edge_row. destruct (pr.1) as [f|]; [|done].
  destruct (merge_file f _ _ (nodes st)) as [m as_] eqn:E. intros [= <-] Hwf.
  apply merge_file_grows in E as [Hg Has].
  apply fold_targets_wf; [by apply (wf_grows st)|done].
Qed.

Lemma node_row_grows scope st file st' :
  node_row scope st file = Ok st' →
  grows (nodes st) (nodes st') ∧ rels st' = rels st.
Proof.
  unfold node_row. destruct (File.path file) as [p|]; [|done].
  destruct (merge_file p _ _ (nodes st)) as [m fs] eqn:E. intros H.
  apply merge_file_grows in E as [Hg _].
  assert (Hset : grows m (nodes st') ∧ rels st' = rels st).
  { revert H. change m with (nodes (set_nodes m st)) at 2.
    change (rels st) with (rels (set_nodes m st)).
    apply (foldM_rel _ (λ a a', grows (nodes a) (nodes a') ∧ rels a' = rels a)).
    - intros a. split; [apply grows_refl|done].
    - intros a b c [H1 H2] [H3 H4].
      split; [exact (grows_trans _ _ _ H1 H3)|congruence].
    - intros a i a' _. unfold set_one. destruct (id_clash _ _ _); [done|].
      intros [= <-]. split; [|done]. intros j Hj. cbn [nodes set_nodes].
      rewrite lookup_alter.
      case_decide; [subst; by apply fmap_is_Some|done]. }
  destruct Hset as [Hg' Hr]. split; [|done].
  exact (grows_trans _ _ _ Hg Hg').
Qed.

Lemma upsertNodes_grows files scope st st' :
  upsertNodes files scope st = Ok st' →
  grows (nodes st) (nodes st') ∧ rels st' = rels st.
Proof.
  apply (foldM_rel _ (λ a a', grows (nodes a) (nodes a') ∧ rels a' = rels a)).
  - intros a. split; [apply grows_refl|done].
  - intros a b c [H1 H2] [H3 H4].
    split; [exact (grows_trans _ _ _ H1 H3)|congruence].
  - intros a file a' _. apply node_row_grows.
Qed.

Lemma merge_imports_grows scope pairs st st' :
  merge_imports scope pairs st = Ok st' → grows (nodes st) (nodes st').
Proof.
  apply (foldM_rel _ (λ a a', grows (nodes a) (nodes a'))).
  - intros a. apply grows_refl.
  - intros a b c. apply grows_trans.
  - intros a pr a' _. apply edge_row_grows.
Qed.

(** From a database whose relationships join its nodes, the two upsert
    steps lead to such a database; the empty one is such a database. *)
Lemma upserts_wf files scope st s1 s2 :
  wf st →
  upsertNodes files scope st = Ok s1 → upsertEdges files scope s1 = Ok s2 →
  wf s1 ∧ wf s2.
Proof.
  intros Hwf Hn He.
  assert (H1 : wf s1).
  { destruct (upsertNodes_grows _ _ _ _ Hn) as [Hg Hr]. by apply (wf_grows st). }
  split; [done|]. revert He. unfold upsertEdges.
  destruct (relPairs files) as [|pr pairs]; [by intros [= <-]|].
  intros He. revert H1. revert He.
  apply (foldM_rel _ (λ a a', wf a → wf a')); [done|auto|].
  intros a pr' a' _ Hrow Ha. by apply (edge_row_wf _ _ _ _ Hrow).
Qed.

Lemma wf_empty : wf empty_store.
Proof. constructor. Qed.

(** ** Running the script *)

Lemma bind_normal {A B} (m : Js A) (k : A → Js B) w w1 a :
  m w = (w1, Normal a) → (m ≫= k) w = k a w1.
Proof. intros H. unfold mbind, Js_bind. by rewrite H. Qed.

Lemma bind_normal_inv {A B} (m : Js A) (k : A → Js B) w w' b :
  (m ≫= k) w = (w', Normal b) →
  ∃ w1 a, m w = (w1, Normal a) ∧ k a w1 = (w', Normal b).
Proof.
  unfold mbind, Js_bind. destruct (m w) as [w1 [a|e|c]]; [eauto|done..].
Qed.

Lemma emit_run e w : emit e w = (add_event e w, Normal ()).
Proof. done. Qed.

Lemma request_ok env r body w :
  fault env r = None → request env r body w = body (add_event (Sent r) w).
Proof.
  intros H. unfold request. rewrite (bind_normal _ _ _ _ _ (emit_run _ _)).
  by rewrite H.
Qed.

Lemma request_normal_inv env r body w w' :
  request env r body w = (w', Normal ()) →
  fault env r = None ∧ body (add_event (Sent r) w) = (w', Normal ()).
Proof.
  unfold request. rewrite (bind_normal _ _ _ _ _ (emit_run _ _)).
  by destruct (fault env r).
Qed.

Lemma executeWrite_normal {A} (body : Js A) w w' a :
  body w = (w', Normal a) → executeWrite body w = (w', Normal a).
Proof. intros H. unfold executeWrite. by rewrite H. Qed.

Lemma executeWrite_normal_inv {A} (body : Js A) w w' a :
  executeWrite body w = (w', Normal a) → body w = (w', Normal a).
Proof. unfold executeWrite. by destruct (body w) as [w1 [a1|e|c]]. Qed.

Lemma try_finally_normal_inv {A} (body : Js A) fin w w' a :
  try_finally body fin w = (w', Normal a) →
  ∃ w1, body w = (w1, Normal a) ∧ fin w1 = (w', Normal ()).
Proof.
  unfold try_finally. destruct (body w) as [w1 [a1|e|c]]; [| |done].
  - destruct (fin w1) as [w2 [[]|e|c]] eqn:E; [|done..].
    intros [= <- <-]. eauto.
  - by destruct (fin w1) as [w2 [[]|e2|c]].
Qed.

Lemma send_normal_inv env r f w w' :
  send env r f w = (w', Normal ()) →
  ∃ st, f (store w) = Ok st ∧ store w' = st ∧ catalog w' = catalog w.
Proof.
  unfold send. intros H. apply request_normal_inv in H as [_ H].
  unfold statement in H. simpl in H.
  destruct (f (store w)) as [st|e]; [|done]. injection H as <-. eauto.
Qed.

Lemma session_close_normal_inv env w w' :
  session_close env w = (w', Normal ()) →
  store w' = store w ∧ catalog w' = catalog w.
Proof.
  unfold session_close. intros H. apply request_normal_inv in H as [_ H].
  by injection H as <-.
Qed.

Lemma ensureConstraint_normal_inv env w w' :
  ensureConstraint env w = (w', Normal ()) →
  nodes (store w') = nodes (store w) ∧ rels (store w') = rels (store w) ∧
  catalog w' = catalog w.
Proof.
  unfold ensureConstraint. intros H.
  apply bind_normal_inv in H as (w1 & [] & H1 & H). injection H1 as <-.
  apply try_finally_normal_inv in H as (w2 & H & Hfin).
  apply executeWrite_normal_inv in H.
  apply bind_normal_inv in H as (w3 & [] & Hp & Hi).
  apply send_normal_inv in Hp as (s3 & Hp & E3 & C3).
  apply send_normal_inv in Hi as (s2 & Hi & E2 & C2).
  apply bind_normal_inv in Hfin as (w4 & [] & H4 & Hc). injection H4 as <-.
  apply session_close_normal_inv in Hc as [Es Ec]. simpl in *.
  unfold create_path_constraint, create_id_constraint in *.
  destruct (create_unique Node.path _ _) as [b1|]; [|done].
  injection Hp as <-. rewrite E3 in Hi.
  destruct (create_unique Node.id _ _) as [b2|]; [|done].
  injection Hi as <-. rewrite Es, E2, Ec, C2, C3. done.
Qed.

(** ** C9: nothing to import *)

(** C9.  When [files] is [null], [undefined] or an empty array, [importRepo]
    returns at once: the database, the catalog of projections and the heap
    are as they were, and no event happened, so no session was opened and
    no statement was sent. *)
Theorem importRepo_no_files env projectUuid w :
  importRepo env JsNull projectUuid w = (w, Normal ()) ∧
  importRepo env JsUndefined projectUuid w = (w, Normal ()) ∧
  importRepo env (JsArray []) projectUuid w = (w, Normal ()).
Proof. done. Qed.

(** ** Degree counts *)

Lemma rows_same_shape st st' i :
  rels st' = rels st → dom (nodes st') = dom (nodes st) →
  out_rows st' i = out_rows st i ∧ in_rows st' i = in_rows st i.
Proof.
  intros Hr Hd. unfold out_rows, in_rows. rewrite Hr.
  assert (Hs : ∀ j, is_Some (nodes st' !! j) ↔ is_Some (nodes st !! j)).
  { intros j. by rewrite <- !elem_of_dom, Hd. }
  split; apply list_filter_iff; intros r; by rewrite Hs.
Qed.

Lemma rows_wf st i :
  wf st →
  length (out_rows st i) = out_degree st i ∧
  length (in_rows st i) = in_degree st i.
Proof.
  unfold wf, out_rows, in_rows, out_degree, in_degree.
  induction 1 as [|r rs [H1 H2] _ [IH1 IH2]]; [done|].
  rewrite !filter_cons. split.
  - destruct (decide (r.1 = i)) as [E|E].
    + rewrite decide_True by done. simpl. by rewrite IH1.
    + rewrite decide_False by (by intros [? _]). done.
  - destruct (decide (r.2 = i)) as [E|E].
    + rewrite decide_True by done. simpl. by rewrite IH2.
    + rewrite decide_False by (by intros [? _]). done.
Qed.

Lemma recount_spec st0 ids st :
  NoDup ids → rels st = rels st0 → dom (nodes st) = dom (nodes st0) →
  rels (recount ids st) = rels st0 ∧
  dom (nodes (recount ids st)) = dom (nodes st0) ∧
  ∀ i, nodes (recount ids st) !! i =
         if decide (i ∈ ids) then counted st0 i <$> nodes st !! i
         else nodes st !! i.
Proof.
  intros Hnd. revert st.
  induction Hnd as [|j ids Hj Hnd IH]; intros st Hr Hd.
  - split; [done|]. split; [done|]. intros i.
    by rewrite decide_False by apply not_elem_of_nil.
  - cbn [recount foldl]. fold (recount ids (count_imports j st)).
    destruct (IH (count_imports j st)) as (Hr' & Hd' & Hl).
    { done. }
    { simpl. by rewrite dom_alter_L. }
    split; [done|]. split; [done|]. intros i. rewrite Hl. simpl.
    destruct (rows_same_shape st0 st j) as [-> ->]; [done..|].
    rewrite lookup_alter. destruct (decide (j = i)) as [->|Hji].
    + rewrite decide_False by done.
      by rewrite (decide_True (P := i ∈ i :: ids)) by left.
    + destruct (decide (i ∈ ids)) as [Hi|Hi].
      * by rewrite decide_True by by right.
      * rewrite decide_False; [done|]. intros [->|?]%elem_of_cons; done.
Qed.

Lemma update_each_ok env files w :
  (∀ i, i ∈ files.*1 → fault env (SetImportCounts i) = None) →
  update_each env files w =
    (mkWorld (heap w) (recount files.*1 (store w)) (catalog w)
       (trace w ++ update_events files), Normal ()).
Proof.
  revert w. induction files as [|[i p] files IH]; intros w Hf.
  - simpl. rewrite app_nil_r. by destruct w.
  - cbn [update_each]. unfold send.
    erewrite bind_normal; [|by rewrite request_ok by (apply Hf; left)].
    erewrite bind_normal; [|apply emit_run].
    rewrite IH by (intros ??; apply Hf; by right).
    simpl. by rewrite <- !app_assoc.
Qed.

Lemma update_each_normal_inv env files w w' :
  update_each env files w = (w', Normal ()) →
  ∀ i, i ∈ files.*1 → fault env (SetImportCounts i) = None.
Proof.
  revert w. induction files as [|[i p] files IH]; intros w H j Hj.
  - by apply elem_of_nil in Hj.
  - cbn [update_each] in H.
    apply bind_normal_inv in H as (w1 & [] & H1 & H).
    apply bind_normal_inv in H as (w2 & [] & H2 & H).
    apply request_normal_inv in H1 as [Hf _].
    apply elem_of_cons in Hj as [->|Hj]; [done|]. by eapply IH.
Qed.

Lemma found_files_ids st : (found_files st).*1 = elements (dom (nodes st)).
Proof.
  unfold found_files. rewrite <- list_fmap_compose.
  apply list_fmap_id.
Qed.

Lemma updateImportCounts_ok env w :
  fault env MatchFiles = None →
  (∀ i, i ∈ elements (dom (nodes (store w))) →
        fault env (SetImportCounts i) = None) →
  updateImportCounts env w =
    (mkWorld (heap w)
       (recount (elements (dom (nodes (store w)))) (store w))
       (catalog w) (trace w ++ count_events (store w)), Normal ()).
Proof.
  intros Hm Hs. unfold updateImportCounts.
  erewrite bind_normal; [|by rewrite request_ok by done].
  erewrite bind_normal; [|reflexivity].
  erewrite bind_normal; [|apply emit_run].
  erewrite bind_normal;
    [|apply update_each_ok; simpl; fold (found_files (store w));
      by rewrite found_files_ids].
  rewrite emit_run. unfold add_event. simpl.
  fold (found_files (store w)). rewrite found_files_ids.
  unfold count_events. by rewrite <- !app_assoc.
Qed.

Lemma updateImportCounts_normal_inv env w w' :
  updateImportCounts env w = (w', Normal ()) →
  fault env MatchFiles = None ∧
  ∀ i, i ∈ elements (dom (nodes (store w))) →
       fault env (SetImportCounts i) = None.
Proof.
  unfold updateImportCounts. intros H.
  apply bind_normal_inv in H as (w1 & [] & H1 & H).
  apply request_normal_inv in H1 as [Hm H1]. injection H1 as <-.
  apply bind_normal_inv in H as (w2 & st & H2 & H). injection H2 as <- <-.
  apply bind_normal_inv in H as (w3 & [] & H3 & H).
  apply bind_normal_inv in H as (w4 & [] & H4 & H).
  split; [done|]. intros i Hi.
  apply (update_each_normal_inv _ _ _ _ H4). simpl.
  fold (found_files (store w)). by rewrite found_files_ids.
Qed.

(** After the loop every node carries its two degrees. *)
Lemma recount_all_degrees st i n :
  nodes (recount (elements (dom (nodes st))) st) !! i = Some n →
  Node.importCount n = Some (Z.of_nat (length (out_rows st i))) ∧
  Node.importedByCount n = Some (Z.of_nat (length (in_rows st i))).
Proof.
  destruct (recount_spec st (elements (dom (nodes st))) st)
    as (_ & _ & Hl); [apply NoDup_elements|done..|].
  rewrite Hl. case_decide as Hi.
  - destruct (nodes st !! i) as [n0|]; [|done]. by intros [= <-].
  - intros Hn. exfalso. apply Hi. apply elem_of_elements, elem_of_dom. eauto.
Qed.

(** C3.  On a database whose relationships join nodes of the database,
    [updateImportCounts] completes whenever the database serves its
    requests; and once it has completed it has changed no relationship and
    no node identity, and every [File] node carries [importCount] equal to
    the number of [IMPORTS] relationships that leave it and
    [importedByCount] equal to the number that enter it. *)
Theorem updateImportCounts_degrees env w :
  wf (store w) →
  (fault env MatchFiles = None →
   (∀ i, fault env (SetImportCounts i) = None) →
   ∃ w', updateImportCounts env w = (w', Normal ())) ∧
  ∀ w', updateImportCounts env w = (w', Normal ()) →
    rels (store w') = rels (store w) ∧
    dom (nodes (store w')) = dom (nodes (store w)) ∧
    ∀ i n, nodes (store w') !! i = Some n →
      Node.importCount n = Some (Z.of_nat (out_degree (store w') i)) ∧
      Node.importedByCount n = Some (Z.of_nat (in_degree (store w') i)).
Proof.
  intros Hwf. split.
  { intros Hm Hs. eexists. by apply updateImportCounts_ok. }
  intros w' Hrun.
  destruct (updateImportCounts_normal_inv _ _ _ Hrun) as [Hm Hs].
  rewrite (updateImportCounts_ok _ _ Hm Hs) in Hrun. injection Hrun as <-.
  cbn [store].
  destruct (recount_spec (store w) (elements (dom (nodes (store w)))) (store w))
    as (Hr & Hd & _); [apply NoDup_elements|done..|].
  split; [done|]. split; [done|]. intros i n Hn.
  apply recount_all_degrees in Hn as [Ho Hi].
  destruct (rows_wf (store w) i Hwf) as [Eo Ei].
  unfold out_degree, in_degree in *. rewrite Hr. by rewrite <- Eo, <- Ei.
Qed.

Lemma updateImportCounts_degrees_witness :
  ∃ w', updateImportCounts quiet (world_of abcd) = (w', Normal ()) ∧
    degrees w' 0 = Some (Some 2, Some 0)%Z ∧
    degrees w' 1 = Some (Some 0, Some 2)%Z ∧
    degrees w' 2 = Some (Some 0, Some 1)%Z ∧
    degrees w' 3 = Some (Some 1, Some 0)%Z.
Proof.
  destruct (updateImportCounts_degrees quiet (world_of abcd)) as [Hruns Hafter].
  { unfold wf. apply (bool_decide_unpack _). by vm_compute. }
  destruct Hruns as [w' Hrun]; [reflexivity|intros i; reflexivity|].
  destruct (Hafter w' Hrun) as (Hr & Hd & Hc).
  exists w'. split; [exact Hrun|].
  assert (Hdeg : ∀ i, i ∈ dom (nodes abcd) →
    degrees w' i = Some (Some (Z.of_nat (out_degree abcd i)),
                         Some (Z.of_nat (in_degree abcd i)))).
  { intros i Hi. change (nodes abcd) with (nodes (store (world_of abcd))) in Hi.
    rewrite <- Hd in Hi. apply elem_of_dom in Hi as [n Hn].
    unfold degrees. rewrite Hn. simpl.
    destruct (Hc i n Hn) as [-> ->].
    unfold out_degree, in_degree. by rewrite Hr. }
  repeat split; rewrite Hdeg; try reflexivity; by vm_compute.
Defined.

(** ** Community detection *)

Lemma write_clusters_lookup louvain g st i :
  NoDup (g_nodes g) →
  nodes (write_clusters louvain g st) !! i =
    if decide (i ∈ g_nodes g)
    then Node.set_clusterId (louvain g i) <$> nodes st !! i
    else nodes st !! i.
Proof.
  unfold write_clusters. simpl. induction 1 as [|j ids Hj Hnd IH]; cbn [foldr].
  - by rewrite decide_False by apply not_elem_of_nil.
  - rewrite lookup_alter. destruct (decide (j = i)) as [->|Hji]; rewrite IH.
    + rewrite (decide_False (P := i ∈ ids)) by done.
      by rewrite (decide_True (P := i ∈ i :: ids)) by left.
    + destruct (decide (i ∈ ids)) as [Hi|Hi].
      * by rewrite decide_True by by right.
      * rewrite decide_False; [done|]. intros [->|?]%elem_of_cons; done.
Qed.

Lemma write_clusters_project louvain st i :
  nodes (write_clusters louvain (project st) st) !! i =
    Node.set_clusterId (louvain (project st) i) <$> nodes st !! i.
Proof.
  rewrite write_clusters_lookup by (simpl; apply NoDup_elements). simpl.
  case_decide as Hi; [done|].
  destruct (nodes st !! i) as [n|] eqn:E; [|done].
  exfalso. apply Hi, elem_of_elements, elem_of_dom. eauto.
Qed.

Lemma detectCommunities_ok env w :
  fault env GraphDrop = None → fault env GraphProject = None →
  fault env LouvainWrite = None →
  detectCommunities env w =
    (mkWorld (heap w)
       (write_clusters (louvain env) (project (store w)) (store w))
       (<[importsGraph := project (store w)]> (catalog w))
       (trace w ++ community_events), Normal ()).
Proof.
  intros Hd Hp Hl. unfold detectCommunities. apply executeWrite_normal.
  erewrite bind_normal; [|by rewrite request_ok by done].
  erewrite bind_normal.
  2:{ rewrite request_ok by done. unfold graph_project. simpl.
      by rewrite lookup_delete_eq. }
  rewrite request_ok by done. unfold louvain_write. simpl.
  rewrite lookup_insert_eq. unfold set_store, add_event. simpl.
  by rewrite insert_delete_eq, <- !app_assoc.
Qed.

Lemma detectCommunities_normal_inv env w w' :
  detectCommunities env w = (w', Normal ()) →
  fault env GraphDrop = None ∧ fault env GraphProject = None ∧
  fault env LouvainWrite = None.
Proof.
  unfold detectCommunities. intros H. apply executeWrite_normal_inv in H.
  apply bind_normal_inv in H as (w1 & [] & H1 & H).
  apply bind_normal_inv in H as (w2 & [] & H2 & H).
  apply request_normal_inv in H1 as [? _].
  apply request_normal_inv in H2 as [? _].
  apply request_normal_inv in H as [? _]. done.
Qed.

(** C7, as the code has it.  [detectCommunities] completes whenever the
    database serves its three calls, and a call that completes has sent
    them in order: the drop of 'importsGraph', which does not fail when
    there is no such projection; the undirected projection of every [File]
    node and every [IMPORTS] relationship of the database; Louvain, which
    writes [clusterId] onto every node in the database.  The projection is
    not dropped afterwards: the call ends with 'importsGraph' in the
    catalog, whether or not it was there before, and the next call drops
    it first. *)
Theorem detectCommunities_cycle env w :
  (fault env GraphDrop = None → fault env GraphProject = None →
   fault env LouvainWrite = None →
   ∃ w', detectCommunities env w = (w', Normal ())) ∧
  ∀ w', detectCommunities env w = (w', Normal ()) →
    trace w' = trace w ++ [Sent GraphDrop; Sent GraphProject; Sent LouvainWrite] ∧
    g_undirected (project (store w)) = true ∧
    g_nodes (project (store w)) = elements (dom (nodes (store w))) ∧
    (wf (store w) → g_rels (project (store w)) = rels (store w)) ∧
    rels (store w') = rels (store w) ∧
    (∀ i, nodes (store w') !! i =
            Node.set_clusterId (louvain env (project (store w)) i)
              <$> nodes (store w) !! i) ∧
    catalog w' !! importsGraph = Some (project (store w)).
Proof.
  split.
  { intros Hd Hp Hl. eexists. by apply detectCommunities_ok. }
  intros w' Hrun.
  destruct (detectCommunities_normal_inv _ _ _ Hrun) as (Hd & Hp & Hl).
  rewrite (detectCommunities_ok _ _ Hd Hp Hl) in Hrun. injection Hrun as <-.
  cbn [trace store catalog].
  split; [done|]. split; [done|]. split; [done|].
  split.
  { unfold wf. intros Hwf. simpl. induction Hwf as [|r rs Hr _ IH]; [done|].
    rewrite filter_cons. by rewrite decide_True, IH. }
  split; [done|]. split; [apply write_clusters_project|].
  apply lookup_insert_eq.
Qed.

Lemma detectCommunities_cycle_witness :
  ∃ w', detectCommunities quiet (world_of abcd) = (w', Normal ()) ∧
        catalog w' !! importsGraph = Some (project abcd) ∧
        Node.clusterId <$> nodes (store w') !! 3 = Some (Some 3%Z).
Proof.
  destruct (detectCommunities_cycle quiet (world_of abcd)) as [Hruns Hafter].
  destruct Hruns as [w' Hrun]; [reflexivity..|].
  destruct (Hafter w' Hrun) as (_ & _ & _ & _ & _ & Hn & Hc).
  exists w'. split; [exact Hrun|]. split; [exact Hc|].
  rewrite Hn. reflexivity.
Defined.

(** C7 as stated fails at its last step: after a call on a database with
    an empty catalog, the projection is in the catalog. *)
Lemma detectCommunities_leaves_projection :
  ∃ w', detectCommunities quiet (world_of abcd) = (w', Normal ()) ∧
        catalog (world_of abcd) !! importsGraph = None ∧
        catalog w' !! importsGraph ≠ None.
Proof.
  eexists. split; [by apply detectCommunities_ok|].
  split; [done|]. simpl. by rewrite lookup_insert_eq.
Qed.

(** ** The two analysis steps reach every node *)

Lemma analysis_all_nodes env w w1 w2 :
  updateImportCounts env w = (w1, Normal ()) →
  detectCommunities env w1 = (w2, Normal ()) →
  dom (nodes (store w2)) = dom (nodes (store w)) ∧
  ∃ g, catalog w2 !! importsGraph = Some g ∧
  ∀ i n, nodes (store w2) !! i = Some n →
    Node.importCount n = Some (Z.of_nat (length (out_rows (store w2) i))) ∧
    Node.importedByCount n = Some (Z.of_nat (length (in_rows (store w2) i))) ∧
    Node.clusterId n = Some (louvain env g i).
Proof.
  intros H1 H2.
  destruct (updateImportCounts_normal_inv _ _ _ H1) as [Hm Hs].
  rewrite (updateImportCounts_ok _ _ Hm Hs) in H1. injection H1 as <-.
  destruct (detectCommunities_normal_inv _ _ _ H2) as (Hd & Hp & Hl).
  rewrite (detectCommunities_ok _ _ Hd Hp Hl) in H2. injection H2 as <-.
  cbn [store catalog].
  set (st := store w). set (st1 := recount (elements (dom (nodes st))) st).
  destruct (recount_spec st (elements (dom (nodes st))) st)
    as (Hr & Hdom & _); [apply NoDup_elements|done..|]. fold st1 in Hr, Hdom.
  assert (Hdom2 : dom (nodes (write_clusters (louvain env) (project st1) st1))
                  = dom (nodes st)).
  { rewrite <- Hdom. apply set_eq. intros j. rewrite !elem_of_dom.
    rewrite write_clusters_project. by rewrite fmap_is_Some. }
  split; [done|].
  eexists. split; [apply lookup_insert_eq|].
  intros i n. rewrite write_clusters_project.
  destruct (nodes st1 !! i) as [n1|] eqn:E1; [|done]. intros [= <-].
  destruct (recount_all_degrees st i n1 E1) as [Ho Hi].
  by destruct (rows_same_shape st (write_clusters (louvain env) (project st1) st1) i)
    as [-> ->].
Qed.

(** The steps of a run remove no node. *)
Lemma import_steps_keep_nodes env records projectUuid w w' :
  import_steps env records projectUuid w = (w', Normal ()) →
  grows (nodes (store w)) (nodes (store w')).
Proof.
  unfold import_steps. intros H.
  apply bind_normal_inv in H as (w1 & [] & Hc & H).
  apply ensureConstraint_normal_inv in Hc as (Hc & _ & _).
  apply bind_normal_inv in H as (w2 & [] & Hn & H).
  apply executeWrite_normal_inv, send_normal_inv in Hn as (s2 & Hn & E2 & _).
  apply upsertNodes_grows in Hn as [Hn _]. rewrite Hc, <- E2 in Hn.
  apply bind_normal_inv in H as (w3 & [] & He & H).
  assert (Hg3 : grows (nodes (store w2)) (nodes (store w3))).
  { destruct (relPairs records) as [|pr pairs].
    - injection He as <-. apply grows_refl.
    - apply executeWrite_normal_inv, send_normal_inv in He as (s3 & He & E3 & _).
      apply merge_imports_grows in He. by rewrite E3. }
  apply bind_normal_inv in H as (w4 & [] & Hlog & H). injection Hlog as <-.
  apply bind_normal_inv in H as (w5 & [] & Hcount & H).
  apply bind_normal_inv in H as (w6 & [] & Hdetect & H).
  injection H as <-.
  destruct (analysis_all_nodes env _ w5 w6 Hcount Hdetect) as [Hdom _].
  simpl in Hdom. intros i Hi. cbn [store add_event].
  apply elem_of_dom. rewrite Hdom. apply elem_of_dom. by apply Hg3, Hn.
Qed.

(** C10.  The two analysis steps of [importRepo] take no project scope.
    When the steps of one run complete, every node that was in the
    database is still there, and every [File] node in the database,
    whatever its [projectUuid], carries the degrees counted by this run
    and the [clusterId] that this run's Louvain pass gave it. *)
Theorem import_steps_reach_every_project env records projectUuid w w' :
  import_steps env records projectUuid w = (w', Normal ()) →
  (∀ i, is_Some (nodes (store w) !! i) → is_Some (nodes (store w') !! i)) ∧
  ∃ g, catalog w' !! importsGraph = Some g ∧
  ∀ i n, nodes (store w') !! i = Some n →
    Node.importCount n = Some (Z.of_nat (length (out_rows (store w') i))) ∧
    Node.importedByCount n = Some (Z.of_nat (length (in_rows (store w') i))) ∧
    Node.clusterId n = Some (louvain env g i).
Proof.
  intros H. split; [by eapply import_steps_keep_nodes|].
  revert H. unfold import_steps. intros H.
  apply bind_normal_inv in H as (w1 & [] & _ & H).
  apply bind_normal_inv in H as (w2 & [] & _ & H).
  apply bind_normal_inv in H as (w3 & [] & _ & H).
  apply bind_normal_inv in H as (w4 & [] & _ & H).
  apply bind_normal_inv in H as (w5 & [] & Hcount & H).
  apply bind_normal_inv in H as (w6 & [] & Hdetect & H).
  injection H as <-.
  by destruct (analysis_all_nodes env w4 w5 w6 Hcount Hdetect) as [_ Hall].
Qed.

Lemma import_steps_reach_every_project_witness :
  ∃ w' n,
    import_steps quiet [x_js "2-bbbbbbb"; y_js "2-ccccccc"] "P2"
      (world_of legacy) = (w', Normal ()) ∧
    nodes (store w') !! 0 = Some n ∧
    Node.projectUuid n = Some "P1"%string ∧
    Node.importCount n = Some 0%Z ∧
    Node.importedByCount n = Some 0%Z ∧
    Node.clusterId n = Some 0%Z.
Proof.
  eexists _, _.
  split; [vm_compute; reflexivity|].
  split; [vm_compute; reflexivity|].
  split; [reflexivity|].
  edestruct (import_steps_reach_every_project quiet
               [x_js "2-bbbbbbb"; y_js "2-ccccccc"] "P2" (world_of legacy))
    as (_ & g & Hg & Hall); [vm_compute; reflexivity|].
  edestruct (Hall 0) as (Ho & Hi & Hc); [vm_compute; reflexivity|].
  split; [rewrite Ho; by vm_compute|].
  split; [rewrite Hi; by vm_compute|].
  rewrite Hc. reflexivity.
Defined.

(** ** How [importRepo] ends *)

Lemma stays_ret {A} (a : A) : stays (mret a : Js A).
Proof. intros w w' c. done. Qed.

Lemma stays_emit e : stays (emit e).
Proof. intros w w' c. done. Qed.

Lemma stays_throw {A} e : stays (throw e : Js A).
Proof. intros w w' c. done. Qed.

Lemma stays_bind {A B} (m : Js A) (k : A → Js B) :
  stays m → (∀ a, stays (k a)) → stays (m ≫= k).
Proof.
  intros Hm Hk w w' c. unfold mbind, Js_bind.
  destruct (m w) as [w1 [a|e|c1]] eqn:E; [apply Hk|done|].
  by destruct (Hm w w1 c1).
Qed.

Lemma stays_statement f : stays (statement f).
Proof. intros w w' c. unfold statement. by destruct (f (store w)). Qed.

Lemma stays_request env r body : stays body → stays (request env r body).
Proof.
  intros Hb. unfold request. apply stays_bind; [apply stays_emit|].
  intros _. destruct (fault env r); [apply stays_throw|done].
Qed.

Lemma stays_executeWrite {A} (body : Js A) : stays body → stays (executeWrite body).
Proof.
  intros Hb w w' c. unfold executeWrite.
  destruct (body w) as [w1 [a|e|c1]] eqn:E; [done..|]. by destruct (Hb w w1 c1).
Qed.

Lemma stays_try_catch {A} (body : Js A) handler :
  stays body → (∀ e, stays (handler e)) → stays (try_catch body handler).
Proof.
  intros Hb Hh w w' c. unfold try_catch.
  destruct (body w) as [w1 [a|e|c1]] eqn:E; [done|apply Hh|].
  by destruct (Hb w w1 c1).
Qed.

Lemma stays_try_finally {A} (body : Js A) fin :
  stays body → stays fin → stays (try_finally body fin).
Proof.
  intros Hb Hf w w' c. unfold try_finally.
  destruct (body w) as [w1 [a|e|c1]] eqn:E.
  - destruct (fin w1) as [w2 [[]|e|c2]] eqn:E2; [done..|].
    by destruct (Hf w1 w2 c2).
  - destruct (fin w1) as [w2 [[]|e2|c2]] eqn:E2; [done..|].
    by destruct (Hf w1 w2 c2).
  - by destruct (Hb w w1 c1).
Qed.

Create HintDb stays.
#[local] Hint Resolve stays_ret stays_emit stays_throw stays_statement
  stays_request stays_executeWrite : stays.

Lemma stays_update_each env files : stays (update_each env files).
Proof.
  induction files as [|[i p] files IH]; [apply stays_ret|].
  cbn [update_each]. apply stays_bind; [unfold send; auto with stays|].
  intros _. apply stays_bind; [auto with stays|]. by intros _.
Qed.

Lemma stays_ensureConstraint env : stays (ensureConstraint env).
Proof.
  unfold ensureConstraint, session_close, send.
  apply stays_bind; [auto with stays|intros _].
  apply stays_try_finally.
  - apply stays_executeWrite, stays_bind; auto with stays.
  - apply stays_bind; auto with stays.
Qed.

Lemma stays_updateImportCounts env : stays (updateImportCounts env).
Proof.
  unfold updateImportCounts.
  apply stays_bind; [auto with stays|intros _].
  apply stays_bind; [by intros ???|intros st].
  apply stays_bind; [auto with stays|intros _].
  apply stays_bind; [apply stays_update_each|intros _]. auto with stays.
Qed.

Lemma stays_detectCommunities env : stays (detectCommunities env).
Proof.
  unfold detectCommunities. apply stays_executeWrite.
  apply stays_bind; [apply stays_request; by intros ???|intros _].
  apply stays_bind; [apply stays_request|intros _; apply stays_request].
  - intros w w' c. unfold graph_project. by destruct (catalog w !! _).
  - intros w w' c. unfold louvain_write. by destruct (catalog w !! _).
Qed.

Lemma stays_import_steps env records projectUuid :
  stays (import_steps env records projectUuid).
Proof.
  unfold import_steps, send.
  apply stays_bind; [apply stays_ensureConstraint|intros _].
  apply stays_bind; [auto with stays|intros _].
  apply stays_bind; [destruct (relPairs records); auto with stays|intros _].
  apply stays_bind; [auto with stays|intros _].
  apply stays_bind; [apply stays_updateImportCounts|intros _].
  apply stays_bind; [apply stays_detectCommunities|intros _].
  auto with stays.
Qed.

(** On a non-empty array, whatever the steps did, [importRepo] ends in
    [process.exit(0)] as soon as the session closes. *)
Lemma importRepo_exit_zero env elems projectUuid w :
  elems ≠ [] → fault env SessionClose = None →
  ∃ w', importRepo env (JsArray elems) projectUuid w = (w', Exit 0).
Proof.
  intros Hne Hclose. unfold importRepo.
  destruct elems as [|f rest]; [done|].
  erewrite bind_normal; [|reflexivity].
  destruct (normalize env 0 (f :: rest) (heap w)) as [h' files].
  erewrite bind_normal; [|reflexivity].
  erewrite bind_normal; [|apply emit_run].
  set (body := try_catch _ _). set (w0 := add_event _ _).
  assert (Hbody : stays body).
  { apply stays_try_catch; [apply stays_import_steps|].
    intros e. repeat (apply stays_bind; [auto with stays|intros ?]).
    apply stays_throw. }
  unfold try_finally. destruct (body w0) as [w1 [[]|e|c]] eqn:E.
  - erewrite bind_normal;
      [|unfold session_close; by rewrite request_ok by done]. eauto.
  - erewrite bind_normal;
      [|unfold session_close; by rewrite request_ok by done]. eauto.
  - by destruct (Hbody w0 w1 c).
Qed.

(** C2.  A run in which the database refuses the first statement: the
    error is caught, logged and thrown again, and then the [finally] block
    ends the process with status 0.  Nothing was imported.  The same holds
    from the entry point of the script. *)
Theorem importRepo_store_error_exits_zero :
  let argv := ["node"; "importToNeo4j.js"; "repo.json"; "proj1"]%string in
  let run := importRepo unreachable (JsArray [0; 1]) "proj1" two_files in
  run.2 = Exit 0 ∧
  trace run.1 =
    [SessionOpened; SessionOpened; Sent CreatePathConstraint;
     Sent CreateIdConstraint; Log "closing session1"; Sent SessionClose;
     Sent MergeFiles; LogError "closing session2" None;
     LogError "Error importing repo:"
       (Some (ServiceUnavailable "Connection refused"));
     Sent SessionClose] ∧
  nodes (store run.1) = ∅ ∧
  (main unreachable argv (Ok (JsArray [0; 1])) two_files).2 = Exit 0.
Proof. repeat split; vm_compute; reflexivity. Qed.

(** ** Normalisation *)

Lemma append_cons c s t : String c s +:+ t = String c (s +:+ t).
Proof. done. Qed.

Lemma append_nil_l s : "" +:+ s = s.
Proof. done. Qed.

Lemma append_assoc (s t u : string) : (s +:+ t) +:+ u = s +:+ (t +:+ u).
Proof.
  induction s as [|c s IH]; [done|]. by rewrite !append_cons, IH.
Qed.

Lemma dash_free_app s t : dash_free s → dash_free t → dash_free (s +:+ t).
Proof.
  induction s as [|c s IH]; [done|]. intros [Hc Hs] Ht.
  rewrite append_cons. split; [done|]. by apply IH.
Qed.

Lemma pretty_N_char_no_dash x : pretty_N_char x ≠ "-"%char.
Proof. unfold pretty_N_char. by repeat case_match. Qed.

Lemma pretty_N_go_dash_free x s :
  ∃ d, pretty_N_go x s = d +:+ s ∧ dash_free d.
Proof.
  revert s. induction (N.lt_wf_0 x) as [x _ IH]; intros s.
  destruct (decide (x = 0)) as [->|Hx].
  - exists ""%string. by rewrite pretty_N_go_0.
  - rewrite pretty_N_go_step by lia.
    destruct (IH (x `div` 10)) with (s := String (pretty_N_char (x `mod` 10)) s)
      as (d & -> & Hd); [apply N.div_lt; lia|].
    exists (d +:+ String (pretty_N_char (x `mod` 10)) ""). split.
    + by rewrite append_assoc.
    + apply dash_free_app; [done|]. split; [apply pretty_N_char_no_dash|done].
Qed.

Lemma pretty_N_dash_free (x : N) : dash_free (pretty x).
Proof.
  unfold pretty, pretty_N. case_decide; [by split|].
  destruct (pretty_N_go_dash_free x "") as (d & -> & Hd).
  by apply dash_free_app.
Qed.

Lemma split_at_dash d1 d2 s1 s2 :
  dash_free d1 → dash_free d2 →
  d1 +:+ "-" +:+ s1 = d2 +:+ "-" +:+ s2 → d1 = d2 ∧ s1 = s2.
Proof.
  revert d2. induction d1 as [|c1 d1 IH]; intros [|c2 d2] H1 H2;
    rewrite ?append_cons, ?append_nil_l.
  - by intros [= ->].
  - destruct H2 as [Hc _]. rewrite ?append_cons. by intros [= <- _].
  - destruct H1 as [Hc _]. rewrite ?append_cons. by intros [= -> _].
  - destruct H1 as [_ H1], H2 as [_ H2]. intros [= -> H].
    destruct (IH d2 H1 H2 H) as [-> ->]. done.
Qed.

(** Two generated ids are equal only if both draws are. *)
Lemma fresh_id_inj env j k :
  fresh_id env j = fresh_id env k →
  date_now env j = date_now env k ∧ suffix env j = suffix env k.
Proof.
  unfold fresh_id. intros H.
  apply split_at_dash in H as [H1 H2]; [|apply pretty_N_dash_free..].
  split; [by apply (inj pretty)|done].
Qed.

Lemma normalize_one_other env k f h r :
  r ≠ f → normalize_one env k f h r = h r.
Proof.
  intros Hr. unfold normalize_one, heap_set. rewrite decide_False by done.
  destruct (falsy _); [by rewrite decide_False|done].
Qed.

Lemma normalize_one_self env k f h :
  normalize_one env k f h f = normalized env k (h f).
Proof.
  unfold normalize_one, normalized, heap_set. rewrite decide_True by done.
  f_equal. destruct (h f) as [p n l [d|] e i x] eqn:E; simpl.
  - destruct (bool_decide_reflect (d = ""%string)) as [->|_].
    + by rewrite decide_True.
    + by rewrite E.
  - by rewrite decide_True.
Qed.

Lemma normalize_spec env files : ∀ k h,
  (normalize env k files h).2 = files ∧
  (∀ r, r ∉ files → (normalize env k files h).1 r = h r) ∧
  (NoDup files → ∀ j f, files !! j = Some f →
     (normalize env k files h).1 f = normalized env (k + j) (h f)).
Proof.
  induction files as [|f rest IH]; intros k h; [done|].
  cbn [normalize].
  destruct (IH (S k) (normalize_one env k f h)) as (Hout & Hfar & Hat).
  destruct (normalize env (S k) rest (normalize_one env k f h)) as [h' out].
  simpl in *. split; [by rewrite Hout|]. split.
  - intros r Hr. rewrite Hfar by (intros ?; apply Hr; by right).
    apply normalize_one_other. intros ->. apply Hr. left.
  - intros Hnd j f' Hj. apply NoDup_cons in Hnd as [Hf Hnd].
    destruct j as [|j]; simpl in Hj.
    + injection Hj as <-. rewrite Hfar by done. rewrite Nat.add_0_r.
      apply normalize_one_self.
    + rewrite (Hat Hnd j f' Hj). rewrite normalize_one_other.
      * f_equal. lia.
      * intros ->. apply Hf. by eapply list_elem_of_lookup_2.
Qed.

(** C6, as the code has it.  Over an array of distinct records,
    normalisation returns the references it was given, in the same order;
    it writes into the records themselves: each one gets a description
    that is not null (the empty string when it had none) and an id made
    of the clock and of a random suffix, its other properties and all
    other objects being left as they were; two of the ids differ whenever
    the clock or the suffix differed between the two calls. *)
Theorem normalize_in_place env files h :
  NoDup files →
  let '(h', out) := normalize env 0 files h in
  out = files ∧
  (∀ j f, files !! j = Some f →
     h' f = normalized env j (h f) ∧ File.description (h' f) ≠ None) ∧
  (∀ r, r ∉ files → h' r = h r) ∧
  (∀ j j' f f', files !! j = Some f → files !! j' = Some f' →
     date_now env j ≠ date_now env j' ∨ suffix env j ≠ suffix env j' →
     File.id (h' f) ≠ File.id (h' f')).
Proof.
  intros Hnd. destruct (normalize_spec env files 0 h) as (Hout & Hfar & Hat).
  destruct (normalize env 0 files h) as [h' out]. simpl in *.
  specialize (Hat Hnd).
  split; [done|]. split; [|split; [done|]].
  - intros j f Hj. rewrite (Hat j f Hj). done.
  - intros j j' f f' Hj Hj' Hdraw. rewrite (Hat j f Hj), (Hat j' f' Hj').
    simpl. intros [= Heq]. apply fresh_id_inj in Heq as [? ?].
    destruct Hdraw; done.
Qed.

Lemma normalize_in_place_witness :
  let h := heap two_files in
  let '(h', out) := normalize quiet 0 [0; 1] h in
  out = [0; 1] ∧
  (∀ j f, [0; 1] !! j = Some f →
     h' f = normalized quiet j (h f) ∧ File.description (h' f) ≠ None) ∧
  (∀ r, r ∉ [0; 1] → h' r = h r) ∧
  (∀ j j' f f', [0; 1] !! j = Some f → [0; 1] !! j' = Some f' →
     date_now quiet j ≠ date_now quiet j' ∨ suffix quiet j ≠ suffix quiet j' →
     File.id (h' f) ≠ File.id (h' f')).
Proof.
  apply (normalize_in_place quiet [0; 1] (heap two_files)).
  apply (bool_decide_unpack _). by vm_compute.
Defined.

(** C6 as stated fails twice: the record that was passed in is no longer
    what it was, and two records can be given the same id. *)
Lemma normalize_mutates_and_repeats_ids :
  let h := heap two_files in
  let '(h', out) := normalize stuck 0 [0; 1] h in
  h' 0 ≠ h 0 ∧
  File.id (h' 0) = Some "1700000000000-4fzyo82"%string ∧
  File.id (h' 1) = Some "1700000000000-4fzyo82"%string.
Proof. vm_compute. split; [discriminate|done]. Qed.

(** ** Numeric conversion *)


Section rounding.
Local Open Scope Z_scope.







End rounding.


Lemma convert_no_integer v : all_integers (λ _, False) (convertNeo4jValue v).
Proof.
  induction v as [| | | | |items IH| |props IH] using JsValue_ind;
    simpl; try done.
  - induction IH as [|x l Hx _ IHl]; simpl; [done|]. by split.
  - induction IH as [|[k x] l Hx _ IHl]; simpl; [done|].
    destruct (decide (k = "__proto__"%string)); simpl; [done|]. by split.
Qed.

Lemma convert_no_proto v : no_proto (convertNeo4jValue v).
Proof.
  induction v as [| | | | |items IH| |props IH] using JsValue_ind;
    simpl; try done.
  - induction IH as [|x l Hx _ IHl]; simpl; [done|]. by split.
  - induction IH as [|[k x] l Hx _ IHl]; simpl; [done|].
    destruct (decide (k = "__proto__"%string)); simpl; [done|]. by split.
Qed.






(** * Further properties of the two scripts *)

(** ** Uniqueness of paths and ids *)

Lemma omap_NoDup_inj {A B} (f : A → option B) (l : list A) a b x x' y :
  NoDup (omap f l) → l !! a = Some x → l !! b = Some x' →
  f x = Some y → f x' = Some y → a = b.
Proof.
  revert a b. induction l as [|e l IH]; intros a b Hnd Ha Hb Hy Hy'; [done|].
  assert (Hin : ∀ c z, l !! c = Some z → f z = Some y → y ∈ omap f l).
  { intros c z Hc Hz. apply list_elem_of_omap. exists z.
    split; [by eapply list_elem_of_lookup_2|done]. }
  cbn [omap list_omap] in Hnd.
  destruct a as [|a], b as [|b]; simpl in Ha, Hb; [done| | |].
  - injection Ha as ->. rewrite Hy in Hnd. apply NoDup_cons in Hnd as [Hnot _].
    destruct Hnot. by apply (Hin b x').
  - injection Hb as ->. rewrite Hy' in Hnd.
    apply NoDup_cons in Hnd as [Hnot _].
    destruct Hnot. by apply (Hin a x).
  - f_equal. apply IH; [|done..].
    destruct (f e); [by apply NoDup_cons in Hnd as [_ ?]|done].
Qed.

Lemma create_unique_holds (key : Node.t → option string) (st : Store) :
  NoDup (omap key (map_to_list (nodes st)).*2) →
  ∀ i j n n' x, nodes st !! i = Some n → nodes st !! j = Some n' →
    key n = Some x → key n' = Some x → i = j.
Proof.
  intros Hnd i j n n' x Hi Hj Hn Hn'.
  apply elem_of_map_to_list in Hi, Hj.
  apply list_elem_of_lookup_1 in Hi as [a Ha], Hj as [b Hb].
  assert (a = b) as ->.
  { apply (omap_NoDup_inj key _ a b n n' x Hnd); [| |done..].
    - by rewrite list_lookup_fmap, Ha.
    - by rewrite list_lookup_fmap, Hb. }
  rewrite Ha in Hb. by injection Hb.
Qed.

Lemma unique_paths_same (m m' : gmap N Node.t) :
  Node.path <$> m = Node.path <$> m' → unique_paths m → unique_paths m'.
Proof.
  intros Heq Hu i j n n' p Hi Hj Hn Hn'.
  assert (Hl : ∀ k v, m' !! k = Some v → ∃ v0, m !! k = Some v0 ∧
                       Node.path v0 = Node.path v).
  { intros k v Hk.
    assert (E : Node.path <$> m !! k = Node.path <$> m' !! k)
      by (rewrite <- !lookup_fmap; by rewrite Heq).
    rewrite Hk in E. destruct (m !! k) as [v0|]; [|done].
    exists v0. split; [done|]. by injection E. }
  destruct (Hl i n Hi) as (n0 & Hi0 & E0), (Hl j n' Hj) as (n0' & Hj0 & E0').
  apply (Hu i j n0 n0' p); congruence.
Qed.

Lemma unique_ids_same (m m' : gmap N Node.t) :
  Node.id <$> m = Node.id <$> m' → unique_ids m → unique_ids m'.
Proof.
  intros Heq Hu i j n n' p Hi Hj Hn Hn'.
  assert (Hl : ∀ k v, m' !! k = Some v → ∃ v0, m !! k = Some v0 ∧
                       Node.id v0 = Node.id v).
  { intros k v Hk.
    assert (E : Node.id <$> m !! k = Node.id <$> m' !! k)
      by (rewrite <- !lookup_fmap; by rewrite Heq).
    rewrite Hk in E. destruct (m !! k) as [v0|]; [|done].
    exists v0. split; [done|]. by injection E. }
  destruct (Hl i n Hi) as (n0 & Hi0 & E0), (Hl j n' Hj) as (n0' & Hj0 & E0').
  apply (Hu i j n0 n0' p); congruence.
Qed.

Lemma ids_alter_all (f : Node.t → Node.t) (m : gmap N Node.t) hits :
  keeps_id f → Node.id <$> foldr (alter f) m hits = Node.id <$> m.
Proof.
  intros Hf. induction hits as [|j hits IH]; simpl; [done|].
  rewrite <- IH. apply map_eq. intros i. rewrite !lookup_fmap, lookup_alter.
  case_decide; [subst|done].
  destruct (foldr (alter f) m hits !! i); simpl; [|done]. by rewrite Hf.
Qed.

(** A [MERGE] creates a node only under a path that has none, and the new
    node has no id: uniqueness of both is kept. *)
Lemma merge_file_unique p oc om (m m' : gmap N Node.t) bs :
  keeps_path oc → keeps_path om → keeps_id oc → keeps_id om →
  merge_file p oc om m = (m', bs) →
  (unique_paths m → unique_paths m') ∧ (unique_ids m → unique_ids m').
Proof.
  intros Hpc Hpm Hic Him H.
  apply merge_file_cases in H as [(E & -> & ->)|(E & -> & ->)].
  - split.
    + intros Hu i j n n' q Hi Hj Hn Hn'.
      apply lookup_insert_Some in Hi as [[<- <-]|[Hi1 Hi]];
        apply lookup_insert_Some in Hj as [[<- <-]|[Hj1 Hj]]; try done.
      * rewrite Hpc in Hn. simpl in Hn. injection Hn as <-.
        assert (Hin : j ∈ matching p m) by (apply elem_of_matching; eauto).
        rewrite E in Hin. by apply elem_of_nil in Hin.
      * rewrite Hpc in Hn'. simpl in Hn'. injection Hn' as <-.
        assert (Hin : i ∈ matching p m) by (apply elem_of_matching; eauto).
        rewrite E in Hin. by apply elem_of_nil in Hin.
      * by apply (Hu i j n n' q).
    + intros Hu i j n n' x Hi Hj Hn Hn'.
      apply lookup_insert_Some in Hi as [[<- <-]|[Hi1 Hi]];
        apply lookup_insert_Some in Hj as [[<- <-]|[Hj1 Hj]]; try done.
      * by rewrite Hic in Hn.
      * by rewrite Hic in Hn'.
      * by apply (Hu i j n n' x).
  - split.
    + apply unique_paths_same. symmetry. by apply paths_alter_all.
    + apply unique_ids_same. symmetry. by apply ids_alter_all.
Qed.

Lemma keeps_unique_refl a : keeps_unique a a.
Proof. by repeat split. Qed.

Lemma keeps_unique_trans a b c :
  keeps_unique a b → keeps_unique b c → keeps_unique a c.
Proof.
  intros (Hp & Hi & Hup & Hui) (Hp' & Hi' & Hup' & Hui').
  split; [congruence|]. split; [congruence|]. split; [by auto|].
  intros Hflag Hu. apply Hui'; [congruence|by apply Hui].
Qed.

Lemma keeps_unique_nodes (m : gmap N Node.t) st :
  (unique_paths (nodes st) → unique_paths m) →
  (unique_ids (nodes st) → unique_ids m) →
  keeps_unique st (set_nodes m st).
Proof. intros Hp Hi. repeat split; auto. Qed.

Lemma id_clash_false st i x :
  id_unique st = true → id_clash st i (Some x) = false →
  ∀ j n, nodes st !! j = Some n → j ≠ i → Node.id n ≠ Some x.
Proof.
  unfold id_clash. intros -> H j n Hj Hji Hn. simpl in H.
  apply bool_decide_eq_false in H. apply H. apply Exists_exists.
  exists (j, n). split; [by apply elem_of_map_to_list|done].
Qed.

Lemma set_one_unique file scope st i st' :
  set_one file scope st i = Ok st' → keeps_unique st st'.
Proof.
  unfold set_one. destruct (id_clash st i (File.id file)) eqn:Hclash; [done|].
  intros [= <-]. split; [done|]. split; [done|]. split.
  - apply unique_paths_same. symmetry.
    apply (paths_alter_all (set_file_props file scope) (nodes st) [i]). done.
  - intros Hflag Hu a b n n' x. cbn [nodes set_nodes]. rewrite !lookup_alter.
    intros Ha Hb Hn Hn'.
    destruct (decide (i = a)) as [Hia|Hia], (decide (i = b)) as [Hib|Hib];
      [congruence| | |by apply (Hu a b n n' x)].
    + subst a. destruct (nodes st !! i) as [n0|]; simplify_eq/=.
      destruct (File.id file) as [y|] eqn:Ey; simplify_eq/=.
      by destruct (id_clash_false st i x Hflag Hclash b n').
    + subst b. destruct (nodes st !! i) as [n0|]; simplify_eq/=.
      destruct (File.id file) as [y|] eqn:Ey; simplify_eq/=.
      by destruct (id_clash_false st i x Hflag Hclash a n).
Qed.

Lemma keeps_id_id : keeps_id (λ n, n).
Proof. done. Qed.

Lemma keeps_id_on_create scope : keeps_id (on_create_endpoint scope).
Proof. done. Qed.

Lemma keeps_id_on_match scope : keeps_id (on_match_endpoint scope).
Proof. done. Qed.

Lemma merge_file_keeps_unique p oc om st m bs :
  keeps_path oc → keeps_path om → keeps_id oc → keeps_id om →
  merge_file p oc om (nodes st) = (m, bs) →
  keeps_unique st (set_nodes m st).
Proof.
  intros Hpc Hpm Hic Him E.
  destruct (merge_file_unique _ _ _ _ _ _ Hpc Hpm Hic Him E) as [Hp Hi].
  by apply keeps_unique_nodes.
Qed.

Lemma node_row_unique scope st file st' :
  node_row scope st file = Ok st' → keeps_unique st st'.
Proof.
  unfold node_row. destruct (File.path file) as [p|]; [|done].
  destruct (merge_file p _ _ (nodes st)) as [m fs] eqn:E. intros H.
  apply (keeps_unique_trans _ (set_nodes m st)).
  - by apply (merge_file_keeps_unique p (λ n, n) (λ n, n) st m fs).
  - revert H. apply (foldM_rel _ keeps_unique).
    + apply keeps_unique_refl.
    + apply keeps_unique_trans.
    + intros a i a' _. apply set_one_unique.
Qed.

Lemma link_all_keeps_unique a bs st : keeps_unique st (link_all a bs st).
Proof.
  unfold keeps_unique. rewrite link_all_nodes.
  assert (H : path_unique (link_all a bs st) = path_unique st ∧
              id_unique (link_all a bs st) = id_unique st).
  { revert st. induction bs as [|b bs IH]; intros st; [done|].
    unfold link_all in *. simpl. by destruct (IH (set_rels (merge_rel a b (rels st)) st)). }
  destruct H. by repeat split.
Qed.

Lemma merge_target_unique scope t st a :
  keeps_unique st (merge_target scope t st a).
Proof.
  unfold merge_target.
  destruct (merge_file t _ _ (nodes st)) as [m bs] eqn:E.
  apply (keeps_unique_trans _ (set_nodes m st)); [|apply link_all_keeps_unique].
  by apply (merge_file_keeps_unique t (on_create_endpoint scope)
              (on_match_endpoint scope) st m bs).
Qed.

Lemma edge_row_unique scope st pr st' :
  edge_row scope st pr = Ok st' → keeps_unique st st'.
Proof.
  unfold edge_row. destruct (pr.1) as [f|]; [|done].
  destruct (merge_file f _ _ (nodes st)) as [m as_] eqn:E. intros [= <-].
  apply (keeps_unique_trans _ (set_nodes m st)).
  - by apply (merge_file_keeps_unique f (on_create_endpoint scope)
                (on_match_endpoint scope) st m as_).
  - generalize (set_nodes m st). clear E.
    induction as_ as [|a as_ IH]; intros cur; [apply keeps_unique_refl|].
    simpl. exact (keeps_unique_trans _ _ _ (merge_target_unique scope pr.2 cur a) (IH _)).
Qed.

Lemma upsertNodes_unique files scope st st' :
  upsertNodes files scope st = Ok st' → keeps_unique st st'.
Proof.
  apply (foldM_rel _ keeps_unique);
    [apply keeps_unique_refl|apply keeps_unique_trans|].
  intros a file a' _. apply node_row_unique.
Qed.

Lemma merge_imports_unique scope pairs st st' :
  merge_imports scope pairs st = Ok st' → keeps_unique st st'.
Proof.
  apply (foldM_rel _ keeps_unique);
    [apply keeps_unique_refl|apply keeps_unique_trans|].
  intros a pr a' _. apply edge_row_unique.
Qed.

Lemma upsertEdges_unique files scope st st' :
  upsertEdges files scope st = Ok st' → keeps_unique st st'.
Proof.
  unfold upsertEdges. destruct (relPairs files) as [|pr pairs].
  - intros [= <-]. apply keeps_unique_refl.
  - apply merge_imports_unique.
Qed.

(** X1.  The two upsert steps never put a second node under a path, and
    under the constraint on [id] never leave two nodes with one id: a
    database in which paths (and ids) are unique stays so through a
    completed node upsert and a completed edge upsert. *)
Theorem upserts_keep_unique files scope st s1 s2 :
  upsertNodes files scope st = Ok s1 →
  upsertEdges files scope s1 = Ok s2 →
  (unique_paths (nodes st) →
     unique_paths (nodes s1) ∧ unique_paths (nodes s2)) ∧
  (id_unique st = true → unique_ids (nodes st) →
     unique_ids (nodes s1) ∧ unique_ids (nodes s2)).
Proof.
  intros Hn He.
  destruct (upsertNodes_unique _ _ _ _ Hn) as (_ & Hf1 & Hp1 & Hi1).
  destruct (upsertEdges_unique _ _ _ _ He) as (_ & _ & Hp2 & Hi2).
  split.
  - intros Hu. split; auto.
  - intros Hflag Hu. split; [by auto|]. apply Hi2; [congruence|by auto].
Qed.

Lemma upserts_keep_unique_witness :
  let files := [x_js "2-bbbbbbb"; y_js "2-ccccccc"] in
  let st := mkStore ∅ [] true true in
  ∃ s1 s2, upsertNodes files "P" st = Ok s1 ∧
    upsertEdges files "P" s1 = Ok s2 ∧
    unique_paths (nodes s2) ∧ unique_ids (nodes s2).
Proof.
  intros files st. eexists _, _.
  split; [vm_compute; reflexivity|]. split; [vm_compute; reflexivity|].
  lazymatch goal with |- unique_paths (nodes ?s2) ∧ _ =>
    destruct (upserts_keep_unique files "P" st _ s2
                ltac:(vm_compute; reflexivity) ltac:(vm_compute; reflexivity))
      as [Hp Hi]
  end.
  split.
  - apply Hp. intros i j n n' p Hn. by vm_compute in Hn.
  - apply Hi; [done|]. intros i j n n' p Hn. by vm_compute in Hn.
Defined.

(** ** [ensureConstraint], however it ends *)

Lemma create_unique_true key flag st b :
  create_unique key flag st = Ok b →
  b = true ∧ (flag = true ∨ NoDup (omap key (map_to_list (nodes st)).*2)).
Proof.
  unfold create_unique. destruct flag; [intros [= <-]; auto|].
  case_bool_decide; [intros [= <-]; auto|done].
Qed.

Ltac ensure_cases env w :=
  destruct w as [h [nd rl pu iu] cat tr];
  cbv [ensureConstraint try_finally executeWrite send request statement
       session_close create_path_constraint create_id_constraint emit throw
       mbind Js_bind mret Js_ret result_bind
       store trace catalog heap add_event set_store
       nodes rels path_unique id_unique];
  destruct (fault env CreatePathConstraint);
  destruct (fault env CreateIdConstraint);
  destruct (fault env SessionClose);
  repeat match goal with
         | |- context [create_unique ?k ?f ?s] =>
             let E := fresh "Ec" in destruct (create_unique k f s) eqn:E
         end.

Lemma ensureConstraint_frame env w w' c :
  ensureConstraint env w = (w', c) →
  nodes (store w') = nodes (store w) ∧ rels (store w') = rels (store w) ∧
  catalog w' = catalog w ∧ heap w' = heap w ∧
  (store w' = store w ∨
   (path_unique (store w') = true ∧ id_unique (store w') = true)).
Proof.
  ensure_cases env w; intros [= <- <-];
    repeat match goal with
           | H : create_unique _ _ _ = Ok _ |- _ =>
               apply create_unique_true in H as [-> _]
           end;
    cbn [nodes rels path_unique id_unique store trace catalog heap];
    repeat (split; [done|]); first [ by left | by right ].
Qed.

(** X2.  [ensureConstraint] touches no node and no relationship, closes
    its session on every path (the last two events are the log line of the
    [finally] block and the close), and is all or nothing on the
    constraints: afterwards the database is as it was or both constraints
    exist. *)
Theorem ensureConstraint_any_outcome env w w' c :
  ensureConstraint env w = (w', c) →
  nodes (store w') = nodes (store w) ∧ rels (store w') = rels (store w) ∧
  catalog w' = catalog w ∧
  (∃ evs, trace w' = trace w ++ [SessionOpened] ++ evs ++
                     [Log "closing session1"; Sent SessionClose]) ∧
  (store w' = store w ∨
   (path_unique (store w') = true ∧ id_unique (store w') = true)).
Proof.
  ensure_cases env w; intros [= <- <-];
    repeat match goal with
           | H : create_unique _ _ _ = Ok _ |- _ =>
               apply create_unique_true in H as [-> _]
           end;
    cbn [nodes rels path_unique id_unique store trace catalog heap];
    (split; [done|]); (split; [done|]); (split; [done|]);
    (split; [|first [ by left | by right ]]);
    rewrite <- !app_assoc; cbn [app];
    lazymatch goal with
    | |- ∃ evs, ?t ++ SessionOpened :: ?l = _ =>
        let evs := eval cbv [removelast] in (removelast (removelast l)) in
        exists evs; reflexivity
    end.
Qed.

Lemma ensureConstraint_normal env w w' :
  ensureConstraint env w = (w', Normal ()) →
  path_unique (store w') = true ∧ id_unique (store w') = true ∧
  (path_unique (store w) = true ∨ unique_paths (nodes (store w))) ∧
  (id_unique (store w) = true ∨ unique_ids (nodes (store w))).
Proof.
  ensure_cases env w; intros [= <-];
    repeat match goal with
           | H : create_unique _ _ _ = Ok _ |- _ =>
               apply create_unique_true in H as [-> H]
           end;
    cbn [nodes rels path_unique id_unique store] in *.
  split; [done|]. split; [done|]. split.
  - destruct Ec as [?|Hnd]; [by left|right].
    intros i j n n' p.
    by apply (create_unique_holds Node.path (mkStore nd rl pu iu) Hnd).
  - destruct Ec0 as [?|Hnd]; [by left|right].
    intros i j n n' x.
    by apply (create_unique_holds Node.id (mkStore nd rl pu iu) Hnd).
Qed.

(** X3.  When [ensureConstraint] completes, both constraints exist; on a
    database in which the existing constraints hold, no two nodes then
    share a path or an id.  It completes only if paths (and ids) are
    unique or were already constrained, and a second call changes nothing
    in the database. *)
Theorem ensureConstraint_establishes env w w' :
  ensureConstraint env w = (w', Normal ()) →
  path_unique (store w') = true ∧ id_unique (store w') = true ∧
  (path_unique (store w) = true ∨ unique_paths (nodes (store w))) ∧
  (id_unique (store w) = true ∨ unique_ids (nodes (store w))) ∧
  (consistent (store w) →
     unique_paths (nodes (store w')) ∧ unique_ids (nodes (store w'))) ∧
  (∀ w'' c, ensureConstraint env w' = (w'', c) → store w'' = store w').
Proof.
  intros H. destruct (ensureConstraint_normal _ _ _ H) as (Hp & Hi & Hup & Hui).
  destruct (ensureConstraint_frame _ _ _ _ H) as (Hn & _).
  split; [done|]. split; [done|]. split; [done|]. split; [done|]. split.
  - intros [Hcp Hci]. rewrite Hn.
    split; [destruct Hup; auto|destruct Hui; auto].
  - intros w'' c H2.
    destruct (ensureConstraint_frame _ _ _ _ H2)
      as (Hn2 & Hr2 & _ & _ & [Hs|[Hp2 Hi2]]); [done|].
    destruct (store w''), (store w'). simpl in *. congruence.
Qed.

(** A database with two nodes under one path, and no constraint yet. *)
Lemma ensureConstraint_any_outcome_witness :
  let st := mkStore (list_to_map [(0, file_node "a.pl" "P1");
                                  (1, file_node "a.pl" "P2")]) [] false false in
  ∃ w', ensureConstraint quiet (world_of st) = (w', Throw ConstraintCreationFailed) ∧
        store w' = st ∧
        trace w' = [SessionOpened; Sent CreatePathConstraint;
                    Log "closing session1"; Sent SessionClose].
Proof.
  intros st. eexists. split; [vm_compute; reflexivity|].
  destruct (ensureConstraint_any_outcome quiet (world_of st) _ _ eq_refl)
    as (Hn & Hr & Hc & _ & Hs).
  split; [|by vm_compute].
  destruct Hs as [Hs|[Hp _]]; [exact Hs|by vm_compute in Hp].
Defined.

Lemma ensureConstraint_establishes_witness :
  ∃ w', ensureConstraint quiet (world_of empty_store) = (w', Normal ()) ∧
        path_unique (store w') = true ∧ id_unique (store w') = true.
Proof.
  eexists. split; [vm_compute; reflexivity|].
  destruct (ensureConstraint_establishes quiet (world_of empty_store) _ eq_refl)
    as (Hp & Hi & _).
  by split.
Defined.

(** ** The node upsert: last write wins *)

Lemma set_all_lookup file scope fs : ∀ st st' i,
  NoDup fs → foldM (set_one file scope) st fs = Ok st' →
  nodes st' !! i =
    if decide (i ∈ fs) then set_file_props file scope <$> nodes st !! i
    else nodes st !! i.
Proof.
  induction fs as [|j fs IH]; intros st st' i Hnd H.
  - injection H as <-. by rewrite decide_False by apply not_elem_of_nil.
  - apply NoDup_cons in Hnd as [Hj Hnd]. cbn [foldM] in H.
    destruct (set_one file scope st j) as [s1|] eqn:E1; [|done].
    change (foldM (set_one file scope) s1 fs = Ok st') in H.
    rewrite (IH s1 st' i Hnd H).
    unfold set_one in E1. destruct (id_clash _ _ _); [done|].
    injection E1 as <-. cbn [nodes set_nodes]. rewrite lookup_alter.
    destruct (decide (j = i)) as [->|Hji].
    + rewrite (decide_False (P := i ∈ fs)) by done.
      by rewrite (decide_True (P := i ∈ i :: fs)) by left.
    + destruct (decide (i ∈ fs)) as [Hi|Hi].
      * by rewrite decide_True by by right.
      * rewrite decide_False; [done|]. intros [->|?]%elem_of_cons; done.
Qed.

Lemma merge_plain_lookup p (m0 m : gmap N Node.t) fs i :
  merge_file p (λ n, n) (λ n, n) m0 = (m, fs) →
  (i ∈ fs → m !! i = Some (default (Node.blank p) (m0 !! i))) ∧
  (i ∉ fs → m !! i = m0 !! i).
Proof.
  intros H. apply merge_file_cases in H as [(E & -> & ->)|(E & -> & ->)].
  - split.
    + intros ->%list_elem_of_singleton.
      by rewrite lookup_insert_eq, fresh_node_None.
    + intros Hi. rewrite lookup_insert_ne; [done|]. intros <-. apply Hi. left.
  - rewrite lookup_alter_all by apply NoDup_matching. split.
    + intros Hi. rewrite decide_True by done.
      apply elem_of_matching in Hi as (n & -> & _). done.
    + intros Hi. by rewrite decide_False.
Qed.

(** What one row does to each node: nothing, or the [SET] clause. *)
Lemma node_row_effect scope st file st' q :
  node_row scope st file = Ok st' → File.path file = Some q →
  ∀ i, (nodes st' !! i = nodes st !! i ∧
        ∀ n, nodes st !! i = Some n → Node.path n ≠ Some q) ∨
       (nodes st' !! i =
          Some (set_file_props file scope
                  (default (Node.blank q) (nodes st !! i))) ∧
        ∀ n, nodes st !! i = Some n → Node.path n = Some q).
Proof.
  unfold node_row. intros H Hq. rewrite Hq in H.
  destruct (merge_file q _ _ (nodes st)) as [m fs] eqn:E. intros i.
  destruct (merge_file_bound _ _ _ _ _ _ keeps_path_id keeps_path_id E)
    as [Hfs _].
  assert (Hnd : NoDup fs) by (rewrite Hfs; apply NoDup_matching).
  rewrite (set_all_lookup _ _ _ _ _ i Hnd H). cbn [nodes set_nodes].
  destruct (merge_plain_lookup q _ _ _ i E) as [Hin Hout].
  assert (Hold : ∀ n, nodes st !! i = Some n → i ∉ fs → Node.path n ≠ Some q).
  { intros n Hn Hi Hp. apply Hi. rewrite Hfs. apply elem_of_matching.
    exists n. by rewrite (Hout Hi). }
  assert (Hnew : ∀ n, nodes st !! i = Some n → i ∈ fs → Node.path n = Some q).
  { intros n Hn Hi. rewrite Hfs in Hi.
    apply elem_of_matching in Hi as (n' & Hn' & Hp).
    rewrite (Hin ltac:(by rewrite Hfs; apply elem_of_matching; eauto)) in Hn'.
    rewrite Hn in Hn'. simpl in Hn'. congruence. }
  case_decide as Hi.
  - right. rewrite (Hin Hi). split; [done|]. intros n Hn. by apply Hnew.
  - left. rewrite (Hout Hi). split; [done|]. intros n Hn. by apply Hold.
Qed.

Lemma set_file_props_kept file scope x y :
  Node.path x = Node.path y → Node.importCount x = Node.importCount y →
  Node.importedByCount x = Node.importedByCount y →
  Node.clusterId x = Node.clusterId y →
  set_file_props file scope x = set_file_props file scope y.
Proof. unfold set_file_props. by intros -> -> -> ->. Qed.

Lemma last_record_cons f rest p :
  last_record (f :: rest) p =
    match last_record rest p with
    | Some file => Some file
    | None => if decide (File.path f = Some p) then Some f else None
    end.
Proof.
  unfold last_record. rewrite filter_cons.
  destruct (decide (File.path f = Some p)) as [Hf|Hf];
    [|by destruct (last _)].
  rewrite last_cons. by destruct (last _).
Qed.

Lemma last_record_None rest p :
  last_record rest p = None → ∀ file, file ∈ rest → File.path file ≠ Some p.
Proof.
  unfold last_record. intros H file Hfile Hp.
  assert (Hin : file ∈ filter (λ f, File.path f = Some p) rest)
    by by apply list_elem_of_filter.
  destruct (filter _ rest) as [|g l]; [by apply elem_of_nil in Hin|].
  by rewrite last_cons in H; destruct (last l).
Qed.

Lemma last_record_Some files p file :
  last_record files p = Some file → file ∈ files ∧ File.path file = Some p.
Proof.
  unfold last_record. intros H. apply last_Some in H as [l H].
  assert (Hin : file ∈ filter (λ f, File.path f = Some p) files)
    by (rewrite H; apply elem_of_app; right; left).
  apply list_elem_of_filter in Hin as [? ?]. done.
Qed.

Lemma upsertNodes_last files scope p file : ∀ st st',
  upsertNodes files scope st = Ok st' → last_record files p = Some file →
  ∀ i n', nodes st' !! i = Some n' → Node.path n' = Some p →
    n' = set_file_props file scope (default (Node.blank p) (nodes st !! i)).
Proof.
  induction files as [|f rest IH]; intros st st' H Hlast i n' Hn' Hp; [done|].
  cbn [upsertNodes foldM] in H.
  destruct (node_row scope st f) as [s1|] eqn:Hrow; [|done].
  change (upsertNodes rest scope s1 = Ok st') in H.
  rewrite last_record_cons in Hlast.
  destruct (node_row_spec _ _ _ _ Hrow) as (q & Hq & _ & Hhas & _).
  destruct (last_record rest p) as [file'|] eqn:Hrest.
  - injection Hlast as ->.
    rewrite (IH s1 st' H eq_refl i n' Hn' Hp).
    assert (Hpy : Node.path (default (Node.blank p) (nodes s1 !! i)) = Some p).
    { rewrite (IH s1 st' H eq_refl i n' Hn' Hp) in Hp. exact Hp. }
    destruct (node_row_effect _ _ _ _ q Hrow Hq i) as [[-> _]|[Hset Hold]]; [done|].
    rewrite Hset in Hpy |- *. simpl in Hpy |- *.
    destruct (nodes st !! i) as [n0|] eqn:E0; simpl in *.
    + by apply set_file_props_kept.
    + apply set_file_props_kept; simpl; congruence.
  - case_decide as Hf; [|done]. injection Hlast as ->.
    assert (q = p) as -> by congruence.
    destruct (upsertNodes_spec _ _ _ _ H) as [[Hext _] _].
    assert (Hi : i ∈ matching p (nodes s1)).
    { rewrite <- (Hext p Hhas). apply elem_of_matching. eauto. }
    apply elem_of_matching in Hi as (n1 & Hn1 & Hp1).
    assert (Hkeep : nodes st' !! i = Some n1).
    { apply (upsertNodes_frame rest scope s1 st' i n1 H Hn1).
      intros g Hg. rewrite Hp1. by apply (last_record_None rest p). }
    assert (n' = n1) as -> by congruence.
    destruct (node_row_effect _ _ _ _ p Hrow Hq i) as [[Hsame Hne]|[Hset _]].
    + rewrite Hsame in Hn1. by destruct (Hne n1).
    + congruence.
Qed.

(** X4.  The node upsert is last-write-wins.  After a completed node
    upsert, a path that some record has is the path of at least one node,
    and every node under it carries the [id], [name], [loc], [description]
    and [externalImports] of the last record with that path and the
    [projectUuid] of the batch, whatever it carried before; its
    [importCount], [importedByCount] and [clusterId] are those it had
    (none if the node is new). *)
Theorem upsertNodes_last_write_wins files scope st st' p file :
  upsertNodes files scope st = Ok st' → last_record files p = Some file →
  has_path (nodes st') p ∧
  ∀ i n', nodes st' !! i = Some n' → Node.path n' = Some p →
    let old := default (Node.blank p) (nodes st !! i) in
    n' = Node.mk (Some p) (File.id file) (File.name file) (File.loc file)
           (File.description file) (File.externalImports file) (Some scope)
           (Node.importCount old) (Node.importedByCount old)
           (Node.clusterId old).
Proof.
  intros H Hlast. split.
  - destruct (upsertNodes_spec _ _ _ _ H) as [_ Hall].
    destruct (last_record_Some _ _ _ Hlast) as [Hin Hp].
    destruct (Hall file Hin) as (p' & Hp' & Hhas). congruence.
  - intros i n' Hn' Hp old.
    pose proof (upsertNodes_last _ _ _ _ _ _ H Hlast i n' Hn' Hp) as E.
    rewrite E in Hp |- *. unfold set_file_props in *. simpl in Hp.
    fold old in Hp |- *. by rewrite Hp.
Qed.

Lemma upsertNodes_last_write_wins_witness :
  let files := [x_js "3-aaaaaaa"; y_js "3-bbbbbbb"; x_js "3-ccccccc"] in
  let st := mkStore {[0 := Node.mk (Some "x.js") (Some "1-zzzzzzz") None None
                            None None (Some "P1") (Some 4%Z) (Some 5%Z)
                            (Some 6%Z)]} [] true true in
  ∃ st', upsertNodes files "P2" st = Ok st' ∧
    nodes st' !! 0 =
      Some (Node.mk (Some "x.js") (Some "3-ccccccc") None None (Some "")
              (Some ["lodash"]) (Some "P2") (Some 4%Z) (Some 5%Z) (Some 6%Z)).
Proof.
  intros files st. eexists. split; [vm_compute; reflexivity|].
  lazymatch goal with |- nodes ?s !! 0 = _ =>
    destruct (upsertNodes_last_write_wins files "P2" st s "x.js"
                (x_js "3-ccccccc")) as [_ Hall];
      [vm_compute; reflexivity|vm_compute; reflexivity|]
  end.
  pose proof (Hall 0 _ ltac:(vm_compute; reflexivity) ltac:(reflexivity)) as E.
  vm_compute. vm_compute in E. exact (f_equal Some E).
Defined.

(** ** Records without a path *)

Lemma set_all_errors file scope fs : ∀ st e,
  foldM (set_one file scope) st fs = Err e → e = ConstraintValidationFailed.
Proof.
  induction fs as [|j fs IH]; intros st e H; [done|]. cbn [foldM] in H.
  destruct (set_one file scope st j) as [s1|e1] eqn:E1.
  - apply (IH s1 e H).
  - unfold set_one in E1. destruct (id_clash _ _ _); [|done].
    simpl in H. congruence.
Qed.

Lemma node_row_errors scope st file e :
  node_row scope st file = Err e →
  (File.path file = None ∧ e = MergeNullProperty) ∨
  e = ConstraintValidationFailed.
Proof.
  unfold node_row. destruct (File.path file) as [p|].
  - destruct (merge_file p _ _ (nodes st)) as [m fs]. intros H. right.
    by apply set_all_errors in H.
  - intros [= <-]. by left.
Qed.

Lemma upsertNodes_missing_path files scope : ∀ st,
  (∃ f, f ∈ files ∧ File.path f = None) →
  ∃ e, upsertNodes files scope st = Err e ∧
       (e = MergeNullProperty ∨ e = ConstraintValidationFailed).
Proof.
  induction files as [|f rest IH]; intros st (g & Hg & Hp).
  - by apply elem_of_nil in Hg.
  - cbn [upsertNodes foldM].
    destruct (node_row scope st f) as [s1|e] eqn:Hrow.
    + apply (IH s1). apply elem_of_cons in Hg as [->|Hg]; [|by eauto].
      destruct (node_row_spec _ _ _ _ Hrow) as (p & Hq & _). congruence.
    + exists e. split; [done|].
      destruct (node_row_errors _ _ _ _ Hrow) as [[_ ->]| ->]; auto.
Qed.

Lemma elem_of_relPairs files pr :
  pr ∈ relPairs files ↔
  ∃ file imps, file ∈ files ∧ File.importFiles file = Some imps ∧
               pr.2 ∈ imps ∧ pr.1 = File.path file.
Proof.
  unfold relPairs. rewrite list_elem_of_In, in_flat_map. split.
  - intros (file & Hfile & Hpr). apply list_elem_of_In in Hfile.
    destruct (File.importFiles file) as [[|imp imps]|] eqn:E; [done| |done].
    apply list_elem_of_In, list_elem_of_fmap in Hpr as (x & -> & Hx).
    by exists file, (imp :: imps).
  - intros (file & imps & Hfile & E & Hin & Hfrom). exists file.
    split; [by apply list_elem_of_In|]. rewrite E.
    destruct imps as [|imp imps]; [by apply elem_of_nil in Hin|].
    apply list_elem_of_In, list_elem_of_fmap. exists pr.2.
    split; [|done]. destruct pr as [a b]. simpl in *. by rewrite Hfrom.
Qed.

Lemma edge_row_total scope st pr f :
  pr.1 = Some f → ∃ st', edge_row scope st pr = Ok st'.
Proof.
  intros E. unfold edge_row. rewrite E.
  destruct (merge_file f _ _ (nodes st)) as [m as_]. eauto.
Qed.

(** A transaction around one statement that the database refuses. *)
Lemma executeWrite_send_err env r f w e :
  f (store w) = Err e →
  ∃ w' e', executeWrite (send env r f) w = (w', Throw e') ∧
    store w' = store w ∧ catalog w' = catalog w ∧ heap w' = heap w ∧
    trace w' = trace w ++ [Sent r].
Proof.
  intros H. unfold executeWrite, send, request.
  rewrite (bind_normal _ _ _ _ _ (emit_run _ _)).
  destruct (fault env r) as [e0|].
  - by eexists _, _.
  - unfold statement. cbn [store add_event]. rewrite H. by eexists _, _.
Qed.

(** The only requests of [ensureConstraint] are the two constraints and
    the close of its session. *)
Lemma ensureConstraint_requests env w w' c :
  ensureConstraint env w = (w', c) →
  ∃ evs, trace w' = trace w ++ evs ∧
    ∀ r, Sent r ∈ evs →
         r ∈ [CreatePathConstraint; CreateIdConstraint; SessionClose].
Proof.
  ensure_cases env w; intros [= <- <-];
    cbn [trace]; rewrite <- !app_assoc; cbn [app];
    (eexists; split; [reflexivity|]); intros r Hr;
    repeat (apply elem_of_cons in Hr as [Hr|Hr];
            [simplify_eq; repeat constructor|]);
    by apply elem_of_nil in Hr.
Qed.

(** X5.  A record without a [path] stops the import before anything is
    written.  When some record of the batch has no path, the steps end in
    an error, and the database holds the nodes and relationships it held:
    the records before the faulty one are not upserted either, since the
    node statement runs in one transaction.  No projection is made. *)
Theorem import_steps_missing_path env records projectUuid w w' c :
  (∃ f, f ∈ records ∧ File.path f = None) →
  import_steps env records projectUuid w = (w', c) →
  (∃ e, c = Throw e) ∧
  nodes (store w') = nodes (store w) ∧ rels (store w') = rels (store w) ∧
  catalog w' = catalog w ∧
  ∃ evs, trace w' = trace w ++ evs ∧ Sent MergeImports ∉ evs.
Proof.
  intros Hmiss. unfold import_steps. unfold mbind at 1, Js_bind at 1.
  destruct (ensureConstraint env w) as [w1 c1] eqn:E1.
  destruct (ensureConstraint_requests _ _ _ _ E1) as (evs & Ht & Hevs).
  assert (Hno : Sent MergeImports ∉ evs).
  { intros Hin. apply Hevs in Hin.
    repeat (apply elem_of_cons in Hin as [Hin|Hin]; [done|]).
    by apply elem_of_nil in Hin. }
  destruct (ensureConstraint_frame _ _ _ _ E1) as (Hn & Hr & Hc & _).
  destruct c1 as [[]|e|k].
  - unfold mbind at 1, Js_bind at 1.
    destruct (upsertNodes_missing_path records projectUuid (store w1) Hmiss)
      as (e & He & _).
    destruct (executeWrite_send_err env MergeFiles _ w1 e He)
      as (w2 & e' & -> & Hs & Hcat & _ & Ht2).
    intros [= <- <-]. rewrite Hs, Hcat, Ht2, Ht.
    split; [by eauto|]. split; [done|]. split; [done|]. split; [done|].
    exists (evs ++ [Sent MergeFiles]). split; [by rewrite app_assoc|].
    intros [?|?%list_elem_of_singleton]%elem_of_app; done.
  - intros [= <- <-]. split; [by eauto|]. by eauto 10.
  - by destruct (stays_ensureConstraint env w w1 k).
Qed.

Lemma import_steps_missing_path_witness :
  let records := [x_js "1-aaaaaaa"; no_record] in
  ∃ w' e, import_steps quiet records "proj1" (world_of empty_store)
            = (w', Throw e) ∧
          nodes (store w') = ∅ ∧ rels (store w') = [].
Proof.
  intros records.
  destruct (import_steps quiet records "proj1" (world_of empty_store))
    as [w' c] eqn:E.
  destruct (import_steps_missing_path quiet records "proj1"
              (world_of empty_store) w' c) as ([e ->] & Hn & Hr & _).
  - exists no_record. split; [|reflexivity]. right. left.
  - exact E.
  - exists w', e. by rewrite Hn, Hr.
Defined.

(** ** The edge statement after the node statement *)

(** X6.  Once the node upsert of a batch has completed, the edge upsert of
    the same batch cannot be refused by the database: every pair has a
    [from], since every record has a [path].  Only a failure of the
    connection can stop it. *)
Theorem upsertEdges_after_nodes env files projectUuid st s1 w :
  upsertNodes files projectUuid st = Ok s1 →
  (∀ st', ∃ s2, upsertEdges files projectUuid st' = Ok s2) ∧
  (fault env MergeImports = None →
   ∃ w', match relPairs files with
         | [] => mret ()
         | pairs =>
             executeWrite
               (send env MergeImports (merge_imports projectUuid pairs))
         end w = (w', Normal ())).
Proof.
  intros H.
  assert (Htotal : ∀ st', ∃ s2, upsertEdges files projectUuid st' = Ok s2).
  { intros st'. unfold upsertEdges.
    destruct (relPairs files) as [|pr pairs] eqn:E; [by eauto|].
    destruct (foldM_total (edge_row projectUuid) (λ _, True)
                (pr :: pairs) st' I) as (s2 & Hs2 & _); [|by eauto].
    intros a b Hb _. rewrite <- E in Hb.
    apply elem_of_relPairs in Hb as (file & imps & Hfile & _ & _ & Hfrom).
    destruct (upsertNodes_spec _ _ _ _ H) as [_ Hall].
    destruct (Hall file Hfile) as (p & Hp & _).
    destruct (edge_row_total projectUuid a b p) as [a' Ha']; [congruence|].
    by exists a'. }
  split; [done|]. intros Hfault.
  destruct (Htotal (store w)) as [s2 Hs2]. unfold upsertEdges in Hs2.
  destruct (relPairs files) as [|pr pairs]; [by eexists|].
  unfold executeWrite, send. rewrite request_ok by done.
  unfold statement. cbn [store add_event]. rewrite Hs2. by eexists.
Qed.

Lemma upsertEdges_after_nodes_witness :
  let files := [x_js "2-bbbbbbb"; y_js "2-ccccccc"] in
  ∃ s1 s2, upsertNodes files "P" empty_store = Ok s1 ∧
           upsertEdges files "P" s1 = Ok s2.
Proof.
  intros files.
  destruct (upsertNodes files "P" empty_store) as [s1|e] eqn:E;
    [|by vm_compute in E].
  destruct (upsertEdges_after_nodes quiet files "P" empty_store s1
              (world_of empty_store) E) as [Htotal _].
  destruct (Htotal s1) as [s2 Hs2].
  exists s1, s2. split; [reflexivity|exact Hs2].
Defined.

(** ** How [importRepo] ends *)

(** X7.  On a non-empty array [importRepo] never returns to its caller and
    never reports what the steps did: it closes the session (the last event
    of the run) and ends the process with status 0, whether the steps
    completed or threw.  The one error that leaves it is that of the close
    itself. *)
Theorem importRepo_never_returns env elems projectUuid w w' c :
  elems ≠ [] →
  importRepo env (JsArray elems) projectUuid w = (w', c) →
  last (trace w') = Some (Sent SessionClose) ∧
  c = match fault env SessionClose with
      | None => Exit 0
      | Some e => Throw e
      end.
Proof.
  intros Hne. unfold importRepo.
  destruct elems as [|f rest]; [done|].
  erewrite bind_normal; [|reflexivity].
  destruct (normalize env 0 (f :: rest) (heap w)) as [h' files].
  erewrite bind_normal; [|reflexivity].
  erewrite bind_normal; [|apply emit_run].
  set (body := try_catch _ _). set (w0 := add_event _ _).
  assert (Hbody : stays body).
  { apply stays_try_catch; [apply stays_import_steps|].
    intros e. repeat (apply stays_bind; [auto with stays|intros ?]).
    apply stays_throw. }
  assert (Hfin : ∀ w1,
    (session_close env;; process_exit 0) w1 =
      (add_event (Sent SessionClose) w1,
       match fault env SessionClose with
       | None => Exit 0
       | Some e => Throw e
       end : Completion unit)).
  { intros w1. unfold session_close, request.
    unfold mbind, Js_bind. rewrite emit_run.
    by destruct (fault env SessionClose). }
  unfold try_finally. destruct (body w0) as [w1 [[]|e|k]] eqn:E.
  - rewrite Hfin. destruct (fault env SessionClose);
      intros [= <- <-]; cbn [trace add_event]; by rewrite last_snoc.
  - rewrite Hfin. destruct (fault env SessionClose);
      intros [= <- <-]; cbn [trace add_event]; by rewrite last_snoc.
  - by destruct (Hbody w0 w1 k).
Qed.

Lemma importRepo_never_returns_witness :
  ∃ w', importRepo quiet (JsArray [0; 1]) "proj1" two_files = (w', Exit 0) ∧
        last (trace w') = Some (Sent SessionClose).
Proof.
  destruct (importRepo quiet (JsArray [0; 1]) "proj1" two_files)
    as [w' c] eqn:E.
  destruct (importRepo_never_returns quiet [0; 1] "proj1" two_files w' c)
    as [Hlast ->]; [done|exact E|].
  exists w'. split; [reflexivity|exact Hlast].
Defined.

(** ** [updateImportCounts]: what it leaves alone, and when it stops *)

Lemma store_eq (s s' : Store) :
  nodes s = nodes s' → rels s = rels s' → path_unique s = path_unique s' →
  id_unique s = id_unique s' → s = s'.
Proof. destruct s, s'. simpl. by intros -> -> -> ->. Qed.

Lemma recount_flags ids : ∀ st,
  path_unique (recount ids st) = path_unique st ∧
  id_unique (recount ids st) = id_unique st.
Proof.
  induction ids as [|i ids IH]; intros st; [done|].
  change (recount (i :: ids) st) with (recount ids (count_imports i st)).
  by destruct (IH (count_imports i st)) as [-> ->].
Qed.

Lemma recount_all_lookup st i :
  nodes (recount (elements (dom (nodes st))) st) !! i =
    counted st i <$> nodes st !! i.
Proof.
  destruct (recount_spec st (elements (dom (nodes st))) st
              (NoDup_elements _) eq_refl eq_refl) as (_ & _ & Hl).
  rewrite Hl. case_decide as Hi; [done|].
  rewrite elem_of_elements in Hi. apply not_elem_of_dom in Hi.
  by rewrite Hi.
Qed.

Lemma recount_all_twice st :
  let st1 := recount (elements (dom (nodes st))) st in
  recount (elements (dom (nodes st1))) st1 = st1.
Proof.
  intros st1.
  destruct (recount_spec st (elements (dom (nodes st))) st
              (NoDup_elements _) eq_refl eq_refl) as (Hr & Hd & _).
  fold st1 in Hr, Hd.
  destruct (recount_spec st1 (elements (dom (nodes st1))) st1
              (NoDup_elements _) eq_refl eq_refl) as (Hr1 & _ & _).
  destruct (recount_flags (elements (dom (nodes st1))) st1) as [Hp Hi].
  apply store_eq; [|done..].
  apply map_eq. intros i. rewrite recount_all_lookup.
  unfold st1 at 2 3. rewrite recount_all_lookup. fold st1.
  destruct (rows_same_shape st st1 i Hr Hd) as [Ho Hin].
  unfold counted. rewrite Ho, Hin. by destruct (nodes st !! i).
Qed.

(** X8.  A completed [updateImportCounts] writes the two counts and
    nothing else: relationships, constraints, projections and records are
    as they were, every node is the node it was with two counts set, and a
    second call right after it completes too and changes nothing. *)
Theorem updateImportCounts_frame env w w' :
  updateImportCounts env w = (w', Normal ()) →
  rels (store w') = rels (store w) ∧
  path_unique (store w') = path_unique (store w) ∧
  id_unique (store w') = id_unique (store w) ∧
  catalog w' = catalog w ∧ heap w' = heap w ∧
  (∀ i, ∃ o b, nodes (store w') !! i =
                 Node.set_counts o b <$> nodes (store w) !! i) ∧
  ∃ w'', updateImportCounts env w' = (w'', Normal ()) ∧ store w'' = store w'.
Proof.
  intros H. destruct (updateImportCounts_normal_inv _ _ _ H) as [Hm Hf].
  rewrite (updateImportCounts_ok _ _ Hm Hf) in H. injection H as <-.
  cbn [store catalog heap].
  set (ids := elements (dom (nodes (store w)))).
  destruct (recount_spec (store w) ids (store w)
              (NoDup_elements _) eq_refl eq_refl) as (Hr & Hd & _).
  destruct (recount_flags ids (store w)) as [Hp Hi].
  split; [done|]. split; [done|]. split; [done|]. split; [done|].
  split; [done|]. split.
  - intros i. eexists _, _. apply recount_all_lookup.
  - eexists. split.
    + apply updateImportCounts_ok; [done|]. cbn [store]. intros i.
      rewrite Hd. apply Hf.
    + cbn [store]. apply recount_all_twice.
Qed.

Lemma updateImportCounts_frame_witness :
  ∃ w' w'', updateImportCounts quiet (world_of abcd) = (w', Normal ()) ∧
    updateImportCounts quiet w' = (w'', Normal ()) ∧
    rels (store w') = rels abcd ∧ store w'' = store w'.
Proof.
  destruct (updateImportCounts quiet (world_of abcd)) as [w' c] eqn:E.
  assert (Hc : c = Normal ()) by (by vm_compute in E; injection E as _ <-).
  subst c.
  destruct (updateImportCounts_frame quiet (world_of abcd) w' E)
    as (Hr & _ & _ & _ & _ & _ & w'' & Hrun & Hsame).
  exists w', w''. split; [reflexivity|]. split; [exact Hrun|].
  split; [exact Hr|exact Hsame].
Defined.

Lemma update_each_app env l1 l2 w :
  update_each env (l1 ++ l2) w = (update_each env l1;; update_each env l2) w.
Proof.
  revert w. induction l1 as [|[i p] l1 IH]; intros w; [done|].
  cbn [app update_each]. unfold mbind, Js_bind.
  destruct (send env (SetImportCounts i) _ w) as [w1 [[]|e|k]]; [|done..].
  destruct (emit _ w1) as [w2 [[]|e|k]]; [|done..].
  apply IH.
Qed.

(** X9.  The loop of [updateImportCounts] is not one transaction.  When
    the update of one node fails, the nodes updated before it keep their
    new counts, the others keep what they had, and the error is thrown. *)
Theorem updateImportCounts_stops_midway env w j e before after :
  fault env MatchFiles = None →
  elements (dom (nodes (store w))) = before ++ j :: after →
  (∀ i, i ∈ before → fault env (SetImportCounts i) = None) →
  fault env (SetImportCounts j) = Some e →
  ∃ w', updateImportCounts env w = (w', Throw e) ∧
    rels (store w') = rels (store w) ∧
    ∀ i, nodes (store w') !! i =
           if decide (i ∈ before)
           then counted (store w) i <$> nodes (store w) !! i
           else nodes (store w) !! i.
Proof.
  intros Hm Hel Hbefore Hj. unfold updateImportCounts.
  rewrite (bind_normal _ _ _ _ _ (request_ok _ _ _ _ Hm)).
  erewrite bind_normal; [|reflexivity]. cbn [store add_event].
  rewrite (bind_normal _ _ _ _ _ (emit_run _ _)).
  rewrite Hel, map_app. cbn [map].
  set (w2 := add_event _ (add_event _ _)).
  set (l1 := map _ before).
  assert (Hl1 : l1.*1 = before).
  { unfold l1. clear. induction before; [done|]. cbn. by f_equal. }
  unfold mbind at 1, Js_bind at 1. rewrite update_each_app.
  rewrite (bind_normal _ _ _ _ _
             (update_each_ok env l1 w2 ltac:(by rewrite Hl1))).
  cbn [update_each]. unfold send, request.
  unfold mbind, Js_bind. rewrite emit_run, Hj. unfold throw.
  eexists. split; [reflexivity|]. cbn [store add_event]. rewrite Hl1.
  assert (Hnd : NoDup before).
  { pose proof (NoDup_elements (dom (nodes (store w)))) as Hnd.
    rewrite Hel in Hnd. by apply NoDup_app in Hnd as [? _]. }
  destruct (recount_spec (store w) before (store w) Hnd eq_refl eq_refl)
    as (Hr & _ & Hl).
  split; [done|]. apply Hl.
Qed.

Lemma updateImportCounts_stops_midway_witness :
  ∃ w', updateImportCounts (flaky 1) (world_of abcd)
          = (w', Throw (ServiceUnavailable "Connection lost")) ∧
    degrees w' 2 = Some (Some 0, Some 1)%Z ∧
    degrees w' 3 = Some (Some 1, Some 0)%Z ∧
    degrees w' 1 = Some (None, None) ∧
    degrees w' 0 = Some (None, None).
Proof.
  destruct (updateImportCounts_stops_midway (flaky 1) (world_of abcd) 1
              (ServiceUnavailable "Connection lost") [2; 3] [0])
    as (w' & Hrun & _ & Hl).
  - reflexivity.
  - vm_compute. reflexivity.
  - intros i Hi. unfold flaky. cbn [fault]. case_decide as E; [|done].
    subst i. repeat (apply elem_of_cons in Hi as [Hi|Hi]; [done|]).
    by apply elem_of_nil in Hi.
  - reflexivity.
  - exists w'. split; [exact Hrun|]. unfold degrees. rewrite !Hl.
    repeat split; vm_compute; reflexivity.
Defined.

(** ** A completed run, record by record *)

Lemma unique_single (m : gmap N Node.t) p :
  unique_paths m → has_path m p → ∃ i, matching p m = [i].
Proof.
  intros Hu Hp. unfold has_path in Hp.
  destruct (matching p m) as [|i l] eqn:E; [done|]. exists i.
  destruct l as [|j l]; [done|].
  assert (Hi : i ∈ matching p m) by (rewrite E; left).
  assert (Hj : j ∈ matching p m) by (rewrite E; right; left).
  apply elem_of_matching in Hi as (n & Hn & Hpn).
  apply elem_of_matching in Hj as (n' & Hn' & Hpn').
  pose proof (Hu i j n n' p Hn Hn' Hpn Hpn') as ->.
  pose proof (NoDup_matching p m) as Hnd. rewrite E in Hnd.
  apply NoDup_cons in Hnd as [Hnot _]. destruct Hnot. left.
Qed.

(** The steps of a completed run, one by one. *)
Lemma import_steps_normal_inv env records projectUuid w w' :
  import_steps env records projectUuid w = (w', Normal ()) →
  ∃ w1 s2 w4 w5 w6,
    ensureConstraint env w = (w1, Normal ()) ∧
    upsertNodes records projectUuid (store w1) = Ok s2 ∧
    upsertEdges records projectUuid s2 = Ok (store w4) ∧
    updateImportCounts env w4 = (w5, Normal ()) ∧
    detectCommunities env w5 = (w6, Normal ()) ∧
    store w' = store w6 ∧ catalog w' = catalog w6.
Proof.
  unfold import_steps. intros H.
  apply bind_normal_inv in H as (w1 & [] & Hc & H).
  apply bind_normal_inv in H as (w2 & [] & Hn & H).
  apply executeWrite_normal_inv, send_normal_inv in Hn as (s2 & Hn & E2 & _).
  apply bind_normal_inv in H as (w3 & [] & He & H).
  assert (He3 : upsertEdges records projectUuid s2 = Ok (store w3)).
  { unfold upsertEdges. destruct (relPairs records) as [|pr pairs].
    - injection He as <-. by rewrite E2.
    - apply executeWrite_normal_inv, send_normal_inv in He
        as (s3 & He & E3 & _).
      by rewrite E3, <- E2. }
  apply bind_normal_inv in H as (w4 & [] & Hlog & H). injection Hlog as <-.
  apply bind_normal_inv in H as (w5 & [] & Hcount & H).
  apply bind_normal_inv in H as (w6 & [] & Hdetect & H).
  injection H as <-. eexists w1, s2, _, w5, w6.
  split; [exact Hc|]. split; [exact Hn|].
  split; [|split; [exact Hcount|by split]]. exact He3.
Qed.

(** The two analysis steps set three properties of every node. *)
Lemma analysis_lookup env w w1 w2 :
  updateImportCounts env w = (w1, Normal ()) →
  detectCommunities env w1 = (w2, Normal ()) →
  ∀ i, ∃ o b c, nodes (store w2) !! i =
    (λ n, Node.set_clusterId c (Node.set_counts o b n)) <$> nodes (store w) !! i.
Proof.
  intros Hcount Hdetect i.
  destruct (updateImportCounts_normal_inv _ _ _ Hcount) as [Hm Hf].
  rewrite (updateImportCounts_ok _ _ Hm Hf) in Hcount. injection Hcount as <-.
  destruct (detectCommunities_normal_inv _ _ _ Hdetect) as (Hd & Hp & Hl).
  rewrite (detectCommunities_ok _ _ Hd Hp Hl) in Hdetect.
  injection Hdetect as <-. cbn [store].
  rewrite write_clusters_project, recount_all_lookup.
  eexists _, _, _. rewrite <- option_fmap_compose. reflexivity.
Qed.

(** X10.  What a completed run leaves for each record.  From a database
    that respects its constraints, once the steps of [importRepo] complete,
    every path of the batch is the path of exactly one node; that node
    carries the [id], [name], [loc], [description] and [externalImports] of
    the last record with that path, and the [projectUuid] of the run. *)
Theorem import_steps_records env records projectUuid w w' p file :
  consistent (store w) →
  import_steps env records projectUuid w = (w', Normal ()) →
  last_record records p = Some file →
  ∃ i n, matching p (nodes (store w')) = [i] ∧
    nodes (store w') !! i = Some n ∧
    n = Node.mk (Some p) (File.id file) (File.name file) (File.loc file)
          (File.description file) (File.externalImports file)
          (Some projectUuid)
          (Node.importCount n) (Node.importedByCount n) (Node.clusterId n).
Proof.
  intros [Hcp Hci] H Hlast.
  apply import_steps_normal_inv in H
    as (w1 & s2 & w4 & w5 & w6 & Hc & Hn & He & Hcount & Hdetect & Hs & _).
  destruct (ensureConstraint_normal _ _ _ Hc) as (_ & _ & Hup & _).
  destruct (ensureConstraint_normal_inv _ _ _ Hc) as (Hnodes & _ & _).
  assert (Hu1 : unique_paths (nodes (store w1))).
  { rewrite Hnodes. destruct Hup as [Hflag|Hu]; [by apply Hcp|done]. }
  destruct (upsertNodes_unique _ _ _ _ Hn) as (_ & _ & Hp2 & _).
  destruct (upsertEdges_unique _ _ _ _ He) as (_ & _ & Hp3 & _).
  destruct (last_record_Some _ _ _ Hlast) as [Hin Hpath].
  destruct (upsertNodes_spec _ _ _ _ Hn) as [_ Hall].
  destruct (Hall file Hin) as (p' & Hp' & Hhas).
  assert (p' = p) as -> by congruence.
  destruct (upsertEdges_spec _ _ _ _ He) as [[Hext _] _].
  destruct (unique_single (nodes s2) p (Hp2 Hu1) Hhas) as [i Hi].
  assert (Hi2 : i ∈ matching p (nodes s2)) by (rewrite Hi; left).
  apply elem_of_matching in Hi2 as (n2 & Hn2 & Hpn2).
  pose proof (upsertNodes_last _ _ _ _ _ _ Hn Hlast i n2 Hn2 Hpn2) as E2.
  assert (Hn3 : nodes (store w4) !! i = Some n2).
  { apply (upsertEdges_keeps_tagged records projectUuid s2 (store w4) i n2
             projectUuid He Hn2). by rewrite E2. }
  destruct (analysis_lookup env w4 w5 w6 Hcount Hdetect i) as (o & b & c & Hl).
  rewrite Hn3 in Hl. cbn [fmap option_fmap option_map] in Hl.
  exists i, (Node.set_clusterId c (Node.set_counts o b n2)).
  rewrite Hs. split; [|split; [exact Hl|]].
  - rewrite <- Hi, <- (Hext p Hhas). apply matching_ext. intros k.
    rewrite !elem_of_matching.
    destruct (analysis_lookup env w4 w5 w6 Hcount Hdetect k)
      as (o' & b' & c' & ->).
    destruct (nodes (store w4) !! k) as [nk|]; simpl.
    + split; intros (n & [= <-] & Hpk); eauto.
    + split; intros (n & Hk & _); done.
  - rewrite E2 in Hpn2 |- *. unfold set_file_props in *. simpl in *.
    by rewrite Hpn2.
Qed.

Lemma import_steps_records_witness :
  let records := [x_js "2-bbbbbbb"; y_js "2-ccccccc"; x_js "2-ddddddd"] in
  ∃ w' i n,
    import_steps quiet records "P2" (world_of legacy) = (w', Normal ()) ∧
    matching "x.js" (nodes (store w')) = [i] ∧
    nodes (store w') !! i = Some n ∧
    Node.id n = Some "2-ddddddd"%string ∧
    Node.projectUuid n = Some "P2"%string.
Proof.
  intros records.
  destruct (import_steps quiet records "P2" (world_of legacy))
    as [w' c] eqn:E.
  assert (Hc : c = Normal ()) by (by vm_compute in E; injection E as _ <-).
  subst c.
  destruct (import_steps_records quiet records "P2" (world_of legacy) w'
              "x.js" (x_js "2-ddddddd")) as (i & n & Hm & Hn & Hrec).
  - split; intros _ i j n n' q Hi Hj _ _;
      cbn [world_of store legacy nodes] in Hi, Hj;
      apply lookup_singleton_Some in Hi as [<- _];
      by apply lookup_singleton_Some in Hj as [<- _].
  - exact E.
  - vm_compute. reflexivity.
  - exists w', i, n. split; [reflexivity|]. split; [exact Hm|].
    split; [exact Hn|]. rewrite Hrec. split; reflexivity.
Defined.

(** ** The relationships that the edge upsert writes *)

Lemma adds_refl Q st : adds Q st st.
Proof.
  exists []. split; [by rewrite app_nil_r|]. split; [done|].
  intros a b Hab. by apply elem_of_nil in Hab.
Qed.

Lemma adds_trans (Q1 Q2 Q : N → N → Prop) s1 s2 s3 :
  (∀ a b, Q1 a b → Q a b) → (∀ a b, Q2 a b → Q a b) →
  adds Q1 s1 s2 → adds Q2 s2 s3 → adds Q s1 s3.
Proof.
  intros H1 H2 (n1 & E1 & Hd1 & Hq1) (n2 & E2 & Hd2 & Hq2).
  exists (n1 ++ n2). split; [by rewrite E2, E1, app_assoc|].
  split; [by auto|].
  intros a b [?|?]%elem_of_app; [apply H1|apply H2]; auto.
Qed.

Lemma adds_same_rels Q st st' : rels st' = rels st → adds Q st st'.
Proof.
  intros E. exists []. rewrite E, app_nil_r. split; [done|]. split; [done|].
  intros a b Hab. by apply elem_of_nil in Hab.
Qed.

Lemma merge_rel_adds a b st :
  adds (λ x y, x = a ∧ y = b) st (set_rels (merge_rel a b (rels st)) st).
Proof.
  unfold merge_rel. destruct (decide ((a, b) ∈ rels st)) as [Hin|Hnot].
  - by apply adds_same_rels.
  - exists [(a, b)]. split; [done|]. split.
    + intros Hnd. cbn [rels set_rels]. apply NoDup_app. split; [done|].
      split; [|apply NoDup_singleton].
      intros x Hx ->%list_elem_of_singleton. done.
    + intros x y Hxy%list_elem_of_singleton. by simplify_eq.
Qed.

Lemma link_all_adds a bs : ∀ st,
  adds (λ x y, x = a ∧ y ∈ bs) st (link_all a bs st).
Proof.
  induction bs as [|b bs IH]; intros st; [apply adds_refl|].
  change (link_all a (b :: bs) st)
    with (link_all a bs (set_rels (merge_rel a b (rels st)) st)).
  eapply adds_trans; [| |apply merge_rel_adds|apply IH].
  - intros x y [-> ->]. split; [done|left].
  - intros x y [-> Hy]. split; [done|by right].
Qed.

Lemma merge_target_adds scope t st a :
  let st' := merge_target scope t st a in
  adds (λ x y, x = a ∧ y ∈ matching t (nodes st')) st st'.
Proof.
  unfold merge_target.
  destruct (merge_file t _ _ (nodes st)) as [m bs] eqn:E. simpl.
  pose proof (merge_file_bound _ _ _ _ _ _
    (keeps_path_on_create scope) (keeps_path_on_match scope) E) as [Hbs _].
  rewrite link_all_nodes. cbn [nodes set_nodes]. rewrite <- Hbs.
  eapply adds_trans; [| |apply (adds_same_rels (λ _ _, False) st
                                  (set_nodes m st) eq_refl)
                       |apply link_all_adds]; [done|done].
Qed.

Lemma fold_targets_adds scope t as_ : ∀ st,
  let st' := foldl (merge_target scope t) st as_ in
  adds (λ x y, x ∈ as_ ∧ y ∈ matching t (nodes st')) st st'.
Proof.
  induction as_ as [|a as_ IH]; intros st; [apply adds_refl|]. simpl.
  destruct (merge_target_spec scope t st a) as (_ & Hp & _).
  destruct (fold_targets_spec scope t as_ (merge_target scope t st a))
    as [[Hext _] _].
  eapply adds_trans; [| |apply merge_target_adds|apply IH].
  - intros x y [-> Hy]. split; [left|]. by rewrite (Hext t Hp).
  - intros x y [Hx Hy]. split; [by right|done].
Qed.

Lemma edge_row_adds scope st pr st' :
  edge_row scope st pr = Ok st' →
  ∃ f, pr.1 = Some f ∧
    adds (λ x y, x ∈ matching f (nodes st') ∧ y ∈ matching pr.2 (nodes st'))
      st st'.
Proof.
  unfold edge_row. destruct (pr.1) as [f|]; [|done].
  destruct (merge_file f _ _ (nodes st)) as [m as_] eqn:E. intros [= <-].
  exists f. split; [done|].
  pose proof (merge_file_bound _ _ _ _ _ _
    (keeps_path_on_create scope) (keeps_path_on_match scope) E) as [Has Hf].
  destruct (fold_targets_spec scope pr.2 as_ (set_nodes m st)) as [[Hext _] _].
  assert (Hm : matching f (nodes (foldl (merge_target scope pr.2)
                 (set_nodes m st) as_)) = as_) by by rewrite (Hext f Hf).
  rewrite Hm.
  eapply adds_trans; [| |apply (adds_same_rels (λ _ _, False) st
                                  (set_nodes m st) eq_refl)
                       |apply fold_targets_adds]; [done|done].
Qed.

Lemma links_extends pairs st st' a b pr f :
  extends st st' → pr.1 = Some f → saturated st f pr.2 → pr ∈ pairs →
  a ∈ matching f (nodes st) → b ∈ matching pr.2 (nodes st) →
  links pairs st' a b.
Proof.
  intros [Hext _] Hf (Hpf & Hpt & _) Hpr Ha Hb. exists f, pr.2.
  rewrite (Hext f Hpf), (Hext pr.2 Hpt). split; [|done].
  destruct pr as [o t]. simpl in *. by subst.
Qed.

Lemma merge_imports_adds scope pairs : ∀ st st',
  merge_imports scope pairs st = Ok st' → adds (links pairs st') st st'.
Proof.
  induction pairs as [|pr pairs IH]; intros st st' H.
  - injection H as <-. apply adds_refl.
  - cbn [merge_imports foldM] in H.
    destruct (edge_row scope st pr) as [s1|] eqn:Hrow; [|done].
    change (merge_imports scope pairs s1 = Ok st') in H.
    destruct (edge_row_adds _ _ _ _ Hrow) as (f & Hf & Hadds).
    destruct (edge_row_spec _ _ _ _ Hrow) as (f' & Hf' & _ & Hsat).
    assert (f' = f) as -> by congruence.
    destruct (merge_imports_spec _ _ _ _ H) as [Hext _].
    eapply adds_trans; [| |exact Hadds|exact (IH s1 st' H)].
    + intros a b [Ha Hb].
      apply (links_extends (pr :: pairs) s1 st' a b pr f); [done..|left|done|done].
    + intros a b (g & t & Hin & Ha & Hb). exists g, t. split; [by right|done].
Qed.

(** X11.  The relationships after the edge upsert are those that were
    there, in their order, followed by new ones; none is doubled; and a
    relationship is there afterwards exactly when it was there before or
    it joins a node under the [from] of some pair to a node under its
    [to]. *)
Theorem upsertEdges_relationships files projectUuid st st' :
  upsertEdges files projectUuid st = Ok st' →
  (∃ new, rels st' = rels st ++ new) ∧
  (NoDup (rels st) → NoDup (rels st')) ∧
  ∀ a b, (a, b) ∈ rels st' ↔
         (a, b) ∈ rels st ∨ links (relPairs files) st' a b.
Proof.
  intros H.
  assert (Hadds : adds (links (relPairs files) st') st st').
  { revert H. unfold upsertEdges.
    destruct (relPairs files) as [|pr pairs].
    - intros [= <-]. apply adds_refl.
    - apply merge_imports_adds. }
  destruct Hadds as (new & E & Hnd & Hnew).
  split; [by eauto|]. split; [done|]. intros a b. split.
  - rewrite E. intros [?|?]%elem_of_app; [by left|right; by apply Hnew].
  - destruct (upsertEdges_spec _ _ _ _ H) as [[_ Hsub] Hsat].
    intros [Hold|(f & t & Hin & Ha & Hb)]; [by apply Hsub|].
    destruct (Hsat _ Hin) as (f' & Hf' & _ & _ & Hl). simpl in Hf'.
    injection Hf' as <-. by apply Hl.
Qed.

Lemma upsertEdges_relationships_witness :
  let files := [x_js "2-bbbbbbb"; y_js "2-ccccccc"] in
  let st := mkStore ∅ [(7, 8)] false false in
  ∃ st' new, upsertEdges files "P" st = Ok st' ∧
    rels st' = (7, 8) :: new ∧ NoDup (rels st').
Proof.
  intros files st.
  destruct (upsertEdges files "P" st) as [st'|e] eqn:E; [|by vm_compute in E].
  destruct (upsertEdges_relationships files "P" st st' E)
    as ([new Hnew] & Hnd & _).
  exists st', new. split; [reflexivity|]. split; [exact Hnew|].
  apply Hnd. apply NoDup_singleton.
Defined.

(** ** Community detection that fails *)



(** ** A completed run: relationships and degrees *)

Lemma analysis_rels env w w1 w2 :
  updateImportCounts env w = (w1, Normal ()) →
  detectCommunities env w1 = (w2, Normal ()) →
  rels (store w2) = rels (store w).
Proof.
  intros Hcount Hdetect.
  destruct (updateImportCounts_normal_inv _ _ _ Hcount) as [Hm Hf].
  rewrite (updateImportCounts_ok _ _ Hm Hf) in Hcount. injection Hcount as <-.
  destruct (detectCommunities_normal_inv _ _ _ Hdetect) as (Hd & Hp & Hl).
  rewrite (detectCommunities_ok _ _ Hd Hp Hl) in Hdetect.
  injection Hdetect as <-. cbn [store rels write_clusters set_nodes].
  by destruct (recount_spec (store w) (elements (dom (nodes (store w))))
                 (store w) (NoDup_elements _) eq_refl eq_refl) as (-> & _).
Qed.

Lemma analysis_matching env w w1 w2 p :
  updateImportCounts env w = (w1, Normal ()) →
  detectCommunities env w1 = (w2, Normal ()) →
  matching p (nodes (store w2)) = matching p (nodes (store w)).
Proof.
  intros Hcount Hdetect. apply matching_ext. intros k.
  rewrite !elem_of_matching.
  destruct (analysis_lookup env w w1 w2 Hcount Hdetect k)
    as (o & b & c & ->).
  destruct (nodes (store w) !! k) as [nk|]; simpl.
  - split; intros (n & [= <-] & Hpk); eauto.
  - split; intros (n & Hk & _); done.
Qed.

(** X13.  A completed run counts true degrees.  From a database in which
    every relationship joins two [File] nodes, once the steps complete this
    is still so, and the [importCount] and [importedByCount] of every node
    are the numbers of relationships that leave and reach it in the
    database as the run leaves it. *)
Theorem import_steps_degrees env records projectUuid w w' :
  wf (store w) →
  import_steps env records projectUuid w = (w', Normal ()) →
  wf (store w') ∧
  ∀ i n, nodes (store w') !! i = Some n →
    Node.importCount n = Some (Z.of_nat (out_degree (store w') i)) ∧
    Node.importedByCount n = Some (Z.of_nat (in_degree (store w') i)).
Proof.
  intros Hwf H.
  apply import_steps_normal_inv in H
    as (w1 & s2 & w4 & w5 & w6 & Hc & Hn & He & Hcount & Hdetect & Hs & _).
  destruct (ensureConstraint_normal_inv _ _ _ Hc) as (Hnodes & Hrels & _).
  assert (Hwf1 : wf (store w1)).
  { apply (wf_grows (store w)); [done| |done]. rewrite Hnodes.
    apply grows_refl. }
  destruct (upserts_wf _ _ _ _ _ Hwf1 Hn He) as [_ Hwf4].
  destruct (analysis_all_nodes env w4 w5 w6 Hcount Hdetect)
    as (Hdom & g & _ & Hall).
  assert (Hwf6 : wf (store w6)).
  { apply (wf_grows (store w4)); [done| |by eapply analysis_rels].
    intros i Hi. apply elem_of_dom. rewrite Hdom. by apply elem_of_dom. }
  rewrite Hs. split; [done|]. intros i n Hi.
  destruct (Hall i n Hi) as (Ho & Hin & _).
  destruct (rows_wf (store w6) i Hwf6) as [<- <-]. done.
Qed.

Lemma import_steps_degrees_witness :
  let records := [x_js "2-bbbbbbb"; y_js "2-ccccccc"] in
  ∃ w' x n,
    import_steps quiet records "P2" (world_of legacy) = (w', Normal ()) ∧
    matching "x.js" (nodes (store w')) = [x] ∧
    nodes (store w') !! x = Some n ∧
    Node.importCount n = Some 1%Z ∧ Node.importedByCount n = Some 0%Z.
Proof.
  intros records. eexists _, _, _.
  split; [vm_compute; reflexivity|].
  split; [vm_compute; reflexivity|].
  split; [vm_compute; reflexivity|].
  edestruct (import_steps_degrees quiet records "P2" (world_of legacy))
    as [_ Hall]; [constructor|vm_compute; reflexivity|].
  edestruct (Hall 1) as [Ho Hi]; [vm_compute; reflexivity|].
  split; [rewrite Ho|rewrite Hi]; vm_compute; reflexivity.
Defined.

(** X14.  What a completed run leaves for each import.  From a database
    that respects its constraints, once the steps complete, each import of
    each record is one relationship between two nodes: the only node under
    the record's path and the only node under the imported path. *)
Theorem import_steps_imports env records projectUuid w w' f t :
  consistent (store w) →
  import_steps env records projectUuid w = (w', Normal ()) →
  (Some f, t) ∈ relPairs records →
  ∃ a b, matching f (nodes (store w')) = [a] ∧
         matching t (nodes (store w')) = [b] ∧
         (a, b) ∈ rels (store w').
Proof.
  intros [Hcp Hci] H Hpair.
  apply import_steps_normal_inv in H
    as (w1 & s2 & w4 & w5 & w6 & Hc & Hn & He & Hcount & Hdetect & Hs & _).
  destruct (ensureConstraint_normal _ _ _ Hc) as (_ & _ & Hup & _).
  destruct (ensureConstraint_normal_inv _ _ _ Hc) as (Hnodes & _ & _).
  assert (Hu1 : unique_paths (nodes (store w1))).
  { rewrite Hnodes. destruct Hup as [Hflag|Hu]; [by apply Hcp|done]. }
  destruct (upsertNodes_unique _ _ _ _ Hn) as (_ & _ & Hp2 & _).
  destruct (upsertEdges_unique _ _ _ _ He) as (_ & _ & Hp3 & _).
  destruct (upsertEdges_spec _ _ _ _ He) as [_ Hsat].
  destruct (Hsat _ Hpair) as (f' & Hf' & Hpf & Hpt & Hl). simpl in Hf', Hpt, Hl.
  injection Hf' as <-.
  destruct (unique_single _ f (Hp3 (Hp2 Hu1)) Hpf) as [a Ha].
  destruct (unique_single _ t (Hp3 (Hp2 Hu1)) Hpt) as [b Hb].
  exists a, b. rewrite Hs.
  rewrite !(analysis_matching env w4 w5 w6 _ Hcount Hdetect).
  rewrite (analysis_rels env w4 w5 w6 Hcount Hdetect).
  split; [done|]. split; [done|].
  apply Hl; [rewrite Ha|rewrite Hb]; left.
Qed.

Lemma import_steps_imports_witness :
  let records := [x_js "2-bbbbbbb"; y_js "2-ccccccc"] in
  ∃ w' a b,
    import_steps quiet records "P2" (world_of legacy) = (w', Normal ()) ∧
    matching "x.js" (nodes (store w')) = [a] ∧
    matching "y.js" (nodes (store w')) = [b] ∧
    (a, b) ∈ rels (store w').
Proof.
  intros records.
  destruct (import_steps quiet records "P2" (world_of legacy))
    as [w' c] eqn:E.
  assert (Hc : c = Normal ()) by (by vm_compute in E; injection E as _ <-).
  subst c.
  destruct (import_steps_imports quiet records "P2" (world_of legacy) w'
              "x.js" "y.js") as (a & b & Ha & Hb & Hab).
  - split; intros _ i j n n' q Hi Hj _ _;
      cbn [world_of store legacy nodes] in Hi, Hj;
      apply lookup_singleton_Some in Hi as [<- _];
      by apply lookup_singleton_Some in Hj as [<- _].
  - exact E.
  - vm_compute. left.
  - exists w', a, b. split; [reflexivity|]. split; [exact Ha|].
    split; [exact Hb|exact Hab].
Defined.

(** ** The query endpoint *)

Lemma convert_plain v :
  no_proto v → all_integers (λ _, False) v → convertNeo4jValue v = v.
Proof.
  induction v as [| | | | |items IH| |props IH] using JsValue_ind;
    simpl; try done.
  - intros Hp H. f_equal. induction IH as [|x l Hx _ IHl]; simpl; [done|].
    destruct Hp as [Hp1 Hp2], H as [H1 H2]. by rewrite Hx, IHl.
  - intros Hp H. f_equal. induction IH as [|[k x] l Hx _ IHl]; simpl; [done|].
    destruct Hp as [[Hk Hp1] Hp2], H as [H1 H2]. simpl in Hx.
    rewrite decide_False by done. simpl. by rewrite Hx, IHl.
Qed.

(** X15.  On a value in which no object has an own property [__proto__],
    [convertNeo4jValue] returns a value without [Integer] as it is (keys,
    order and nesting included), and converting twice is converting
    once. *)
Theorem convertNeo4jValue_plain v :
  no_proto v →
  (all_integers (λ _, False) v → convertNeo4jValue v = v) ∧
  convertNeo4jValue (convertNeo4jValue v) = convertNeo4jValue v.
Proof.
  intros Hp. split; [by apply convert_plain|].
  apply convert_plain; [apply convert_no_proto|apply convert_no_integer].
Qed.

Lemma convertNeo4jValue_plain_witness :
  convertNeo4jValue (JObject [("path", JString "a.pl")]%string)
    = JObject [("path", JString "a.pl")]%string ∧
  convertNeo4jValue (convertNeo4jValue a_record) = convertNeo4jValue a_record.
Proof.
  split.
  - apply (convertNeo4jValue_plain (JObject [("path", JString "a.pl")]%string));
      simpl; repeat split; discriminate.
  - apply (convertNeo4jValue_plain a_record).
    simpl. repeat split; discriminate.
Defined.

(** X16.  One request to [/api/run-query], whose body is not [null]: the
    handler replies exactly once.  Without a truthy [query] the reply is
    400 and the database is not touched.  Otherwise one session is opened,
    the query is run once with the given parameters (none given: [{}]),
    and the session is closed after the reply, whether the query failed
    (500 with the message of the error) or not (200, one converted record
    per record, with no [Integer] left). *)
Theorem run_query_contract d body evs c :
  body ≠ JNull → body ≠ JUndefined →
  run_query d body = (evs, c) →
  ∃ status payload,
    filter is_reply evs = [Reply status payload] ∧
    if js_not (query_of body) then
      status = 400%Z ∧
      payload = JObject [("error", JString "Missing query")]%string ∧
      filter is_session evs = [] ∧ c = None
    else
      filter is_session evs =
        [OpenSession; RunQuery (query_of body) (params_of body);
         CloseSession] ∧
      last evs = Some CloseSession ∧ c = close d ∧
      match run d (query_of body) (params_of body) with
      | Ok records =>
          status = 200%Z ∧
          payload = JArray (map convertNeo4jValue records) ∧
          all_integers (λ _, False) payload
      | Err e =>
          status = 500%Z ∧ payload = JObject [("error", message d e)]%string
      end.
Proof.
  intros Hnull Hundef. unfold run_query.
  assert (H : run_query d body =
    let query := query_of body in
    let params := params_of body in
    if js_not query then
      ([ConsoleLog params;
        Reply 400 (JObject [("error", JString "Missing query")]%string)],
       None)
    else
      ([ConsoleLog params; OpenSession; RunQuery query params] ++
       match run d query params with
       | Ok records => [Reply 200 (JArray (map convertNeo4jValue records))]
       | Err e =>
           [ConsoleError e;
            Reply 500 (JObject [("error", message d e)]%string)]
       end ++ [CloseSession],
       close d)) by by destruct body.
  unfold run_query in H. rewrite H. clear H. cbv zeta.
  destruct (js_not (query_of body)).
  - intros [= <- <-]. by eexists _, _.
  - destruct (run d (query_of body) (params_of body)) as [records|e];
      intros [= <- <-]; eexists _, _; repeat (split; [reflexivity|]).
    + apply (convert_no_integer (JArray records)).
    + reflexivity.
Qed.

Lemma run_query_contract_witness :
  let body := JObject [("query", JString "MATCH (f:File) RETURN f")]%string in
  ∃ evs, run_query one_record body = (evs, None) ∧
    filter is_reply evs =
      [Reply 200 (JArray [convertNeo4jValue a_record])].
Proof.
  intros body.
  destruct (run_query one_record body) as [evs c] eqn:E.
  destruct (run_query_contract one_record body evs c)
    as (status & payload & Hreply & Hrest); [done|done|exact E|].
  vm_compute in Hrest. destruct Hrest as (_ & _ & Hc & Hs & Hp & _).
  exists evs. rewrite Hreply, Hs, Hp, Hc. split; reflexivity.
Defined.

(** ** Which nodes the edge upsert tags *)

(** X17.  The edge upsert touches a node that was in the database exactly
    when its path is the [from] or the [to] of some pair of the batch: such
    a node gets the [projectUuid] of the run unless it has one already, and
    a node whose path no pair names is left as it was. *)
Theorem upsertEdges_tags_endpoints files projectUuid st st' i n :
  upsertEdges files projectUuid st = Ok st' → nodes st !! i = Some n →
  ((∃ pr, pr ∈ relPairs files ∧ touches n pr) →
   nodes st' !! i =
     Some (Node.set_projectUuid
             (Some (default projectUuid (Node.projectUuid n))) n)) ∧
  ((∀ pr, pr ∈ relPairs files → ¬ touches n pr) → nodes st' !! i = Some n).
Proof.
  intros H Hn.
  assert (Heff : nodes st' !! i =
            Some (if decide (Exists (touches n) (relPairs files))
                  then on_match_endpoint projectUuid n else n)).
  { revert H. unfold upsertEdges.
    destruct (relPairs files) as [|pr pairs].
    - intros [= <-]. rewrite decide_False; [done|].
      intros Hex. by apply Exists_nil in Hex.
    - intros H. by apply (merge_imports_effect _ _ _ _ _ _ H). }
  rewrite Heff. split.
  - intros Hex. rewrite decide_True; [done|]. by apply Exists_exists.
  - intros Hall. rewrite decide_False; [done|].
    intros (pr & Hpr & Ht)%Exists_exists. by apply (Hall pr).
Qed.

Lemma upsertEdges_tags_endpoints_witness :
  let y := Node.blank "y.js" in
  let z := Node.blank "z.js" in
  let st := mkStore {[0 := y; 1 := z]} [] false false in
  ∃ st', upsertEdges [x_js "2-bbbbbbb"] "P2" st = Ok st' ∧
    nodes st' !! 0 = Some (Node.set_projectUuid (Some "P2"%string) y) ∧
    nodes st' !! 1 = Some z.
Proof.
  intros y z st.
  destruct (upsertEdges [x_js "2-bbbbbbb"] "P2" st) as [st'|e] eqn:E;
    [|by vm_compute in E].
  exists st'. split; [reflexivity|]. split.
  - destruct (upsertEdges_tags_endpoints [x_js "2-bbbbbbb"] "P2" st st' 0 y E)
      as [Hyes _]; [reflexivity|].
    apply Hyes. exists (Some "x.js"%string, "y.js"%string).
    split; [left|by right].
  - destruct (upsertEdges_tags_endpoints [x_js "2-bbbbbbb"] "P2" st st' 1 z E)
      as [_ Hno]; [reflexivity|].
    apply Hno. intros pr Hpr.
    apply list_elem_of_singleton in Hpr as ->.
    intros [?|?]; done.
Defined.

(** ** The first importer *)

Lemma set_externalImports_same n :
  Part000.set_externalImports (Node.externalImports n) n = n.
Proof. by destruct n. Qed.

Lemma ext_frame_refl m : Part000.ext_frame m m.
Proof.
  split.
  - intros i n Hn. exists (Node.externalImports n).
    by rewrite set_externalImports_same.
  - intros i n' H1 H2. by rewrite H1 in H2.
Qed.

Lemma ext_frame_trans m1 m2 m3 :
  Part000.ext_frame m1 m2 → Part000.ext_frame m2 m3 →
  Part000.ext_frame m1 m3.
Proof.
  intros [Ho12 Hn12] [Ho23 Hn23]. split.
  - intros i n Hn. destruct (Ho12 i n Hn) as [e H2].
    destruct (Ho23 i _ H2) as [e' H3]. exists e'. by rewrite H3.
  - intros i n' H3 H1. destruct (m2 !! i) as [n2|] eqn:E2.
    + destruct (Hn12 i n2 E2 H1) as (p & e & ->).
      destruct (Ho23 i _ E2) as [e' H]. rewrite H in H3.
      injection H3 as <-. by exists p, e'.
    + by apply (Hn23 i).
Qed.

Lemma merge_plain_frame p (m m' : gmap N Node.t) bs :
  merge_file p (λ n, n) (λ n, n) m = (m', bs) → Part000.ext_frame m m'.
Proof.
  intros H. split.
  - intros i n Hn. exists (Node.externalImports n).
    rewrite (merge_file_effect _ _ _ _ _ _ i n H Hn).
    rewrite set_externalImports_same. by destruct (decide _).
  - intros i n' Hn' Hi.
    apply merge_file_cases in H as [(E & -> & ->)|(E & -> & ->)].
    + apply lookup_insert_Some in Hn' as [[_ <-]|[_ Hn']]; [|congruence].
      by exists p, None.
    + rewrite lookup_alter_all in Hn' by apply NoDup_matching.
      case_decide; rewrite Hi in Hn'; done.
Qed.

Lemma alter_all_ext_frame e (m : gmap N Node.t) hits :
  NoDup hits →
  Part000.ext_frame m (foldr (alter (Part000.set_externalImports e)) m hits).
Proof.
  intros Hnd. split.
  - intros i n Hn. rewrite lookup_alter_all by done. rewrite Hn.
    case_decide; [by exists e|].
    exists (Node.externalImports n). by rewrite set_externalImports_same.
  - intros i n' Hn' Hi. rewrite lookup_alter_all in Hn' by done.
    case_decide; rewrite Hi in Hn'; done.
Qed.

Lemma part000_node_row_frame st file st' :
  Part000.node_row st file = Ok st' →
  Part000.ext_frame (nodes st) (nodes st').
Proof.
  unfold Part000.node_row. destruct (File.path file) as [p|]; [|done].
  destruct (merge_file p _ _ (nodes st)) as [m fs] eqn:E. intros [= <-].
  apply (ext_frame_trans _ m); [by eapply merge_plain_frame|].
  apply alter_all_ext_frame.
  destruct (merge_file_bound _ _ _ _ _ _ keeps_path_id keeps_path_id E)
    as [-> _]. apply NoDup_matching.
Qed.

Lemma part000_merge_target_frame t st a :
  Part000.ext_frame (nodes st) (nodes (Part000.merge_target t st a)).
Proof.
  unfold Part000.merge_target.
  destruct (merge_file t _ _ (nodes st)) as [m bs] eqn:E.
  rewrite link_all_nodes. by eapply merge_plain_frame.
Qed.

Lemma part000_edge_row_frame st pr st' :
  Part000.edge_row st pr = Ok st' →
  Part000.ext_frame (nodes st) (nodes st').
Proof.
  unfold Part000.edge_row. destruct (pr.1) as [f|]; [|done].
  destruct (merge_file f _ _ (nodes st)) as [m as_] eqn:E. intros [= <-].
  apply (ext_frame_trans _ m); [by eapply merge_plain_frame|].
  change m with (nodes (set_nodes m st)) at 1. clear E.
  generalize (set_nodes m st). induction as_ as [|a as_ IH]; intros s.
  - apply ext_frame_refl.
  - simpl. eapply ext_frame_trans; [apply part000_merge_target_frame|].
    apply IH.
Qed.

(** X18.  The first importer writes [externalImports] and nothing else.
    Through its two statements a node that was in the database keeps every
    other property, and a node that it creates has a path, at most
    [externalImports], and in particular no [projectUuid]: these are the
    nodes that the later importer finds untagged. *)
Theorem part000_upserts_frame files st s1 s2 :
  Part000.upsertNodes files st = Ok s1 →
  Part000.upsertEdges files s1 = Ok s2 →
  (∀ i n, nodes st !! i = Some n →
     ∃ e, nodes s2 !! i = Some (Part000.set_externalImports e n)) ∧
  (∀ i n', nodes s2 !! i = Some n' → nodes st !! i = None →
     Node.projectUuid n' = None ∧ Node.id n' = None ∧
     ∃ p e, n' = Part000.set_externalImports e (Node.blank p)).
Proof.
  intros Hn He.
  assert (H1 : Part000.ext_frame (nodes st) (nodes s1)).
  { revert Hn. apply (foldM_rel _ (λ a a', Part000.ext_frame (nodes a) (nodes a'))).
    - intros a. apply ext_frame_refl.
    - intros a b c. apply ext_frame_trans.
    - intros a file a' _. apply part000_node_row_frame. }
  assert (H2 : Part000.ext_frame (nodes s1) (nodes s2)).
  { revert He. unfold Part000.upsertEdges.
    destruct (relPairs files) as [|pr pairs].
    - intros [= <-]. apply ext_frame_refl.
    - apply (foldM_rel _ (λ a a', Part000.ext_frame (nodes a) (nodes a'))).
      + intros a. apply ext_frame_refl.
      + intros a b c. apply ext_frame_trans.
      + intros a pr' a' _. apply part000_edge_row_frame. }
  destruct (ext_frame_trans _ _ _ H1 H2) as [Hold Hnew].
  split; [exact Hold|]. intros i n' Hi Hnone.
  destruct (Hnew i n' Hi Hnone) as (p & e & ->). eauto.
Qed.

Lemma part000_upserts_frame_witness :
  let files := [x_js "2-bbbbbbb"; y_js "2-ccccccc"] in
  ∃ s1 s2 n, Part000.upsertNodes files legacy = Ok s1 ∧
    Part000.upsertEdges files s1 = Ok s2 ∧
    nodes s2 !! 1 = Some n ∧ Node.path n = Some "x.js"%string ∧
    Node.projectUuid n = None.
Proof.
  intros files.
  destruct (Part000.upsertNodes files legacy) as [s1|e] eqn:E1;
    [|by vm_compute in E1].
  destruct (Part000.upsertEdges files s1) as [s2|e] eqn:E2;
    [|by vm_compute in E1; injection E1 as <-; vm_compute in E2].
  destruct (part000_upserts_frame files legacy s1 s2 E1 E2) as [_ Hnew].
  assert (E1' := E1). vm_compute in E1'. injection E1' as <-.
  assert (E2' := E2). vm_compute in E2'. injection E2' as <-.
  eexists _, _, _. split; [reflexivity|]. split; [reflexivity|].
  split; [vm_compute; reflexivity|]. split; [reflexivity|].
  edestruct (Hnew 1) as (Hu & _); [vm_compute; reflexivity|reflexivity|].
  exact Hu.
Defined.

Lemma stays_part000_import_steps env records :
  stays (Part000.import_steps env records).
Proof.
  unfold Part000.import_steps, Part000.ensureConstraint, session_close, send.
  apply stays_bind.
  { apply stays_bind; [auto with stays|intros _].
    apply stays_try_finally; auto with stays. }
  intros _. apply stays_bind; [auto with stays|intros _].
  apply stays_bind; [destruct (relPairs records); auto with stays|intros _].
  auto with stays.
Qed.

(** X19.  The first importer reports how the import ended.  On a non-empty
    array it closes its session last and never ends the process; when the
    close succeeds, [importRepo] ends as its steps ended, so that an error
    of a step is thrown to the caller, after being logged. *)
Theorem part000_importRepo_reports env elems w w' c :
  elems ≠ [] →
  Part000.importRepo env (JsArray elems) w = (w', c) →
  let steps :=
    Part000.import_steps env (map (heap w) elems) (add_event SessionOpened w) in
  last (trace w') = Some (Sent SessionClose) ∧
  (∀ k, c ≠ Exit k) ∧
  (fault env SessionClose = None → c = steps.2) ∧
  (∀ e, steps.2 = Throw e →
     LogError "Error importing repo:" (Some e) ∈ trace w').
Proof.
  intros Hne. unfold Part000.importRepo.
  destruct elems as [|f rest]; [done|].
  erewrite bind_normal; [|reflexivity].
  erewrite bind_normal; [|apply emit_run].
  set (records := map (heap w) (f :: rest)). set (w0 := add_event _ _).
  pose proof (stays_part000_import_steps env records) as Hstays.
  unfold try_finally, try_catch.
  destruct (Part000.import_steps env records w0) as [w1 c1] eqn:E.
  assert (Hclose : ∀ w2, session_close env w2 =
            (add_event (Sent SessionClose) w2,
             match fault env SessionClose with
             | None => Normal ()
             | Some e => Throw e
             end)).
  { intros w2. unfold session_close, request, mbind, Js_bind.
    rewrite emit_run. by destruct (fault env SessionClose). }
  destruct c1 as [[]|e|k]; [| |by destruct (Hstays w0 w1 k)].
  - rewrite Hclose. destruct (fault env SessionClose) as [e'|];
      intros [= <- <-]; cbn [trace add_event snd]; rewrite last_snoc;
      repeat split; try done.
  - unfold mbind, Js_bind, throw. rewrite emit_run, Hclose.
    destruct (fault env SessionClose) as [e'|];
      intros [= <- <-]; cbn [trace add_event snd]; rewrite last_snoc;
      (split; [done|]); (split; [done|]); (split; [done|]);
      intros e0 [= <-]; apply elem_of_app; left; apply elem_of_app;
      right; left.
Qed.

Lemma part000_importRepo_reports_witness :
  ∃ w', Part000.importRepo unreachable (JsArray [0; 1]) two_files
          = (w', Throw (ServiceUnavailable "Connection refused")) ∧
        last (trace w') = Some (Sent SessionClose).
Proof.
  destruct (Part000.importRepo unreachable (JsArray [0; 1]) two_files)
    as [w' c] eqn:E.
  destruct (part000_importRepo_reports unreachable [0; 1] two_files w' c)
    as (Hlast & _ & Hc & _); [done|exact E|].
  rewrite (Hc eq_refl). exists w'. split; [reflexivity|exact Hlast].
Defined.

(** ** A batch that repeats an id *)



